(** * ls: a shallow embedding of src/ls.go

    The Go program is a directory lister.  This development embeds its
    display pipeline (permission normalisation, colour tables, entry
    classification, sorting, grid layout, human-readable sizes) as Rocq
    functions and states the properties of the specification over them.

    Conventions.
    - A Go [string] is a [string] of bytes; [len] is [String.length].
    - A Go run-time panic (index or slice out of range) is [None] in the
      [option] monad; a function that cannot panic is a plain function.
    - A Go [map[string]string] is a [gmap string string]; reading a missing
      key gives the empty string, as in Go.
    - A Go slice that is updated in place is a [list] with stdpp's lookup
      and insert.
    - The unbounded [for { ... }] loops take a fuel argument and return
      [None] when it runs out; the theorems say which fuel suffices, or that
      none does.

    The first part of the file holds the definitions, in the order of the
    source; the second part holds the lemmas and theorems. *)

From Stdlib Require Import ZArith QArith Lia Ascii String Decimal DecimalString
  DecimalPos.
From stdpp Require Import gmap strings list fin_maps sorting.

Local Open Scope nat_scope.

(** * Part I: definitions *)

(** ** Go primitives used by ls.go *)

Module Go.

(** [len(s)] *)
Definition len (s : string) : nat := String.length s.

(** [s[i]]: panics unless [i < len(s)]. *)
Definition index (s : string) (i : nat) : option ascii := String.get i s.

(** [s[lo:hi]]: panics unless [lo <= hi <= len(s)]. *)
Definition slice (s : string) (lo hi : nat) : option string :=
  if decide (lo ≤ hi ∧ hi ≤ len s) then Some (String.substring lo (hi - lo) s)
  else None.

(** [s[lo:]] *)
Definition sliceFrom (s : string) (lo : nat) : option string :=
  slice s lo (len s).

(** [s[i] == c], with the bounds check of the index expression. *)
Definition indexIs (s : string) (i : nat) (c : ascii) : option bool :=
  ch ← index s i; Some (bool_decide (ch = c)).

(** [a && b] where both sides may panic: [b] is evaluated only when [a] is
    true. *)
Definition andThen (a b : option bool) : option bool :=
  match a with
  | Some true => b
  | Some false => Some false
  | None => None
  end.

(** [strings.Replace(s, old, new, 1)] for a non-empty [old]: the first
    occurrence of [old] is replaced, a string without one is returned
    unchanged. *)
Fixpoint replaceFirst (old new s : string) : string :=
  if String.prefix old s
  then new +:+ String.substring (len old) (len s - len old) s
  else match s with
       | EmptyString => EmptyString
       | String c s' => String c (replaceFirst old new s')
       end.

(** [strings.Contains(s, sub)] *)
Fixpoint contains (s sub : string) : bool :=
  String.prefix sub s ||
  match s with
  | EmptyString => false
  | String _ s' => contains s' sub
  end.

(** [strings.Split(s, sep)] for a one-byte separator: the pieces between the
    separators, in order; a string without separator is its only piece, and
    the empty string splits into one empty piece. *)
Fixpoint split (sep : ascii) (s : string) : list string :=
  match s with
  | EmptyString => [EmptyString]
  | String c r =>
      if bool_decide (c = sep) then EmptyString :: split sep r
      else match split sep r with
           | h :: t => String c h :: t
           | [] => [String c EmptyString]
           end
  end.

(** [strings.ToLower] on a string of ASCII bytes: [A]-[Z] move to [a]-[z],
    every other byte stays.  (On a name with bytes from 0x80 up Go maps whole
    runes through its Unicode tables; such names are outside this model.) *)
Definition lowerByte (c : ascii) : ascii :=
  let n := nat_of_ascii c in
  if (65 <=? n) && (n <=? 90) then ascii_of_nat (n + 32) else c.

Fixpoint toLower (s : string) : string :=
  match s with
  | EmptyString => EmptyString
  | String c r => String (lowerByte c) (toLower r)
  end.

(** The decimal digits of a string, most significant first; [None] when a
    byte is not a digit. *)
Definition digitValue (c : ascii) : option Z :=
  let n := nat_of_ascii c in
  if (48 <=? n) && (n <=? 57) then Some (Z.of_nat n - 48)%Z else None.

Fixpoint digitsValue (acc : Z) (s : string) : option Z :=
  match s with
  | EmptyString => Some acc
  | String c r => d ← digitValue c; digitsValue (acc * 10 + d)%Z r
  end.

Definition maxInt : Z := (2 ^ 63 - 1)%Z.
Definition minInt : Z := (- 2 ^ 63)%Z.

(** The value of [strconv.Atoi(s)] when the error is dropped, as ls.go does
    ([n, _ := strconv.Atoi(s)]): an optional sign and at least one decimal
    digit give the number, clamped to the 64-bit range; anything else is a
    syntax error, whose value is 0. *)
Definition atoi (s : string) : Z :=
  let '(neg, body) :=
    match s with
    | String c r =>
        if bool_decide (c = "-"%char) then (true, r)
        else if bool_decide (c = "+"%char) then (false, r)
        else (false, s)
    | EmptyString => (false, s)
    end in
  match body with
  | EmptyString => 0%Z
  | _ =>
      match digitsValue 0 body with
      | None => 0%Z
      | Some v =>
          let n := if neg : bool then (- v)%Z else v in
          Z.max minInt (Z.min maxInt n)
      end
  end.

(** [strconv.Itoa(n)] and [fmt.Sprintf("%d", n)]. *)
Definition itoa (n : Z) : string :=
  NilEmpty.string_of_int (Z.to_int n).

(** [strings.Trim(s, cutset)] for a cutset of ASCII bytes: the longest
    prefix and the longest suffix made of bytes of the cutset are dropped. *)
Fixpoint trimLeft (cutset s : string) : string :=
  match s with
  | String c r =>
      if contains cutset (String c EmptyString) then trimLeft cutset r else s
  | EmptyString => EmptyString
  end.

Fixpoint trimRight (cutset s : string) : string :=
  match s with
  | EmptyString => EmptyString
  | String c r =>
      match trimRight cutset r with
      | EmptyString =>
          if contains cutset (String c EmptyString) then EmptyString
          else String c EmptyString
      | r' => String c r'
      end
  end.

Definition trim (s cutset : string) : string :=
  trimRight cutset (trimLeft cutset s).

(** The white space of [strings.TrimSpace] among the ASCII bytes: tab, line
    feed, vertical tab, form feed, carriage return and space.  (In a string
    with bytes from 0x80 up Go also trims the Unicode white space, U+0085,
    U+00A0 and the like; such input is outside this model.) *)
Definition asciiSpace : string :=
  String "009" (String "010" (String "011" (String "012" (String "013"
    (String " " EmptyString))))).

Definition trimSpace (s : string) : string := trim s asciiSpace.

(** [strings.Replace(s, old, new, -1)] for a non-empty [old]: the occurrences
    of [old] are replaced from the left, and the search goes on behind each
    replaced occurrence.  Every step consumes a byte of [s], so that
    [len(s)] steps reach its end. *)
Fixpoint replaceFrom (steps : nat) (old new s : string) : string :=
  match steps with
  | O => s
  | S steps' =>
      if String.prefix old s
      then new +:+ replaceFrom steps' old new
                     (String.substring (len old) (len s - len old) s)
      else match s with
           | EmptyString => EmptyString
           | String c s' => String c (replaceFrom steps' old new s')
           end
  end.

Definition replaceAll (s old new : string) : string :=
  replaceFrom (len s) old new s.

(** [strconv.ParseInt(s, 10, 0)] with the 64-bit [int] of the platforms ls
    is built for: an optional sign and at least one decimal digit give the
    number; [None] stands for the error that is returned on anything else
    and on a number outside the 64-bit range. *)
Definition parseInt (s : string) : option Z :=
  let '(neg, body) :=
    match s with
    | String c r =>
        if bool_decide (c = "+"%char) then (false, r)
        else if bool_decide (c = "-"%char) then (true, r)
        else (false, s)
    | EmptyString => (false, s)
    end in
  match body with
  | EmptyString => None
  | _ =>
      v ← digitsValue 0 body;
      let n := if neg : bool then (- v)%Z else v in
      if bool_decide (minInt ≤ n ≤ maxInt)%Z then Some n else None
  end.

(** [b.Truncate(n)] of a [bytes.Buffer] that has not been read from: all but
    the first [n] bytes are dropped; it panics unless [0 <= n <= b.Len()]. *)
Definition truncate (buf : string) (n : Z) : option string :=
  if bool_decide (0 ≤ n ≤ Z.of_nat (len buf))%Z
  then Some (String.substring 0 (Z.to_nat n) buf)
  else None.

End Go.
(** ** The structs of ls.go *)

Record Options := mkOptions {
  all : bool;
  long : bool;
  human : bool;
  one : bool;
  dir : bool;
  color : bool;
  sortReverse : bool;
  sortTime : bool;
  sortSize : bool;
  help : bool;
  dirsFirst : bool
}.

Record Listing := mkListing {
  permissions : string;
  numHardLinks : string;
  owner : string;
  group : string;
  size : string;
  epochNano : Z;
  month : string;
  day : string;
  time : string;
  name : string;
  linkName : string;
  linkOrphan : bool;
  isSocket : bool;
  isPipe : bool;
  isBlock : bool;
  isCharacter : bool
}.

(** The global [colorMap]; [colorMap[k]] of a missing key is the empty
    string. *)
Definition mapGet (cm : gmap string string) (k : string) : string :=
  default EmptyString (cm !! k).

(** ** Colour tables *)

(** Base set of colour codes. *)
Definition colorFgBlack : Z := 30.
Definition colorFgRed : Z := 31.
Definition colorFgGreen : Z := 32.
Definition colorFgBrown : Z := 33.
Definition colorFgBlue : Z := 34.
Definition colorFgMagenta : Z := 35.
Definition colorFgCyan : Z := 36.
Definition colorFgWhite : Z := 37.
Definition colorBgBlack : Z := 40.
Definition colorBgRed : Z := 41.
Definition colorBgGreen : Z := 42.
Definition colorBgBrown : Z := 43.
Definition colorBgBlue : Z := 44.
Definition colorBgMagenta : Z := 45.
Definition colorBgCyan : Z := 46.
Definition colorBgWhite : Z := 47.

(** The two bytes [\x1b[] that open an escape sequence. *)
Definition escOpen : string := String (ascii_of_nat 27) "[".

(** [getPartialColor] (ls.go 94-176): three consecutive writes to the
    buffer. *)
Definition getPartialColor (foreground : bool) (letter : ascii) : string :=
  let n := nat_of_ascii letter in
  let isLetter (c : ascii) := bool_decide (letter = c) in
  let part1 :=
    if foreground && isLetter "x"%char then "0;"
    else if negb foreground && negb (isLetter "x"%char) then ";"
    else "" in
  let part2 :=
    if foreground && (97 <=? n) && (n <=? 122) then "0;"
    else if foreground && (65 <=? n) && (n <=? 90) then "1;"
    else "" in
  let fgbg (fg bg : Z) := Go.itoa (if foreground then fg else bg) in
  let part3 :=
    if isLetter "a"%char then fgbg colorFgBlack colorBgBlack
    else if isLetter "b"%char then fgbg colorFgRed colorBgRed
    else if isLetter "c"%char then fgbg colorFgGreen colorBgGreen
    else if isLetter "d"%char then fgbg colorFgBrown colorBgBrown
    else if isLetter "e"%char then fgbg colorFgBlue colorBgBlue
    else if isLetter "f"%char then fgbg colorFgMagenta colorBgMagenta
    else if isLetter "g"%char then fgbg colorFgCyan colorBgCyan
    else if isLetter "h"%char then fgbg colorFgWhite colorBgWhite
    else if isLetter "A"%char then Go.itoa colorFgBlack
    else if isLetter "B"%char then Go.itoa colorFgRed
    else if isLetter "C"%char then Go.itoa colorFgGreen
    else if isLetter "D"%char then Go.itoa colorFgBrown
    else if isLetter "E"%char then Go.itoa colorFgBlue
    else if isLetter "F"%char then Go.itoa colorFgMagenta
    else if isLetter "G"%char then Go.itoa colorFgCyan
    else if isLetter "H"%char then Go.itoa colorFgWhite
    else "" in
  part1 +:+ part2 +:+ part3.

(** [getColorFromBsdCode] (ls.go 180-191): [code[0]] and [code[1]] are read
    first, so a code shorter than two bytes panics. *)
Definition getColorFromBsdCode (code : string) : option string :=
  colorForeground ← Go.index code 0;
  colorBackground ← Go.index code 1;
  Some (escOpen +:+ getPartialColor true colorForeground
          +:+ getPartialColor false colorBackground +:+ "m").

(** The key that position [i] of LSCOLORS fills, if any. *)
Definition lscolorsKey (i : nat) : option string :=
  match i with
  | 0 => Some "directory"
  | 2 => Some "symlink"
  | 4 => Some "socket"
  | 6 => Some "pipe"
  | 8 => Some "executable"
  | 10 => Some "block"
  | 12 => Some "character"
  | 14 => Some "executable_suid"
  | 16 => Some "executable_sgid"
  | 18 => Some "directory_o+w_sticky"
  | 20 => Some "directory_o+w"
  | _ => None
  end.

(** One turn of the loop of [parseLscolors] at index [i]: the slice
    [LSCOLORS[i : i+2]] is taken only in the branches that have a key. *)
Definition parseLscolorsStep (LSCOLORS : string) (cm : gmap string string)
    (i : nat) : option (gmap string string) :=
  match lscolorsKey i with
  | Some key =>
      code ← Go.slice LSCOLORS i (i + 2);
      c ← getColorFromBsdCode code;
      Some (<[key := c]> cm)
  | None => Some cm
  end.

(** The indices [for i := 0; i < n; i += 2] visits. *)
Definition evenIndices (n : nat) : list nat :=
  (λ k, 2 * k) <$> seq 0 ((n + 1) / 2).

(** [parseLscolors] (ls.go 195-232). *)
Definition parseLscolors (LSCOLORS : string) (cm : gmap string string)
    : option (gmap string string) :=
  foldl (λ acc i, m ← acc; parseLscolorsStep LSCOLORS m i)
        (Some cm) (evenIndices (Go.len LSCOLORS)).

(** The colour table key of a two-letter LS_COLORS key; any other key is
    kept as it is (the final [else] of ls.go 1095-1097). *)
Definition lsColorsKey (k : string) : string :=
  if bool_decide (k = "rs") then "end"
  else if bool_decide (k = "di") then "directory"
  else if bool_decide (k = "ln") then "symlink"
  else if bool_decide (k = "mh") then "multi_hardlink"
  else if bool_decide (k = "pi") then "pipe"
  else if bool_decide (k = "so") then "socket"
  else if bool_decide (k = "bd") then "block"
  else if bool_decide (k = "cd") then "character"
  else if bool_decide (k = "or") then "link_orphan"
  else if bool_decide (k = "mi") then "link_orphan_target"
  else if bool_decide (k = "su") then "executable_suid"
  else if bool_decide (k = "sg") then "executable_sgid"
  else if bool_decide (k = "tw") then "directory_o+w_sticky"
  else if bool_decide (k = "ow") then "directory_o+w"
  else if bool_decide (k = "st") then "directory_sticky"
  else if bool_decide (k = "ex") then "executable"
  else k.

(** One turn of the loop over [strings.Split(LsColors, ":")] (ls.go
    1055-1101): empty pieces are skipped; [iSplit[1]] panics on a piece
    without [=]. *)
Definition parseLsColorsStep (cm : gmap string string) (i : string)
    : option (gmap string string) :=
  if bool_decide (i = "") then Some cm
  else
    let iSplit := Go.split "=" i in
    code ← iSplit !! 1;
    key ← iSplit !! 0;
    let colorCode := escOpen +:+ code +:+ "m" in
    Some (<[lsColorsKey key := colorCode]> cm).

Definition parseLsColors (LsColors : string) (cm : gmap string string)
    : option (gmap string string) :=
  foldl (λ acc i, m ← acc; parseLsColorsStep m i)
        (Some cm) (Go.split ":" LsColors).

(** The colour section of [ls] (ls.go 1043-1106), for [options.color]
    set: [LsColors] and [LSCOLORS] are the values of the environment
    variables LS_COLORS and LSCOLORS, empty when unset. *)
Definition buildColorMap (LsColors LSCOLORS : string)
    : option (gmap string string) :=
  let cm : gmap string string := {[ "end" := escOpen +:+ "0m" ]} in
  if negb (bool_decide (LSCOLORS = "")) then parseLscolors LSCOLORS cm
  else if negb (bool_decide (LsColors = "")) then parseLsColors LsColors cm
  else parseLscolors "exfxcxdxbxegedabagacad" cm.

(** ** createListing: the permissions string (ls.go 323-382)

    [mode] is [fip.info.Mode().String()] and [isSymlink] is
    [fip.info.Mode()&os.ModeSymlink == os.ModeSymlink].  The order of the
    branches is the source's; the symlink branch's reading of the link
    target does not touch the permissions and is left out. *)

Definition normalizePermissions (isSymlink : bool) (mode : string)
    : option string :=
  if isSymlink then
    Some (Go.replaceFirst "L" "l" mode)
  else
    c0 ← Go.index mode 0;
    if bool_decide (c0 = "D"%char) then
      Go.sliceFrom mode 1
    else
      p2 ← Go.slice mode 0 2;
      if bool_decide (p2 = "ug") then
        let p := Go.replaceFirst "ug" "-" mode in
        a ← Go.slice p 0 3;
        b ← Go.slice p 4 6;
        c ← Go.sliceFrom p 7;
        Some (a +:+ "s" +:+ b +:+ "s" +:+ c)
      else if bool_decide (c0 = "u"%char) then
        let p := Go.replaceFirst "u" "-" mode in
        a ← Go.slice p 0 3;
        b ← Go.sliceFrom p 4;
        Some (a +:+ "s" +:+ b)
      else if bool_decide (c0 = "g"%char) then
        let p := Go.replaceFirst "g" "-" mode in
        a ← Go.slice p 0 6;
        b ← Go.sliceFrom p 7;
        Some (a +:+ "s" +:+ b)
      else if bool_decide (p2 = "dt") then
        let p := Go.replaceFirst "dt" "d" mode in
        a ← Go.slice p 0 (Go.len p - 1);
        Some (a +:+ "t")
      else
        Some mode.

(** The nine permission characters [FileMode.String] writes after the type
    letters: position [i] holds the [i]-th character of [rwxrwxrwx] when the
    bit is set and [-] when it is not. *)
Fixpoint permBitsOf (template p : string) : bool :=
  match template, p with
  | EmptyString, EmptyString => true
  | String t ts, String c cs =>
      (bool_decide (c = t) || bool_decide (c = "-"%char)) && permBitsOf ts cs
  | _, _ => false
  end.

Definition permBits (p : string) : bool := permBitsOf "rwxrwxrwx" p.

(** ** createListing: the size field (ls.go 423-479) *)

(** [float64(n)] for a 64-bit integer [n]: exact below 2^53, and rounded to
    53 significant bits (ties to even) from there on.  The result is an
    integer, returned as a rational. *)
Definition float64OfInt (n : Z) : Q :=
  let a := Z.abs n in
  if (a <? 2 ^ 53)%Z then inject_Z n
  else
    let e := (Z.log2 a - 52)%Z in
    let q := (a / 2 ^ e)%Z in
    let r := (a mod 2 ^ e)%Z in
    let half := (2 ^ (e - 1))%Z in
    let q' := if (half <? r)%Z || ((r =? half)%Z && Z.odd q)
              then (q + 1)%Z else q in
    inject_Z (Z.sgn n * q' * 2 ^ e).

(** [for size >= 1.0 { size /= 1024; count++ }].  Dividing a float64 by
    1024 only lowers its exponent, so the rational is the exact value. *)
Fixpoint scaleDown (fuel : nat) (size : Q) (count : Z) : option (Q * Z) :=
  match fuel with
  | 0 => None
  | S fuel' =>
      if Qle_bool 1 size then scaleDown fuel' (size / 1024)%Q (count + 1)%Z
      else Some (size, count)
  end.

Definition sizeSuffix (count : Z) : string :=
  if (count =? 0)%Z then "B"
  else if (count =? 1)%Z then "K"
  else if (count =? 2)%Z then "M"
  else if (count =? 3)%Z then "G"
  else if (count =? 4)%Z then "T"
  else if (count =? 5)%Z then "P"
  else if (count =? 6)%Z then "E"
  else "?".

(** The nearest integer to a rational [x >= 0], ties to the even one. *)
Definition roundHalfEven (x : Q) : Z :=
  let n := Qnum x in
  let d := Zpos (Qden x) in
  let q := (n / d)%Z in
  let r := (n mod d)%Z in
  if (2 * r <? d)%Z then q
  else if (d <? 2 * r)%Z then (q + 1)%Z
  else if Z.even q then q else (q + 1)%Z.

(** [fmt.Sprintf("%.1f", x)] for [x >= 0]: Go prints the decimal expansion
    of the float's exact value rounded to one decimal, ties to even. *)
Definition formatF1 (x : Q) : string :=
  let t := roundHalfEven (x * 10)%Q in
  Go.itoa (t / 10) +:+ "." +:+ Go.itoa (t mod 10).

(** [int64(size)]: truncation towards zero. *)
Definition int64OfFloat (x : Q) : Z := Z.quot (Qnum x) (Zpos (Qden x)).

(** "drop the trailing .0 if it exists in the size" (ls.go 468-473). *)
Definition dropPointZero (sizeStr suffix : string) : option string :=
  if decide (3 < Go.len sizeStr) then
    tail ← Go.slice sizeStr (Go.len sizeStr - 3) (Go.len sizeStr - 1);
    if bool_decide (tail = ".0") then
      front ← Go.slice sizeStr 0 (Go.len sizeStr - 3);
      Some (front +:+ suffix)
    else Some sizeStr
  else Some sizeStr.

(** The size field for a file of [n] bytes under [options.human]
    (ls.go 424-475).  A 64-bit size is below 1024^7, so the loop makes
    seven turns at most and the fuel of 64 is never used up. *)
Definition humanSize (n : Z) : option string :=
  '(size, count) ← scaleDown 64 (float64OfInt n) 0%Z;
  let '(size, count) :=
    if (count <? 0)%Z then (size, 0%Z)
    else if (0 <? count)%Z then ((size * 1024)%Q, (count - 1)%Z)
    else (size, count) in
  let suffix := sizeSuffix count in
  let sizeStr :=
    if (count =? 0)%Z then Go.itoa (int64OfFloat size) +:+ suffix
    else formatF1 size +:+ suffix in
  dropPointZero sizeStr suffix.

(** The size field of [createListing]. *)
Definition sizeField (o : Options) (n : Z) : option string :=
  if human o then humanSize n else Some (Go.itoa n).

(** ** writeListingName (ls.go 236-316)

    The function appends to the output buffer; here it takes the buffer and
    returns the new one.  [options] and [colorMap] are the globals.  The
    index expressions on [l.permissions] keep their bounds checks, and [&&]
    its short circuit. *)

Notation "a &&& b" := (Go.andThen a b) (at level 40, left associativity).

(** The colour branch: the string written before the name and whether a
    colour was applied. *)
Definition nameColor (cm : gmap string string) (l : Listing)
    : option (string * bool) :=
  let numHardlinks := Go.atoi (numHardLinks l) in
  let nameSplit := Go.split "." (name l) in
  let extensionStr :=
    if 1 <? length nameSplit
    then "*." +:+ default EmptyString (last nameSplit)
    else "" in
  let perm := Go.indexIs (permissions l) in
  if negb (bool_decide (extensionStr = ""))
     && negb (bool_decide (mapGet cm extensionStr = "")) then
    Some (mapGet cm extensionStr, true)
  else
  c1 ← perm 0 "d"%char &&& perm 8 "w"%char &&& perm 9 "t"%char;
  if c1 : bool then Some (mapGet cm "directory_o+w_sticky", true) else
  c2 ← perm 0 "d"%char &&& perm 9 "t"%char;
  if c2 : bool then Some (mapGet cm "directory_sticky", true) else
  c3 ← perm 0 "d"%char &&& perm 8 "w"%char;
  if c3 : bool then Some (mapGet cm "directory_o+w", true) else
  c4 ← perm 0 "d"%char;
  if c4 : bool then Some (mapGet cm "directory", true) else
  if (1 <? numHardlinks)%Z then Some (mapGet cm "multi_hardlink", true) else
  c6 ← perm 0 "l"%char &&& Some (linkOrphan l);
  if c6 : bool then Some (mapGet cm "link_orphan", true) else
  c7 ← perm 0 "l"%char;
  if c7 : bool then Some (mapGet cm "symlink", true) else
  c8 ← perm 3 "s"%char;
  if c8 : bool then Some (mapGet cm "executable_suid", true) else
  c9 ← perm 6 "s"%char;
  if c9 : bool then Some (mapGet cm "executable_sgid", true) else
  if Go.contains (permissions l) "x" then Some (mapGet cm "executable", true) else
  if isSocket l then Some (mapGet cm "socket", true) else
  if isPipe l then Some (mapGet cm "pipe", true) else
  if isBlock l then Some (mapGet cm "block", true) else
  if isCharacter l then Some (mapGet cm "character", true) else
  Some (EmptyString, false).

(** The [ -> target] tail of the long form. *)
Definition linkTail (o : Options) (cm : gmap string string) (l : Listing)
    : option string :=
  c ← Go.indexIs (permissions l) 0 "l"%char &&& Some (long o);
  if c : bool then
    if linkOrphan l then
      Some (" -> " +:+ mapGet cm "link_orphan_target" +:+ linkName l
              +:+ mapGet cm "end")
    else Some (" -> " +:+ linkName l)
  else Some EmptyString.

Definition writeListingName (o : Options) (cm : gmap string string)
    (outputBuffer : string) (l : Listing) : option string :=
  buf ←
    (if color o then
       '(esc, appliedColor) ← nameColor cm l;
       let buf := outputBuffer +:+ esc +:+ name l in
       Some (if appliedColor : bool then buf +:+ mapGet cm "end" else buf)
     else Some (outputBuffer +:+ name l));
  tail ← linkTail o cm l;
  Some (buf +:+ tail).

(** ** Sorting (ls.go 546-644) *)

(** The result of running a loop that has no bound in the source. *)
Inductive run (A : Type) : Type :=
  | Returned (a : A)
  | Panicked
  | OutOfFuel.
Arguments Returned {A} a.
Arguments Panicked {A}.
Arguments OutOfFuel {A}.

(** The loop of [compareName] from index [i], with [n] turns left; after
    the loop the lengths of the names decide. *)
Fixpoint compareNameFrom (n i : nat) (a b : Listing)
    (aNameLower bNameLower : string) : option Z :=
  match n with
  | 0 =>
      if Go.len (name a) <? Go.len (name b) then Some (-1)%Z
      else if Go.len (name b) <? Go.len (name a) then Some 1%Z
      else Some 0%Z
  | S n' =>
      x ← Go.index aNameLower i;
      y ← Go.index bNameLower i;
      if nat_of_ascii x <? nat_of_ascii y then Some (-1)%Z
      else if nat_of_ascii y <? nat_of_ascii x then Some 1%Z
      else compareNameFrom n' (S i) a b aNameLower bNameLower
  end.

(** [compareName] (ls.go 547-573). *)
Definition compareName (a b : Listing) : option Z :=
  let aNameLower := Go.toLower (name a) in
  let bNameLower := Go.toLower (name b) in
  let smallerLen :=
    if Go.len (name a) <? Go.len (name b) then Go.len (name a)
    else Go.len (name b) in
  compareNameFrom smallerLen 0 a b aNameLower bNameLower.

(** [compareTime] (ls.go 577-583). *)
Definition compareTime (a b : Listing) : option Z :=
  if (epochNano b <=? epochNano a)%Z then Some (-1)%Z else Some 1%Z.

(** [compareSize] (ls.go 587-596). *)
Definition compareSize (a b : Listing) : option Z :=
  let a_size := Go.atoi (size a) in
  let b_size := Go.atoi (size b) in
  if (b_size <=? a_size)%Z then Some (-1)%Z else Some 1%Z.

(** The inner loop of [sortListings] from index [i], with [n] turns left:
    the pair at [i], [i+1] is exchanged when the comparison is above -1. *)
Fixpoint bubblePass (cmp : Listing → Listing → option Z) (n i : nat)
    (listings : list Listing) (done : bool) : option (list Listing * bool) :=
  match n with
  | 0 => Some (listings, done)
  | S n' =>
      a ← listings !! i;
      b ← listings !! (i + 1);
      c ← cmp a b;
      if (-1 <? c)%Z then
        let tmp := a in
        let listings := <[i := b]> listings in
        let listings := <[i + 1 := tmp]> listings in
        bubblePass cmp n' (S i) listings false
      else bubblePass cmp n' (S i) listings done
  end.

(** The outer [for { ... }]: passes are repeated until one exchanges
    nothing.  A pass makes [len(listings) - 1] turns, none for the empty
    slice. *)
Fixpoint sortLoop (cmp : Listing → Listing → option Z) (fuel : nat)
    (listings : list Listing) : run (list Listing) :=
  match fuel with
  | 0 => OutOfFuel
  | S fuel' =>
      match bubblePass cmp (length listings - 1) 0 listings true with
      | None => Panicked
      | Some (listings', true) => Returned listings'
      | Some (listings', false) => sortLoop cmp fuel' listings'
      end
  end.

(** The loop of the reversal from index [i], with [n] turns left.  The
    loop runs for [i <= len(listings) / 2] on a non-empty slice only, so
    [rearIndex] is not negative. *)
Fixpoint reverseFrom (n i : nat) (listings : list Listing)
    : option (list Listing) :=
  match n with
  | 0 => Some listings
  | S n' =>
      let frontIndex := i in
      let rearIndex := length listings - 1 - i in
      if bool_decide (frontIndex = rearIndex) then Some listings
      else
        tmp ← listings !! frontIndex;
        r ← listings !! rearIndex;
        let listings := <[frontIndex := r]> listings in
        let listings := <[rearIndex := tmp]> listings in
        reverseFrom n' (S i) listings
  end.

(** The [if options.sortReverse] block (ls.go 625-643).  [middleIndex] is
    -1 for the empty slice, so the loop [for i := 0; i <= middleIndex; i++]
    makes [middleIndex + 1] turns at most. *)
Definition reverseStep (listings : list Listing) : option (list Listing) :=
  let n := Z.of_nat (length listings) in
  let middleIndex := (n / 2)%Z in
  let middleIndex :=
    if (n mod 2 =? 0)%Z then (middleIndex - 1)%Z else middleIndex in
  reverseFrom (Z.to_nat (middleIndex + 1)) 0 listings.

Definition comparisonFunction (o : Options)
    : Listing → Listing → option Z :=
  if sortTime o then compareTime
  else if sortSize o then compareSize
  else compareName.

(** [sortListings] (ls.go 599-644); the sorted slice is the result. *)
Definition sortListings (fuel : nat) (o : Options)
    (listings : list Listing) : run (list Listing) :=
  match sortLoop (comparisonFunction o) fuel listings with
  | Returned sorted =>
      if sortReverse o then
        match reverseStep sorted with
        | Some reversed => Returned reversed
        | None => Panicked
        end
      else Returned sorted
  | Panicked => Panicked
  | OutOfFuel => OutOfFuel
  end.

(** One of the two loops of [sortListingsDirsFirst]: the listings whose
    type character passes [keep] are appended in order; [l.permissions[0]]
    panics on an empty permission string. *)
Fixpoint appendWhere (keep : bool → bool) (listings : list Listing)
    : option (list Listing) :=
  match listings with
  | [] => Some []
  | l :: rest =>
      isDir ← Go.indexIs (permissions l) 0 "d"%char;
      kept ← appendWhere keep rest;
      Some (if keep isDir then l :: kept else kept)
  end.

(** [sortListingsDirsFirst] (ls.go 528-544). *)
Definition sortListingsDirsFirst (listings : list Listing)
    : option (list Listing) :=
  dirs ← appendWhere id listings;
  others ← appendWhere negb listings;
  Some (dirs ++ others).

(** ** ls: the arguments and the options (ls.go 964-1019) *)

(** The first loop of [ls]: an argument whose first rune is [-] is an
    option, any other a file.  [aRune[0]] panics on the empty argument.
    The first rune of a non-empty string is [-] exactly when its first byte
    is: a byte below 0x80 is its own rune, and a byte from 0x80 up starts a
    rune that is not ASCII. *)
Fixpoint splitArgs (args : list string) : option (list string * list string) :=
  match args with
  | [] => Some ([], [])
  | a :: rest =>
      first ← Go.index a 0;
      '(argsOptions, argsFiles) ← splitArgs rest;
      Some (if bool_decide (first = "-"%char)
            then (a :: argsOptions, argsFiles)
            else (argsOptions, a :: argsFiles))
  end.

(** One turn of the loop over [argsOptions]: each [if] of the source sets
    its field when the option contains the text, and leaves it otherwise. *)
Definition applyOption (opts : Options) (o : string) : Options :=
  if Go.contains o "--" then
    mkOptions (all opts) (long opts) (human opts) (one opts) (dir opts)
              (if Go.contains o "--nocolor" then false else color opts)
              (sortReverse opts) (sortTime opts) (sortSize opts)
              (if Go.contains o "--help" then true else help opts)
              (if Go.contains o "--dirs-first" then true else dirsFirst opts)
  else
    mkOptions (if Go.contains o "a" then true else all opts)
              (if Go.contains o "l" then true else long opts)
              (if Go.contains o "h" then true else human opts)
              (if Go.contains o "1" then true else one opts)
              (if Go.contains o "d" then true else dir opts)
              (color opts)
              (if Go.contains o "r" then true else sortReverse opts)
              (if Go.contains o "t" then true else sortTime opts)
              (if Go.contains o "S" then true else sortSize opts)
              (help opts)
              (dirsFirst opts).

(** [options = Options{}; options.color = true]. *)
Definition initialOptions : Options :=
  mkOptions false false false false false true false false false false false.

Definition parseOptions (argsOptions : list string) : Options :=
  foldl applyOption initialOptions argsOptions.

(** ** /etc/group and /etc/passwd (ls.go 899-959)

    [ls] reads both files with the same loop, line by line as the scanner
    yields them: a line is trimmed of spaces and tabs, skipped when it starts
    with [#], and otherwise split at the colons; the third field, read as a
    decimal number, becomes the key under which the first field is stored.
    The loop stops in one of three ways: it reaches the end of the file, it
    returns the error of [strconv.ParseInt], or it panics. *)

Inductive result (A : Type) : Type :=
  | Finished (a : A)
  | Failed
  | Crashed.
Arguments Finished {A} a.
Arguments Failed {A}.
Arguments Crashed {A}.

(** The cutset of [strings.Trim(line, " \t")]. *)
Definition blanks : string := String " " (String "009" EmptyString).

(** One round of the loop.  [line[0]] is evaluated before [line == ""]. *)
Definition readIdLine (idMap : gmap Z string) (line : string)
    : result (gmap Z string) :=
  let line := Go.trim line blanks in
  match Go.index line 0 with
  | None => Crashed
  | Some first =>
      if bool_decide (first = "#"%char) || bool_decide (line = "") then
        Finished idMap
      else
        let lineSplit := Go.split ":" line in
        match lineSplit !! 2 with
        | None => Crashed
        | Some field =>
            match Go.parseInt field with
            | None => Failed
            | Some id =>
                match lineSplit !! 0 with
                | None => Crashed
                | Some name => Finished (<[id := name]> idMap)
                end
            end
        end
  end.

Fixpoint readIdLines (idMap : gmap Z string) (lines : list string)
    : result (gmap Z string) :=
  match lines with
  | [] => Finished idMap
  | line :: rest =>
      match readIdLine idMap line with
      | Finished idMap' => readIdLines idMap' rest
      | Failed => Failed
      | Crashed => Crashed
      end
  end.

(** The group of a listing (ls.go 414-421): the name stored for the gid, and
    the number itself when there is none, or an empty one. *)
Definition groupField (groupMap : gmap Z string) (gid : Z) : string :=
  let _group := default EmptyString (groupMap !! gid) in
  if bool_decide (_group = "") then Go.itoa gid else _group.

(** ** main: the arguments read from stdin (ls.go 1251-1289)

    When stdin is not a terminal its content is trimmed, freed of tabs and
    of repeated spaces, split at the spaces, and appended to the arguments
    of the command line; [ls] is called with all but the first. *)

Definition tab : string := String "009" EmptyString.

(** The loop that removes the internal excess spaces. *)
Fixpoint removeExcessSpaces (fuel : nat) (stdinStr : string) : run string :=
  match fuel with
  | O => OutOfFuel
  | S fuel' =>
      if Go.contains stdinStr "  "
      then removeExcessSpaces fuel' (Go.replaceAll stdinStr "  " " ")
      else Returned stdinStr
  end.

Definition stdinArguments (fuel : nat) (stdinBytes : string)
    : run (list string) :=
  let stdinStr := Go.trimSpace stdinBytes in
  let stdinStr := Go.replaceAll stdinStr tab "" in
  match removeExcessSpaces fuel stdinStr with
  | Returned stdinStr => Returned (Go.split " " stdinStr)
  | Panicked => Panicked
  | OutOfFuel => OutOfFuel
  end.

(** The arguments [ls] is called with, [argumentList[1:]]; [stdin] is [None]
    when stdin is a terminal. *)
Definition lsArguments (fuel : nat) (osArgs : list string)
    (stdin : option string) : run (list string) :=
  let argumentList :=
    match stdin with
    | Some stdinBytes =>
        match stdinArguments fuel stdinBytes with
        | Returned stdinStrSlice => Returned (osArgs ++ stdinStrSlice)
        | Panicked => Panicked
        | OutOfFuel => OutOfFuel
        end
    | None => Returned osArgs
    end in
  match argumentList with
  | Returned [] => Panicked
  | Returned (_ :: rest) => Returned rest
  | Panicked => Panicked
  | OutOfFuel => OutOfFuel
  end.

(** ** writeListingsToBuffer, grid mode: the row count (ls.go 816-870) *)

(** [int(math.Ceil(float64(n) / float64(numRows)))].  Below 2^53 both
    integers are floats, and the rounded quotient of a division that is
    not exact stays above the integer below it (the fraction is at least
    [1/numRows], the rounding error less), so the result is the integer
    ceiling for every length a slice of listings can have. *)
Definition ceilDiv (n numRows : nat) : nat := (n + numRows - 1) / numRows.

(** One turn of the loop over the listings that fills [colWidths] and
    [colListings] (ls.go 839-845). *)
Definition fillStep (listings : list Listing) (numRows : nat)
    (acc : option (list nat * list nat)) (i : nat)
    : option (list nat * list nat) :=
  '(colWidths, colListings) ← acc;
  l ← listings !! i;
  let col := i / numRows in
  w ← colWidths !! col;
  let colWidths :=
    if w <? Go.len (name l)
    then <[col := Go.len (name l)]> colWidths else colWidths in
  c ← colListings !! col;
  Some (colWidths, <[col := c + 1]> colListings).

(** The two slices after the loop; both start as [numCols] zeros. *)
Definition fillColumns (listings : list Listing) (numRows numCols : nat)
    : option (list nat * list nat) :=
  foldl (fillStep listings numRows)
        (Some (replicate numCols 0, replicate numCols 0))
        (seq 0 (length listings)).

(** [maxRowLength]: the widths added up, and two bytes of separator
    between neighbours.  [colWidths] has [numCols] elements, so every read
    is in range. *)
Definition sumWidths (colWidths : list nat) (numCols : nat) : nat :=
  foldl (λ acc i, acc + default 0 (colWidths !! i)) 0 (seq 0 numCols).

Definition maxRowLength (colWidths : list nat) (numCols : nat) : Z :=
  (Z.of_nat (sumWidths colWidths numCols) + 2 * (Z.of_nat numCols - 1))%Z.

Inductive decision : Type := Accept | Increment.

(** The [if] at the end of the loop body: [break] is [Accept], [numRows++]
    is [Increment]. *)
Definition decide_rows (listings : list Listing) (terminalWidth : Z)
    (numRows : nat) (colWidths colListings : list nat) (numCols : nat)
    : option decision :=
  let rowLength := maxRowLength colWidths numCols in
  if (terminalWidth <? rowLength)%Z && (length listings <=? numRows) then
    Some Accept
  else if (terminalWidth <? rowLength)%Z then
    Some Increment
  else
    listingsInFirstCol ← colListings !! 0;
    listingsInLastCol ← colListings !! (length colListings - 1);
    if (listingsInLastCol <=? listingsInFirstCol / 2)
       && (5 <=? Z.of_nat listingsInFirstCol - Z.of_nat listingsInLastCol)%Z
    then Some Increment
    else Some Accept.

(** One candidate row count: the column widths and the decision. *)
Definition tryRows (listings : list Listing) (terminalWidth : Z)
    (numRows : nat) : option (list nat * decision) :=
  let numCols := ceilDiv (length listings) numRows in
  '(colWidths, colListings) ← fillColumns listings numRows numCols;
  d ← decide_rows listings terminalWidth numRows colWidths colListings numCols;
  Some (colWidths, d).

(** The [for { ... }] that looks for the row count, from [numRows]. *)
Fixpoint gridLoop (fuel : nat) (listings : list Listing) (terminalWidth : Z)
    (numRows : nat) : run (nat * list nat) :=
  match fuel with
  | 0 => OutOfFuel
  | S fuel' =>
      match tryRows listings terminalWidth numRows with
      | None => Panicked
      | Some (colWidths, Accept) => Returned (numRows, colWidths)
      | Some (_, Increment) =>
          gridLoop fuel' listings terminalWidth (numRows + 1)
      end
  end.

(** The row count and column widths of grid mode; the function is reached
    with a non-empty slice only (ls.go 709-711). *)
Definition gridLayout (fuel : nat) (listings : list Listing)
    (terminalWidth : Z) : run (nat * list nat) :=
  gridLoop fuel listings terminalWidth 1.

(** ** Definitions that follow the specification's words

    These are not taken from ls.go: they restate what the specification
    says, so that the theorems of the second part can compare them with the
    embedding of the code above. *)

(** [c] occurs in [s]. *)
Fixpoint hasByte (c : ascii) (s : string) : bool :=
  match s with
  | EmptyString => false
  | String x r => bool_decide (x = c) || hasByte c r
  end.

(** Specification 4.2, System-V style: the recognised two-letter keys and
    the category each maps to. *)
Definition recognizedKeys : list (string * string) :=
  [ ("rs", "end"); ("di", "directory"); ("ln", "symlink");
    ("mh", "multi_hardlink"); ("pi", "pipe"); ("so", "socket");
    ("bd", "block"); ("cd", "character"); ("or", "link_orphan");
    ("mi", "link_orphan_target"); ("su", "executable_suid");
    ("sg", "executable_sgid"); ("tw", "directory_o+w_sticky");
    ("ow", "directory_o+w"); ("st", "directory_sticky");
    ("ex", "executable") ].

Fixpoint assoc (k : string) (table : list (string * string)) : option string :=
  match table with
  | [] => None
  | (k', v) :: rest => if bool_decide (k = k') then Some v else assoc k rest
  end.

(** The category of a recognised key. *)
Definition specCategory (k : string) : option string := assoc k recognizedKeys.

(** A [key=code] pair of an LS_COLORS string: neither part holds a [:] or
    a [=]. *)
Definition wellFormedPair (kc : string * string) : Prop :=
  hasByte ":" kc.1 = false ∧ hasByte "=" kc.1 = false ∧
  hasByte ":" kc.2 = false ∧ hasByte "=" kc.2 = false.

Definition pairText (kc : string * string) : string :=
  kc.1 +:+ "=" +:+ kc.2.

(** The LS_COLORS string of a list of pairs. *)
Definition joinPairs (pairs : list (string * string)) : string :=
  String.concat ":" (pairText <$> pairs).

(** The colour table the specification describes for a list of pairs: the
    reset entry first, then every pair in turn, stored under the category of
    its key, or under the key itself when it is not a recognised one. *)
Definition specColorTable (pairs : list (string * string)) : gmap string string :=
  foldl (λ m kc, <[default kc.1 (specCategory kc.1) := escOpen +:+ kc.2 +:+ "m"]> m)
        ({[ "end" := escOpen +:+ "0m" ]} : gmap string string) pairs.

(** Specification 4.3: the entry classifier.  The conditions of the rules,
    in the specification's words, over a listing. *)

(** The permission string has [c] at position [i]. *)
Definition permIs (l : Listing) (i : nat) (c : ascii) : bool :=
  bool_decide (Go.index (permissions l) i = Some c).

Definition isDirectory (l : Listing) : bool := permIs l 0 "d".
Definition isWorldWritable (l : Listing) : bool := permIs l 8 "w".
Definition isSticky (l : Listing) : bool := permIs l 9 "t".
Definition isSymlinkEntry (l : Listing) : bool := permIs l 0 "l".
Definition isSetuid (l : Listing) : bool := permIs l 3 "s".
Definition isSetgid (l : Listing) : bool := permIs l 6 "s".
Definition hasExecuteBit (l : Listing) : bool := hasByte "x" (permissions l).
Definition hasManyHardLinks (l : Listing) : bool :=
  (1 <? Go.atoi (numHardLinks l))%Z.

(** The substring after the last [.] of a name, if the name has one. *)
Fixpoint afterLastDot (s : string) : option string :=
  match s with
  | EmptyString => None
  | String c r =>
      match afterLastDot r with
      | Some e => Some e
      | None => if bool_decide (c = "."%char) then Some r else None
      end
  end.

(** The extension glob [*.<ext>] of a name. *)
Definition extensionGlob (nm : string) : option string :=
  e ← afterLastDot nm; Some ("*." +:+ e).

(** Rule 1 applies when the glob is present in the table. *)
Definition globInTable (cm : gmap string string) (l : Listing) : bool :=
  match extensionGlob (name l) with
  | Some g => bool_decide (is_Some (cm !! g))
  | None => false
  end.

(** The rules in the specification's order: condition and category key. *)
Definition specRules (cm : gmap string string) (l : Listing)
    : list (bool * string) :=
  [ (globInTable cm l, default EmptyString (extensionGlob (name l)));
    (isDirectory l && isWorldWritable l && isSticky l, "directory_o+w_sticky");
    (isDirectory l && isSticky l, "directory_sticky");
    (isDirectory l && isWorldWritable l, "directory_o+w");
    (isDirectory l, "directory");
    (hasManyHardLinks l, "multi_hardlink");
    (isSymlinkEntry l && linkOrphan l, "link_orphan");
    (isSymlinkEntry l, "symlink");
    (isSetuid l, "executable_suid");
    (isSetgid l, "executable_sgid");
    (hasExecuteBit l, "executable");
    (isSocket l, "socket");
    (isPipe l, "pipe");
    (isBlock l, "block");
    (isCharacter l, "character") ].

(** First match wins. *)
Fixpoint firstMatch (rules : list (bool * string)) : option string :=
  match rules with
  | [] => None
  | (true, k) :: _ => Some k
  | (false, _) :: rest => firstMatch rest
  end.

(** The category of a listing; [None] is "no colour applied". *)
Definition specCategoryOf (cm : gmap string string) (l : Listing) : option string :=
  firstMatch (specRules cm l).

(** The permission string can be read where the classifier reads it: seven
    characters at least, and ten when the entry is a directory. *)
Definition permsReadable (l : Listing) : Prop :=
  7 ≤ Go.len (permissions l)
  ∧ (isDirectory l = true → 10 ≤ Go.len (permissions l)).

(** No entry of the table is the empty string. *)
Definition noEmptyColor (cm : gmap string string) : Prop :=
  map_Forall (λ _ v, v ≠ EmptyString) cm.

(** What the specification has written before the name, and whether a
    colour was applied. *)
Definition specColor (cm : gmap string string) (l : Listing) : string * bool :=
  match specCategoryOf cm l with
  | Some k => (mapGet cm k, true)
  | None => (EmptyString, false)
  end.

(** Specification 3, the size field: a value followed by one suffix, the
    value with at most one decimal digit and no trailing [.0]. *)
Definition isDigitChar (c : ascii) : bool :=
  (48 <=? nat_of_ascii c) && (nat_of_ascii c <=? 57).

Fixpoint allDigitChars (s : string) : bool :=
  match s with
  | EmptyString => true
  | String c r => isDigitChar c && allDigitChars r
  end.

(** A non-empty string of decimal digits. *)
Definition isNumber (s : string) : Prop :=
  s ≠ EmptyString ∧ allDigitChars s = true.

Definition sizeSuffixes : list string :=
  ["B"; "K"; "M"; "G"; "T"; "P"; "E"; "?"].

(** Digits, or digits, a point and one decimal digit that is not [0]. *)
Definition isHumanValue (v : string) : Prop :=
  isNumber v ∨
  ∃ (ip : string) (d : ascii),
    v = ip +:+ "." +:+ String d EmptyString
    ∧ isNumber ip ∧ isDigitChar d = true ∧ d ≠ "0"%char.

(** A plain file of the given name: the listings of the examples. *)
Definition fileNamed (nm : string) : Listing :=
  mkListing "-rw-r--r--" "1" "user" "group" "0" 0 "Jan" "01" "00:00"
            nm "" false false false false false.

(** A plain file of the given name and size field. *)
Definition fileSized (nm sz : string) : Listing :=
  mkListing "-rw-r--r--" "1" "user" "group" sz 0 "Jan" "01" "00:00"
            nm "" false false false false false.

Definition names (listings : list Listing) : list string :=
  name <$> listings.

(** The options of a plain [ls], colour on. *)
Definition defaultOptions : Options :=
  mkOptions false false false false false true false false false false false.

(** Specification 4.4, by size: the parsed integer portion of a size
    field, that is the number its leading digits spell. *)
Fixpoint leadingDigits (s : string) : string :=
  match s with
  | EmptyString => EmptyString
  | String c r => if isDigitChar c then String c (leadingDigits r) else EmptyString
  end.

Definition integerPortion (s : string) : Z := Go.atoi (leadingDigits s).

(** Descending order of a key: every element's key is at least its
    successor's. *)
Definition descendingBy (key : Listing → Z) (listings : list Listing) : Prop :=
  Sorted (λ a b, (key b ≤ key a)%Z) listings.

(** The key [compareSize] compares. *)
Definition sizeKey (l : Listing) : Z := Go.atoi (size l).

(** ** Auxiliary definitions of the proofs about sorting *)

(** One pass of the exchange sort as a recursion over the slice: [x] is the
    element at the current index and [rest] what follows it. *)
Fixpoint bubble (cmp : Listing → Listing → option Z) (x : Listing)
    (rest : list Listing) (done : bool) : option (list Listing * bool) :=
  match rest with
  | [] => Some ([x], done)
  | y :: rest' =>
      c ← cmp x y;
      if (-1 <? c)%Z then
        '(r, d) ← bubble cmp x rest' false;
        Some (y :: r, d)
      else
        '(r, d) ← bubble cmp y rest' done;
        Some (x :: r, d)
  end.

(** The number of elements of [rest] that a keyed comparison puts before
    [x], and the number of such pairs in a slice. *)
Definition countAbove (key : Listing → Z) (x : Listing) (rest : list Listing) : nat :=
  length (filter (λ y, (key x < key y)%Z) rest).

Fixpoint inversions (key : Listing → Z) (listings : list Listing) : nat :=
  match listings with
  | [] => 0
  | x :: rest => countAbove key x rest + inversions key rest
  end.

(** A comparison function that orders by a key, largest first, and never
    answers 0: the form of [compareTime] and [compareSize]. *)
Definition keyedComparison (key : Listing → Z)
    (cmp : Listing → Listing → option Z) : Prop :=
  ∀ a b, cmp a b = Some (if (key b <=? key a)%Z then (-1)%Z else 1%Z).

(** Specification 4.4, by name: byte-wise comparison of two lowered names,
    where the first differing byte decides, a strict prefix comes first and
    equal strings compare as equal.  The result is -1, 0 or 1. *)
Fixpoint lexCompare (sa sb : string) : Z :=
  match sa, sb with
  | EmptyString, EmptyString => 0
  | EmptyString, String _ _ => -1
  | String _ _, EmptyString => 1
  | String x ra, String y rb =>
      if nat_of_ascii x <? nat_of_ascii y then -1
      else if nat_of_ascii y <? nat_of_ascii x then 1
      else lexCompare ra rb
  end.

(** The case-insensitive comparison of two names. *)
Definition specCompareName (a b : string) : Z :=
  lexCompare (Go.toLower a) (Go.toLower b).

(** Specification 4.5: the column layout.  For [R] rows the entry at linear
    position [p] belongs to column [p / R]. *)

(** The entries of column [c] among the first [k] positions. *)
Definition membersBelow (listings : list Listing) (R c k : nat) : list Listing :=
  omap (λ p, if decide (p / R = c) then listings !! p else None) (seq 0 k).

Definition columnMembers (listings : list Listing) (R c : nat) : list Listing :=
  membersBelow listings R c (length listings).

(** The width of a column is the largest name length in it. *)
Definition specColWidth (listings : list Listing) (R c : nat) : nat :=
  max_list_with (λ l, Go.len (name l)) (columnMembers listings R c).

Definition specColCount (listings : list Listing) (R c : nat) : nat :=
  length (columnMembers listings R c).

(** [ceil(n / R)] *)
Definition specNumCols (n R : nat) : nat :=
  n / R + (if n mod R =? 0 then 0 else 1).

Definition specColWidths (listings : list Listing) (R : nat) : list nat :=
  specColWidth listings R <$> seq 0 (specNumCols (length listings) R).

(** The row width: the column widths added up, plus a separator of two
    between neighbouring columns. *)
Definition specRowWidth (listings : list Listing) (R : nat) : Z :=
  (Z.of_nat (sum_list (specColWidths listings R))
   + 2 * (Z.of_nat (specNumCols (length listings) R) - 1))%Z.

(** What the specification does with a candidate row count [R]. *)
Definition specDecision (listings : list Listing) (terminalWidth : Z)
    (R : nat) : decision :=
  let n := length listings in
  let first := specColCount listings R 0 in
  let last := specColCount listings R (specNumCols n R - 1) in
  if (terminalWidth <? specRowWidth listings R)%Z then
    (if R <? n then Increment else Accept)
  else if (2 * last <=? first) && (last + 5 <=? first) then Increment
  else Accept.

(** The key of the name sort: the lowered name. *)
Definition lowerName (l : Listing) : string := Go.toLower (name l).

(** Ascending order of the names, compared without case: every name comes
    strictly before its successor. *)
Definition ascendingByName (listings : list Listing) : Prop :=
  Sorted (λ a b, specCompareName (name a) (name b) = (-1)%Z) listings.

(** The number of listings of [universe] whose name comes strictly after
    that of [x]: an integer key under which the name order is the
    descending order of the key. *)
Definition nameRank (universe : list Listing) (x : Listing) : Z :=
  Z.of_nat (length (filter
    (λ z, lexCompare (lowerName x) (lowerName z) = (-1)%Z) universe)).

(** The keyed comparison by [nameRank]. *)
Definition compareRank (universe : list Listing) (a b : Listing) : option Z :=
  Some (if (nameRank universe b <=? nameRank universe a)%Z
        then (-1)%Z else 1%Z).

(** No pair of neighbours would be exchanged by a pass: the state in which
    the sort loop ends. *)
Definition settled (cmp : Listing → Listing → option Z)
    (listings : list Listing) : Prop :=
  Sorted (λ a b, ∃ c, cmp a b = Some c ∧ (c ≤ -1)%Z) listings.

(** ** Further definitions used in the statements of the second part *)

(** The argument starts with [-]. *)
Definition startsWithDash (a : string) : Prop := Go.index a 0 = Some "-"%char.

(** Some short option (an option argument without [--]) contains [flag]. *)
Definition someShortOption (flag : string) (argsOptions : list string) : bool :=
  existsb (λ o, negb (Go.contains o "--") && Go.contains o flag) argsOptions.

(** Some option argument contains [text]. *)
Definition someOption (text : string) (argsOptions : list string) : bool :=
  existsb (λ o, Go.contains o text) argsOptions.

(** A space or a tab. *)
Definition isBlank (c : ascii) : bool :=
  bool_decide (c = " "%char ∨ c = "009"%char).

(** The first byte of a line that is neither a space nor a tab. *)
Fixpoint firstNonBlank (s : string) : option ascii :=
  match s with
  | EmptyString => None
  | String c r => if isBlank c then firstNonBlank r else Some c
  end.

Definition startsBlank (s : string) : bool :=
  match s with
  | EmptyString => false
  | String c _ => isBlank c
  end.

Fixpoint endsBlank (s : string) : bool :=
  match s with
  | EmptyString => false
  | String c EmptyString => isBlank c
  | String _ r => endsBlank r
  end.

(** The number of bytes [c] in [s]. *)
Fixpoint countByte (c : ascii) (s : string) : nat :=
  match s with
  | EmptyString => 0
  | String x r => (if bool_decide (x = c) then 1 else 0) + countByte c r
  end.

(** An entry of /etc/group or /etc/passwd: a name, a password field, a
    numeric id, and the rest of the line ([:members] or
    [:gid:gecos:home:shell]). *)
Record IdEntry : Type := mkIdEntry {
  entryName : string;
  entryPassword : string;
  entryId : Z;
  entryRest : string
}.

Definition entryLine (e : IdEntry) : string :=
  entryName e +:+ ":" +:+ entryPassword e +:+ ":" +:+ Go.itoa (entryId e)
    +:+ entryRest e.

(** The line of a well-formed entry has no colon inside its first two fields,
    an id of 64 bits, a rest that is empty or starts a new field, neither a
    blank nor [#] in front, and no blank at its end. *)
Definition wellFormedEntry (e : IdEntry) : Prop :=
  hasByte ":" (entryName e) = false
  ∧ hasByte ":" (entryPassword e) = false
  ∧ (Go.minInt ≤ entryId e ≤ Go.maxInt)%Z
  ∧ (entryRest e = "" ∨ ∃ r, entryRest e = String ":" r)
  ∧ startsBlank (entryLine e) = false
  ∧ endsBlank (entryLine e) = false
  ∧ Go.index (entryLine e) 0 ≠ Some "#"%char.

(** The name of the last entry with the given id. *)
Definition lastNameFor (id : Z) (entries : list IdEntry) : option string :=
  foldl (λ found e, if bool_decide (entryId e = id) then Some (entryName e)
                    else found) None entries.

(** [s] without its bytes [c]. *)
Fixpoint removeByte (c : ascii) (s : string) : string :=
  match s with
  | EmptyString => EmptyString
  | String x r =>
      if bool_decide (x = c) then removeByte c r else String x (removeByte c r)
  end.

(** [s] with one space for every run of spaces: a space that another space
    follows is dropped. *)
Fixpoint squeeze (s : string) : string :=
  match s with
  | EmptyString => EmptyString
  | String c r =>
      if bool_decide (c = " "%char) && String.prefix " " r then squeeze r
      else String c (squeeze r)
  end.

(** [s] with one space for every two spaces in a row, from the left. *)
Fixpoint mergePairs (s : string) : string :=
  match s with
  | String c r =>
      match r with
      | String c' r' =>
          if bool_decide (c = " "%char) && bool_decide (c' = " "%char)
          then String " " (mergePairs r')
          else String c (mergePairs r)
      | EmptyString => s
      end
  | EmptyString => EmptyString
  end.

(** One of the six ASCII white-space bytes. *)
Definition isSpace (c : ascii) : bool := hasByte c Go.asciiSpace.

Fixpoint allSpace (s : string) : bool :=
  match s with
  | EmptyString => true
  | String c r => isSpace c && allSpace r
  end.

(** Every byte of [s] is below 0x80. *)
Fixpoint asciiOnly (s : string) : bool :=
  match s with
  | EmptyString => true
  | String c r => (nat_of_ascii c <? 128) && asciiOnly r
  end.

Fixpoint lastByte (s : string) : option ascii :=
  match s with
  | EmptyString => None
  | String c EmptyString => Some c
  | String _ r => lastByte r
  end.

(** The pieces of a split without the empty ones that are not the last. *)
Fixpoint dropInnerEmpty (pieces : list string) : list string :=
  match pieces with
  | [] => []
  | [p] => [p]
  | p :: rest =>
      if bool_decide (p = "") then dropInnerEmpty rest
      else p :: dropInnerEmpty rest
  end.

(** The words of a text: the non-empty pieces between its spaces. *)
Definition words (s : string) : list string :=
  filter (λ w, w ≠ "") (Go.split " " s).

(** * Part II: lemmas and theorems *)

(** ** Permission strings *)

Example normalize_symlink :
  normalizePermissions true "Lrwxrwxrwx" = Some "lrwxrwxrwx".
Proof. reflexivity. Qed.

Example normalize_setuid_setgid :
  normalizePermissions false "ugrwxr-xr-x" = Some "-rwsr-sr-x".
Proof. reflexivity. Qed.

Example normalize_setuid :
  normalizePermissions false "urwxr-xr-x" = Some "-rwsr-xr-x".
Proof. reflexivity. Qed.

Example normalize_setgid :
  normalizePermissions false "grwxr-xr-x" = Some "-rwxr-sr-x".
Proof. reflexivity. Qed.

Example normalize_sticky_dir :
  normalizePermissions false "dtrwxrwxrwx" = Some "drwxrwxrwt".
Proof. reflexivity. Qed.

Example normalize_block_device :
  normalizePermissions false "Drw-rw----" = Some "rw-rw----".
Proof. reflexivity. Qed.

Example normalize_char_device :
  normalizePermissions false "Dcrw-rw-rw-" = Some "crw-rw-rw-".
Proof. reflexivity. Qed.

(** Nine permission characters, taken apart: the first is [r] or [-]. *)
Lemma permBits_chars (p : string) :
  permBits p = true →
  ∃ a b c d e f g h i : ascii,
    p = String a (String b (String c (String d (String e
          (String f (String g (String h (String i EmptyString))))))))
    ∧ (a = "r"%char ∨ a = "-"%char).
Proof.
  unfold permBits. intros Hp.
  do 9 (destruct p as [|? p];
          [cbn in Hp; rewrite ?andb_false_r in Hp; discriminate Hp|]).
  destruct p.
  - do 9 eexists. split; [done|].
    cbn in Hp. apply andb_prop in Hp as [Hp _].
    apply orb_prop in Hp as [Hp|Hp]; apply bool_decide_eq_true in Hp; auto.
  - cbn in Hp. by rewrite !andb_false_r in Hp.
Qed.

Lemma permBits_len (p : string) : permBits p = true → Go.len p = 9.
Proof. intros (a&b&c&d&e&f&g&h&i&->&_)%permBits_chars. done. Qed.

Ltac perm_chars Hp :=
  apply permBits_chars in Hp as (?&?&?&?&?&?&?&?&?&->&[-> | ->]).

Lemma normalize_symlink_length (p : string) :
  permBits p = true →
  ∃ r, normalizePermissions true ("L" +:+ p) = Some r ∧ Go.len r = 10.
Proof. intros Hp. perm_chars Hp; eexists; split; vm_compute; reflexivity. Qed.

Lemma normalize_ug_length (p : string) :
  permBits p = true →
  ∃ r, normalizePermissions false ("ug" +:+ p) = Some r ∧ Go.len r = 10.
Proof. intros Hp. perm_chars Hp; eexists; split; vm_compute; reflexivity. Qed.

Lemma normalize_u_length (p : string) :
  permBits p = true →
  ∃ r, normalizePermissions false ("u" +:+ p) = Some r ∧ Go.len r = 10.
Proof. intros Hp. perm_chars Hp; eexists; split; vm_compute; reflexivity. Qed.

Lemma normalize_g_length (p : string) :
  permBits p = true →
  ∃ r, normalizePermissions false ("g" +:+ p) = Some r ∧ Go.len r = 10.
Proof. intros Hp. perm_chars Hp; eexists; split; vm_compute; reflexivity. Qed.

Lemma normalize_dt_length (p : string) :
  permBits p = true →
  ∃ r, normalizePermissions false ("dt" +:+ p) = Some r ∧ Go.len r = 10.
Proof. intros Hp. perm_chars Hp; eexists; split; vm_compute; reflexivity. Qed.

(** No rule fires when the single type letter is none of [D], [u], [g]: the
    string is kept as it is. *)
Lemma normalize_canonical (p : string) (c0 : ascii) :
  permBits p = true →
  c0 ≠ "D"%char → c0 ≠ "u"%char → c0 ≠ "g"%char →
  normalizePermissions false (String c0 p) = Some (String c0 p).
Proof.
  intros Hp HD Hu Hg.
  perm_chars Hp;
    unfold normalizePermissions; cbn [Go.index String.get mbind option_bind];
    rewrite !bool_decide_eq_false_2 by done;
    match goal with
    | |- context [Go.slice (String ?x (String ?y ?r)) 0 2] =>
        change (Go.slice (String x (String y r)) 0 2)
          with (Some (String x (String y EmptyString)))
    end;
    cbn [mbind option_bind];
    rewrite !bool_decide_eq_false_2; done || congruence.
Qed.

Lemma substring_all (s : string) : String.substring 0 (String.length s) s = s.
Proof. induction s as [|c r IH]; [done|]. cbn. by rewrite IH. Qed.

(** The [D] marker: the first character is dropped, whatever follows. *)
Lemma normalize_D (rest : string) :
  normalizePermissions false (String "D" rest) = Some rest.
Proof.
  unfold normalizePermissions. cbn [Go.index String.get mbind option_bind].
  rewrite bool_decide_eq_true_2 by done.
  unfold Go.sliceFrom, Go.slice, Go.len. cbn [String.length].
  rewrite decide_True by lia.
  cbn [String.substring]. f_equal.
  replace (S (String.length rest) - 1) with (String.length rest) by lia.
  apply substring_all.
Qed.

(** C3, as the code has it.  The raw mode string is one or two type letters
    followed by the nine permission characters [p].  The permissions field
    has exactly 10 characters for a symlink ([L]), for [ug], [u], [g] and
    [dt], and for a single type letter other than [D], [u], [g] (kept as it
    is).  Under a leading [D] the field is the raw string less that
    character: the 9 characters of [p] for [D] alone (a block device), and
    10 for [Dc] (a character device). *)
Theorem permissions_length (p : string) (Hp : permBits p = true) :
  (∃ r, normalizePermissions true ("L" +:+ p) = Some r ∧ Go.len r = 10) ∧
  (∃ r, normalizePermissions false ("ug" +:+ p) = Some r ∧ Go.len r = 10) ∧
  (∃ r, normalizePermissions false ("u" +:+ p) = Some r ∧ Go.len r = 10) ∧
  (∃ r, normalizePermissions false ("g" +:+ p) = Some r ∧ Go.len r = 10) ∧
  (∃ r, normalizePermissions false ("dt" +:+ p) = Some r ∧ Go.len r = 10) ∧
  (∀ c0 : ascii, c0 ≠ "D"%char → c0 ≠ "u"%char → c0 ≠ "g"%char →
     normalizePermissions false (String c0 p) = Some (String c0 p)
     ∧ Go.len (String c0 p) = 10) ∧
  (normalizePermissions false ("D" +:+ p) = Some p ∧ Go.len p = 9) ∧
  (normalizePermissions false ("Dc" +:+ p) = Some ("c" +:+ p)
     ∧ Go.len ("c" +:+ p) = 10).
Proof.
  pose proof (permBits_len p Hp) as Hlen.
  split; [by apply normalize_symlink_length|].
  split; [by apply normalize_ug_length|].
  split; [by apply normalize_u_length|].
  split; [by apply normalize_g_length|].
  split; [by apply normalize_dt_length|].
  split.
  { intros c0 HD Hu Hg. split; [by apply normalize_canonical|].
    unfold Go.len in *. change (S (String.length p) = 10). by rewrite Hlen. }
  split.
  - split; [apply normalize_D | done].
  - split; [apply normalize_D|].
    unfold Go.len in *. change (S (String.length p) = 10). by rewrite Hlen.
Qed.

Lemma permissions_length_witness :
  permBits "rwxr-xr-x" = true ∧
  ∃ r, normalizePermissions false "ugrwxr-xr-x" = Some r ∧ Go.len r = 10.
Proof.
  split; [reflexivity|].
  exact (proj1 (proj2 (permissions_length "rwxr-xr-x" eq_refl))).
Defined.

(** C3 as stated fails on a block device: its mode string [Drw-rw----] is
    cut to nine characters. *)
Lemma permissions_block_device_nine :
  permBits "rw-rw----" = true ∧
  ∃ r, normalizePermissions false ("D" +:+ "rw-rw----") = Some r
       ∧ Go.len r ≠ 10.
Proof. split; [reflexivity|]. exists "rw-rw----". split; [reflexivity|]. by compute. Qed.

(** ** LSCOLORS: the BSD colour specification *)

Example default_lscolors_directory :
  (m ← buildColorMap "" ""; m !! "directory") = Some (escOpen +:+ "0;34m").
Proof. vm_compute. reflexivity. Qed.

Example bsd_code_ex :
  getColorFromBsdCode "ex" = Some (escOpen +:+ "0;34m").
Proof. reflexivity. Qed.

Example bsd_code_letter_outside_table :
  getColorFromBsdCode "zZ" = Some (escOpen +:+ "0;;m").
Proof. reflexivity. Qed.

Lemma length_substring (s : string) (n m : nat) :
  n + m ≤ String.length s → String.length (String.substring n m s) = m.
Proof.
  revert n m. induction s as [|c r IH]; intros [|n] [|m] H; cbn in *;
    try done; try lia.
  - rewrite IH; [done | lia].
  - apply IH. lia.
  - apply IH. lia.
Qed.

Lemma slice_Some (s : string) (lo hi : nat) :
  lo ≤ hi → hi ≤ Go.len s →
  ∃ r, Go.slice s lo hi = Some r ∧ Go.len r = hi - lo.
Proof.
  intros H1 H2. unfold Go.slice. rewrite decide_True by done.
  eexists; split; [done|]. apply length_substring. unfold Go.len in H2. lia.
Qed.

Lemma slice_None (s : string) (lo hi : nat) :
  Go.len s < hi → Go.slice s lo hi = None.
Proof. intros H. unfold Go.slice. rewrite decide_False; [done | lia]. Qed.

(** A code of two bytes always decodes, whatever the two bytes are. *)
Lemma getColorFromBsdCode_two (code : string) :
  Go.len code = 2 → is_Some (getColorFromBsdCode code).
Proof.
  destruct code as [|x [|y [|z r]]]; try discriminate. intros _.
  by eexists.
Qed.

(** A turn of the loop panics only through the slice. *)
Lemma parseLscolorsStep_in_range (s : string) (cm : gmap string string) (i : nat) :
  i + 2 ≤ Go.len s → is_Some (parseLscolorsStep s cm i).
Proof.
  intros Hi. unfold parseLscolorsStep.
  destruct (lscolorsKey i) as [key|]; [|by eexists].
  destruct (slice_Some s i (i + 2)) as (code & -> & Hlen); [lia | done |].
  cbn. destruct (getColorFromBsdCode_two code) as [c ->]; [lia|].
  by eexists.
Qed.

Lemma parseLscolorsStep_out_of_range (s : string) (cm : gmap string string) (i : nat) :
  Go.len s < i + 2 → is_Some (lscolorsKey i) → parseLscolorsStep s cm i = None.
Proof.
  intros Hi [key Hkey]. unfold parseLscolorsStep. rewrite Hkey.
  by rewrite slice_None.
Qed.

Lemma lscolorsKey_even (k : nat) : k ≤ 10 → is_Some (lscolorsKey (2 * k)).
Proof.
  intros Hk. do 11 (destruct k as [|k]; [by eexists|]). lia.
Qed.

Lemma evenIndices_even (m : nat) :
  evenIndices (2 * m) = (λ k, 2 * k) <$> seq 0 m.
Proof.
  unfold evenIndices. do 2 f_equal.
  replace (2 * m + 1) with (1 + m * 2) by lia.
  rewrite Nat.div_add by done. done.
Qed.

Lemma evenIndices_odd (m : nat) :
  evenIndices (2 * m + 1) = ((λ k, 2 * k) <$> seq 0 m) ++ [2 * m].
Proof.
  unfold evenIndices.
  replace (2 * m + 1 + 1) with ((m + 1) * 2) by lia.
  rewrite Nat.div_mul by done.
  by rewrite seq_app, fmap_app.
Qed.

Lemma parseLscolors_fold_Some (s : string) (idx : list nat) (cm : gmap string string) :
  Forall (λ i, i + 2 ≤ Go.len s) idx →
  is_Some (foldl (λ acc i, m ← acc; parseLscolorsStep s m i) (Some cm) idx).
Proof.
  intros H. revert cm. induction H as [|i idx Hi _ IH]; intros cm.
  - by eexists.
  - cbn [foldl mbind option_bind].
    destruct (parseLscolorsStep_in_range s cm i Hi) as [cm' ->].
    apply IH.
Qed.

(** A specification of even length is parsed without a panic, whatever its
    letters. *)
Lemma parseLscolors_even (s : string) (cm : gmap string string) :
  Nat.even (Go.len s) = true → is_Some (parseLscolors s cm).
Proof.
  intros [m Hm]%Nat.even_spec. unfold parseLscolors.
  rewrite Hm, evenIndices_even.
  apply parseLscolors_fold_Some.
  apply Forall_fmap, Forall_forall. intros k Hk%elem_of_seq. cbn. lia.
Qed.

(** A specification of odd length below 22 panics at its last letter: the
    slice of two bytes ends one past the string. *)
Lemma parseLscolors_odd (s : string) (cm : gmap string string) :
  Nat.odd (Go.len s) = true → Go.len s ≤ 21 → parseLscolors s cm = None.
Proof.
  intros [m Hm]%Nat.odd_spec Hle. unfold parseLscolors.
  rewrite Hm, evenIndices_odd, foldl_app. cbn [foldl].
  destruct (foldl _ _ _) as [cm'|]; [|done]. cbn.
  apply parseLscolorsStep_out_of_range; [lia|].
  apply lscolorsKey_even. lia.
Qed.

(** C10 fails on the code: with LSCOLORS set to the three letters [exf] the
    loop reaches [i = 2] and takes [LSCOLORS[2:4]] of a string of length 3,
    which panics. *)
Theorem lscolors_odd_length_panics :
  buildColorMap "" "exf" = None
  ∧ Go.slice "exf" 2 4 = None
  ∧ lscolorsKey 2 = Some "symlink".
Proof. split; [|split]; vm_compute; reflexivity. Qed.

(** ** LS_COLORS: the System-V colour specification *)

Example ls_colors_di_ln :
  ∃ m, buildColorMap "di=01;34:ln=01;36" "" = Some m
       ∧ m !! "directory" = Some (escOpen +:+ "01;34m")
       ∧ m !! "symlink" = Some (escOpen +:+ "01;36m")
       ∧ m !! "end" = Some (escOpen +:+ "0m").
Proof. eexists. split; [vm_compute; reflexivity|]. by vm_compute. Qed.

Example ls_colors_trailing_colon :
  buildColorMap "di=01;34:" "" = buildColorMap "di=01;34" "".
Proof. by vm_compute. Qed.

Example ls_colors_piece_without_equals :
  buildColorMap "di" "" = None.
Proof. by vm_compute. Qed.

Lemma app_String (c : ascii) (a b : string) :
  String c a +:+ b = String c (a +:+ b).
Proof. reflexivity. Qed.

Lemma app_empty_l (b : string) : "" +:+ b = b.
Proof. reflexivity. Qed.

Lemma string_length_app (a b : string) :
  String.length (a +:+ b) = String.length a + String.length b.
Proof.
  induction a as [|x a IH]; [done|].
  rewrite app_String. cbn [String.length]. by rewrite IH.
Qed.

Lemma hasByte_app (c : ascii) (a b : string) :
  hasByte c (a +:+ b) = hasByte c a || hasByte c b.
Proof.
  induction a as [|x a IH]; [done|].
  rewrite app_String. cbn. by rewrite IH, orb_assoc.
Qed.

Lemma split_no_sep (sep : ascii) (s : string) :
  hasByte sep s = false → Go.split sep s = [s].
Proof.
  induction s as [|x s IH]; [done|]. cbn.
  intros [Hx Hs]%orb_false_elim. rewrite Hx, (IH Hs). done.
Qed.

Lemma split_app_sep (sep : ascii) (a b : string) :
  hasByte sep a = false →
  Go.split sep (a +:+ String sep b) = a :: Go.split sep b.
Proof.
  induction a as [|x a IH].
  - intros _. rewrite app_empty_l. cbn. by rewrite bool_decide_eq_true_2.
  - cbn [hasByte]. intros [Hx Ha]%orb_false_elim.
    rewrite app_String. cbn [Go.split]. rewrite Hx, (IH Ha). done.
Qed.

Lemma split_concat (sep : ascii) (items : list string) :
  items ≠ [] →
  Forall (λ s, hasByte sep s = false) items →
  Go.split sep (String.concat (String sep "") items) = items.
Proof.
  intros Hne H. induction H as [|x items Hx Hitems IH]; [done|].
  destruct items as [|y items].
  - cbn. by apply split_no_sep.
  - cbn [String.concat]. change (String.append x (String.append (String sep "") ?r))
      with (x +:+ String sep r).
    rewrite split_app_sep by done. f_equal. by apply IH.
Qed.

Lemma pairText_split (kc : string * string) :
  wellFormedPair kc → Go.split "=" (pairText kc) = [kc.1; kc.2].
Proof.
  intros (_ & Hk & _ & Hc). unfold pairText.
  change (kc.1 +:+ "=" +:+ kc.2) with (kc.1 +:+ String "=" kc.2).
  rewrite split_app_sep by done. by rewrite split_no_sep.
Qed.

Lemma pairText_no_colon (kc : string * string) :
  wellFormedPair kc → hasByte ":" (pairText kc) = false.
Proof.
  intros (Hk & _ & Hc & _). unfold pairText.
  rewrite !hasByte_app, Hk, Hc. done.
Qed.

Lemma pairText_nonempty (kc : string * string) : pairText kc ≠ "".
Proof. unfold pairText. destruct (kc.1); done. Qed.

(** The code's key table is the specification's, with every other key kept
    as it is. *)
Lemma lsColorsKey_spec (k : string) :
  lsColorsKey k = default k (specCategory k).
Proof.
  unfold lsColorsKey, specCategory, recognizedKeys. cbn [assoc].
  repeat (case_bool_decide; [done|]). done.
Qed.

Lemma parseLsColorsStep_pair (cm : gmap string string) (kc : string * string) :
  wellFormedPair kc →
  parseLsColorsStep cm (pairText kc)
  = Some (<[default kc.1 (specCategory kc.1) := escOpen +:+ kc.2 +:+ "m"]> cm).
Proof.
  intros Hwf. unfold parseLsColorsStep.
  rewrite bool_decide_eq_false_2 by apply pairText_nonempty.
  rewrite pairText_split by done. cbn. by rewrite lsColorsKey_spec.
Qed.

Lemma parseLsColors_fold (pairs : list (string * string)) (cm : gmap string string) :
  Forall wellFormedPair pairs →
  foldl (λ acc i, m ← acc; parseLsColorsStep m i) (Some cm) (pairText <$> pairs)
  = Some (foldl (λ m kc, <[default kc.1 (specCategory kc.1)
                            := escOpen +:+ kc.2 +:+ "m"]> m) cm pairs).
Proof.
  intros H. revert cm. induction H as [|kc pairs Hkc _ IH]; intros cm; [done|].
  cbn [fmap list_fmap foldl mbind option_bind].
  rewrite parseLsColorsStep_pair by done. apply IH.
Qed.

Lemma joinPairs_split (pairs : list (string * string)) :
  pairs ≠ [] → Forall wellFormedPair pairs →
  Go.split ":" (joinPairs pairs) = pairText <$> pairs.
Proof.
  intros Hne H. unfold joinPairs. apply split_concat.
  - by destruct pairs.
  - apply Forall_fmap. eapply Forall_impl; [exact H|].
    intros kc Hkc. by apply pairText_no_colon.
Qed.

Lemma joinPairs_nonempty (pairs : list (string * string)) :
  pairs ≠ [] → joinPairs pairs ≠ "".
Proof.
  unfold joinPairs. destruct pairs as [|kc [|kc' pairs]]; [done| |]; intros _.
  - cbn. apply pairText_nonempty.
  - cbn [fmap list_fmap String.concat]. intros H.
    apply (f_equal String.length) in H.
    rewrite string_length_app in H. cbn [String.length] in H.
    assert (pairText kc = "") by (destruct (pairText kc); [done | discriminate]).
    by eapply pairText_nonempty.
Qed.

(** C4, as the code has it.  For every non-empty list of [key=code] pairs
    joined by [:] (LSCOLORS unset), the colour table is built without an
    error, and it holds the reset entry overwritten by every pair in turn:
    a recognised key is stored under its category with the value
    [ESC[<code>m], and any other key under its own name.  The keys [ca] and
    [do] are not recognised ones, so they are stored under their own names
    like any other key. *)
Theorem ls_colors_pairs (pairs : list (string * string))
    (Hne : pairs ≠ []) (Hwf : Forall wellFormedPair pairs) :
  buildColorMap (joinPairs pairs) "" = Some (specColorTable pairs)
  ∧ specCategory "ca" = None ∧ specCategory "do" = None.
Proof.
  split; [|done].
  unfold buildColorMap. cbn [bool_decide negb].
  rewrite bool_decide_eq_true_2 by done. cbn [negb].
  rewrite bool_decide_eq_false_2 by (by apply joinPairs_nonempty). cbn [negb].
  unfold parseLsColors. rewrite joinPairs_split by done.
  by rewrite parseLsColors_fold.
Qed.

Lemma ls_colors_pairs_witness :
  buildColorMap "di=01;34:ln=01;36" ""
  = Some (specColorTable [("di", "01;34"); ("ln", "01;36")]).
Proof.
  refine (proj1 (ls_colors_pairs [("di", "01;34"); ("ln", "01;36")] _ _)).
  - done.
  - repeat constructor.
Defined.

(** C4 as stated fails: a [ca] pair (and a [do] pair) leaves an entry in the
    colour table. *)
Lemma ls_colors_ca_do_stored :
  ∃ m, buildColorMap "ca=30;41:do=01;35" "" = Some m
       ∧ m !! "ca" = Some (escOpen +:+ "30;41m")
       ∧ m !! "do" = Some (escOpen +:+ "01;35m").
Proof. eexists. split; [vm_compute; reflexivity|]. by vm_compute. Qed.

(** ** The entry classifier *)

Lemma split_cons (sep : ascii) (s : string) :
  ∃ h t, Go.split sep s = h :: t.
Proof.
  induction s as [|c r (h & t & IH)]; [by eexists _, _|]. cbn.
  case_bool_decide; [by eexists _, _|]. rewrite IH. by eexists _, _.
Qed.

(** [strings.Split(name, ".")] against the substring after the last dot. *)
Lemma split_dot_spec (s : string) :
  match afterLastDot s with
  | None => Go.split "." s = [s]
  | Some e => 1 < length (Go.split "." s) ∧ last (Go.split "." s) = Some e
  end.
Proof.
  induction s as [|c r IH]; [done|]. cbn [afterLastDot Go.split].
  destruct (afterLastDot r) as [e|].
  - destruct IH as [Hlen Hlast].
    destruct (Go.split "." r) as [|h [|h' t]] eqn:Hsplit; cbn in Hlen; try lia.
    case_bool_decide; cbn; split; try lia; done.
  - rewrite IH. case_bool_decide; cbn; [split; [lia | done] | done].
Qed.

(** The [extensionStr] of [writeListingName] is the glob of the
    specification, and empty when the name has no dot. *)
Lemma extensionStr_spec (nm : string) :
  (if 1 <? length (Go.split "." nm)
   then "*." +:+ default EmptyString (last (Go.split "." nm)) else "")
  = default EmptyString (extensionGlob nm).
Proof.
  unfold extensionGlob. pose proof (split_dot_spec nm) as H.
  destruct (afterLastDot nm) as [e|].
  - destruct H as [Hlen ->]. apply Nat.ltb_lt in Hlen. by rewrite Hlen.
  - by rewrite H.
Qed.

Lemma extension_rule_spec (cm : gmap string string) (l : Listing) :
  noEmptyColor cm →
  negb (bool_decide (default EmptyString (extensionGlob (name l)) = ""))
  && negb (bool_decide
             (mapGet cm (default EmptyString (extensionGlob (name l))) = ""))
  = globInTable cm l.
Proof.
  intros Hcm. unfold globInTable, extensionGlob, mapGet.
  destruct (afterLastDot (name l)) as [e|]; [|done]. cbn.
  rewrite (bool_decide_eq_false_2 ("*." +:+ e = "")) by done.
  destruct (cm !! ("*." +:+ e)) as [v|] eqn:Hv; cbn.
  - by rewrite (bool_decide_eq_false_2 (v = "")) by by eapply Hcm.
  - done.
Qed.

Lemma contains_byte (s : string) (c : ascii) :
  Go.contains s (String c "") = hasByte c s.
Proof.
  induction s as [|x s IH]; [done|]. cbn. rewrite IH.
  destruct (ascii_dec c x) as [->|Hne].
  - rewrite bool_decide_eq_true_2 by done. by destruct s.
  - rewrite bool_decide_eq_false_2 by done. done.
Qed.

Lemma index_Some (s : string) (i : nat) :
  i < Go.len s → is_Some (Go.index s i).
Proof.
  unfold Go.index, Go.len.
  revert i. induction s as [|c r IH]; intros i H; cbn in *; [lia|].
  destruct i; [by eexists|]. apply IH. lia.
Qed.

(** Where the index is in range, the comparison of the source is the
    condition of the specification. *)
Lemma indexIs_permIs (l : Listing) (i : nat) (c : ascii) :
  i < Go.len (permissions l) →
  Go.indexIs (permissions l) i c = Some (permIs l i c).
Proof.
  intros [ch Hch]%index_Some. unfold Go.indexIs, permIs. rewrite Hch. cbn.
  f_equal. apply bool_decide_ext. naive_solver.
Qed.

(** The if-chain of [writeListingName] picks the colour of the first rule
    of the specification that applies. *)
Lemma nameColor_spec (cm : gmap string string) (l : Listing) :
  noEmptyColor cm → permsReadable l →
  nameColor cm l = Some (specColor cm l).
Proof.
  intros Hcm [Hlen Hdir].
  unfold nameColor. rewrite extensionStr_spec, extension_rule_spec by done.
  unfold specColor, specCategoryOf, specRules. cbn [firstMatch].
  destruct (globInTable cm l) eqn:Hglob; [done|].
  rewrite !(indexIs_permIs l 0), (indexIs_permIs l 3), (indexIs_permIs l 6) by lia.
  fold (isDirectory l) (isSymlinkEntry l) (isSetuid l) (isSetgid l).
  destruct (isDirectory l) eqn:Hd.
  - specialize (Hdir eq_refl).
    rewrite !(indexIs_permIs l 8), !(indexIs_permIs l 9) by lia.
    fold (isWorldWritable l) (isSticky l).
    destruct (isWorldWritable l), (isSticky l); done.
  - cbn.
    fold (hasManyHardLinks l). destruct (hasManyHardLinks l); [done|].
    destruct (isSymlinkEntry l), (linkOrphan l); try done; cbn.
    all: destruct (isSetuid l); [done|]; cbn.
    all: destruct (isSetgid l); [done|]; cbn.
    all: rewrite contains_byte; fold (hasExecuteBit l).
    all: destruct (hasExecuteBit l); [done|].
    all: destruct (isSocket l); [done|].
    all: destruct (isPipe l); [done|].
    all: destruct (isBlock l); [done|].
    all: destruct (isCharacter l); done.
Qed.

Lemma linkTail_Some (o : Options) (cm : gmap string string) (l : Listing) :
  0 < Go.len (permissions l) → is_Some (linkTail o cm l).
Proof.
  intros H. unfold linkTail. rewrite indexIs_permIs by done.
  destruct (permIs l 0 "l"), (long o), (linkOrphan l); by eexists.
Qed.

Example classify_sticky_world_writable_dir :
  let cm : gmap string string :=
    {[ "directory" := "D"; "directory_o+w_sticky" := "TW"; "end" := "E" ]} in
  let l := mkListing "drwxrwxrwt" "2" "root" "root" "4096" 0 "Jan" "01"
                     "00:00" "tmp" "" false false false false false in
  writeListingName (mkOptions false false false false false true
                              false false false false false) cm "" l
  = Some "TWtmpE".
Proof. by vm_compute. Qed.

Example classify_extension_before_directory :
  let cm : gmap string string :=
    {[ "directory" := "D"; "directory_o+w_sticky" := "TW"; "*.d" := "X";
       "end" := "E" ]} in
  let l := mkListing "drwxrwxrwt" "2" "root" "root" "4096" 0 "Jan" "01"
                     "00:00" "conf.d" "" false false false false false in
  writeListingName (mkOptions false false false false false true
                              false false false false false) cm "" l
  = Some "Xconf.dE".
Proof. by vm_compute. Qed.

(** C2.  With colour output enabled, [writeListingName] writes, after what
    the buffer held, the colour of the first rule that applies in the fixed
    order (and nothing when none applies), then the name, then the reset
    sequence when a colour was applied, then the link tail: one colour
    entry at most stands before the name.  A directory with [w] at position
    8 and [t] at position 9 is never classified as plain [directory], and it
    is classified as [directory_o+w_sticky] whenever the extension rule,
    which comes first, does not apply. *)
Theorem classifier_precedence (o : Options) (cm : gmap string string)
    (outputBuffer : string) (l : Listing)
    (Hcolor : color o = true) (Hcm : noEmptyColor cm)
    (Hperm : permsReadable l) :
  (∃ tail,
     linkTail o cm l = Some tail ∧
     writeListingName o cm outputBuffer l
     = Some ((match specCategoryOf cm l with
              | Some k => (outputBuffer +:+ mapGet cm k +:+ name l)
                            +:+ mapGet cm "end"
              | None => outputBuffer +:+ "" +:+ name l
              end) +:+ tail))
  ∧ (isDirectory l = true → isWorldWritable l = true → isSticky l = true →
     specCategoryOf cm l ≠ Some "directory"
     ∧ (globInTable cm l = false →
        specCategoryOf cm l = Some "directory_o+w_sticky")).
Proof.
  split.
  - destruct (linkTail_Some o cm l) as [tail Htail].
    { destruct Hperm as [H _]. lia. }
    exists tail. split; [done|].
    unfold writeListingName. rewrite Hcolor, nameColor_spec by done.
    unfold specColor. destruct (specCategoryOf cm l); cbn; by rewrite Htail.
  - intros Hd Hw Ht. unfold specCategoryOf, specRules. cbn [firstMatch].
    rewrite Hd, Hw, Ht. cbn.
    destruct (globInTable cm l) eqn:Hglob; [|done].
    split; [|done]. unfold globInTable, extensionGlob in *.
    destruct (afterLastDot (name l)); [|done]. cbn. by intros [=].
Qed.

Lemma classifier_precedence_witness :
  let cm : gmap string string :=
    {[ "directory" := "D"; "directory_o+w_sticky" := "TW"; "end" := "E" ]} in
  let l := mkListing "drwxrwxrwt" "2" "root" "root" "4096" 0 "Jan" "01"
                     "00:00" "tmp" "" false false false false false in
  specCategoryOf cm l ≠ Some "directory"
  ∧ (globInTable cm l = false →
     specCategoryOf cm l = Some "directory_o+w_sticky").
Proof.
  intros cm l.
  refine (proj2 (classifier_precedence
                   (mkOptions false false false false false true
                              false false false false false)
                   cm "" l eq_refl _ _) eq_refl eq_refl eq_refl).
  - unfold noEmptyColor, cm.
    repeat (apply map_Forall_insert_2; [discriminate|]).
    apply map_Forall_empty.
  - split; [vm_compute; lia | intros _; vm_compute; lia].
Defined.

(** *** The tables and listings the program builds meet the conditions *)

Lemma foldl_option_invariant {S I} (step : S → I → option S) (P : S → Prop)
    (items : list I) (s s' : S) :
  (∀ m i m', step m i = Some m' → P m → P m') →
  P s →
  foldl (λ acc i, m ← acc; step m i) (Some s) items = Some s' → P s'.
Proof.
  intros Hstep. revert s. induction items as [|i items IH]; intros s Hs Hfold.
  - cbn in Hfold. by injection Hfold as <-.
  - cbn [foldl mbind option_bind] in Hfold.
    destruct (step s i) as [m|] eqn:Hm.
    + eapply IH; [|exact Hfold]. by eapply Hstep.
    + exfalso. clear -Hfold. induction items as [|j items IH]; [done|].
      by apply IH.
Qed.

Lemma escOpen_app_nonempty (s : string) : escOpen +:+ s ≠ "".
Proof. done. Qed.

(** What holds of the initial table and is kept by storing a non-empty
    value holds of every table [ls] builds. *)
Lemma buildColorMap_preserved (P : gmap string string → Prop)
    (LsColors LSCOLORS : string) (cm : gmap string string) :
  P {[ "end" := escOpen +:+ "0m" ]} →
  (∀ m k v, v ≠ "" → P m → P (<[k := v]> m)) →
  buildColorMap LsColors LSCOLORS = Some cm → P cm.
Proof.
  intros Hinit Hins. unfold buildColorMap.
  assert (Hbsd : ∀ s m i m', parseLscolorsStep s m i = Some m' → P m → P m').
  { intros s m i m' Hstep Hm. unfold parseLscolorsStep in Hstep.
    destruct (lscolorsKey i) as [key|]; [|by injection Hstep as <-].
    destruct (Go.slice s i (i + 2)) as [code|]; [|done]. cbn in Hstep.
    unfold getColorFromBsdCode in Hstep.
    destruct (Go.index code 0) as [fg|]; [|done].
    destruct (Go.index code 1) as [bg|]; [|done].
    cbn in Hstep. injection Hstep as <-.
    by apply Hins. }
  assert (Hsysv : ∀ m i m', parseLsColorsStep m i = Some m' → P m → P m').
  { intros m i m' Hstep Hm. unfold parseLsColorsStep in Hstep.
    case_bool_decide; [by injection Hstep as <-|].
    destruct (Go.split "=" i !! 1) as [code|]; [|done].
    destruct (Go.split "=" i !! 0) as [key|]; [|done].
    cbn in Hstep. injection Hstep as <-.
    by apply Hins. }
  destruct (negb (bool_decide (LSCOLORS = ""))).
  { unfold parseLscolors. apply foldl_option_invariant; [apply Hbsd | done]. }
  destruct (negb (bool_decide (LsColors = ""))).
  { unfold parseLsColors. apply foldl_option_invariant; [apply Hsysv | done]. }
  unfold parseLscolors. apply foldl_option_invariant; [apply Hbsd | done].
Qed.

(** Every table [ls] builds is free of empty entries. *)
Lemma buildColorMap_noEmpty (LsColors LSCOLORS : string)
    (cm : gmap string string) :
  buildColorMap LsColors LSCOLORS = Some cm → noEmptyColor cm.
Proof.
  apply (buildColorMap_preserved noEmptyColor).
  - unfold noEmptyColor. by apply map_Forall_singleton.
  - intros m k v Hv Hm. by apply map_Forall_insert_2.
Qed.

(** A permission string of ten characters or more can be read wherever the
    classifier reads it; so can the nine characters left of a block
    device's mode string, which do not start with [d]. *)
Lemma permsReadable_ten (l : Listing) :
  10 ≤ Go.len (permissions l) → permsReadable l.
Proof. intros H. split; [lia | done]. Qed.

Lemma permsReadable_block_device (l : Listing) :
  permBits (permissions l) = true → permsReadable l.
Proof.
  intros H. pose proof (permBits_len _ H) as Hlen. split; [lia|].
  unfold isDirectory, permIs. intros Hd%bool_decide_eq_true.
  apply permBits_chars in H as (a&b&c&d&e&f&g&h&i&Hp&[-> | ->]);
    rewrite Hp in Hd; discriminate Hd.
Qed.

(** ** Human-readable sizes *)

Example human_1280 : humanSize 1280 = Some "1.2K".
Proof. by vm_compute. Qed.

Example human_1792 : humanSize 1792 = Some "1.8K".
Proof. by vm_compute. Qed.

Example human_just_below_1M : humanSize 1048575 = Some "1024K".
Proof. by vm_compute. Qed.

Example human_max_int64 : humanSize (2 ^ 63 - 1) = Some "8E".
Proof. by vm_compute. Qed.

Lemma string_of_uint_digits (d : uint) :
  allDigitChars (NilEmpty.string_of_uint d) = true.
Proof. induction d; cbn; auto. Qed.

Lemma string_of_uint_empty (d : uint) :
  NilEmpty.string_of_uint d = EmptyString → d = Nil.
Proof. by destruct d. Qed.

Lemma itoa_number (z : Z) : (0 ≤ z)%Z → isNumber (Go.itoa z).
Proof.
  intros Hz. unfold Go.itoa. destruct z as [|p|p]; [done| |lia].
  cbn. split; [|apply string_of_uint_digits].
  intros H%string_of_uint_empty. by apply DecimalPos.Unsigned.to_uint_nonnil in H.
Qed.

Lemma itoa_digit (z : Z) :
  (0 ≤ z < 10)%Z →
  ∃ d : ascii, Go.itoa z = String d EmptyString ∧ isDigitChar d = true
               ∧ (d = "0"%char ↔ z = 0%Z).
Proof.
  intros Hz.
  assert (z = 0 ∨ z = 1 ∨ z = 2 ∨ z = 3 ∨ z = 4 ∨ z = 5 ∨ z = 6 ∨ z = 7
          ∨ z = 8 ∨ z = 9)%Z as H by lia.
  repeat destruct H as [->|H]; try subst z;
    (eexists; split; [reflexivity|]; split; [reflexivity|]; split; [intros [=] | intros [=]]);
    done.
Qed.

Lemma digits_no_byte (c : ascii) (s : string) :
  isDigitChar c = false → allDigitChars s = true → hasByte c s = false.
Proof.
  intros Hc. induction s as [|x s IH]; [done|]. cbn.
  intros [Hx Hs]%andb_prop. rewrite (IH Hs), orb_false_r.
  apply bool_decide_eq_false_2. intros ->. congruence.
Qed.

Lemma substring_app_l (a b : string) :
  String.substring 0 (String.length a) (a +:+ b) = a.
Proof.
  induction a as [|x a IH]; [by destruct b|].
  rewrite app_String. cbn. by rewrite IH.
Qed.

Lemma substring_app_r (a b : string) (m : nat) :
  String.substring (String.length a) m (a +:+ b) = String.substring 0 m b.
Proof.
  induction a as [|x a IH]; [done|].
  rewrite app_String. cbn [String.length String.substring]. apply IH.
Qed.

Lemma hasByte_substring (c : ascii) (s : string) (n m : nat) :
  hasByte c s = false → hasByte c (String.substring n m s) = false.
Proof.
  revert n m. induction s as [|x s IH]; intros n m; [by destruct n, m|].
  cbn [hasByte]. intros [Hx Hs]%orb_false_elim.
  destruct n as [|n]; destruct m as [|m]; cbn; auto.
  rewrite Hx. cbn. auto.
Qed.

Lemma Qdiv_1024_nonneg (x : Q) : (0 <= x)%Q → (0 <= x / 1024)%Q.
Proof.
  unfold Qle, Qdiv, Qmult, Qinv. cbn. lia.
Qed.

Lemma Qdiv_1024_lt (x : Q) (b : Z) :
  (x < inject_Z (1024 * b))%Q → (x / 1024 < inject_Z b)%Q.
Proof.
  unfold Qlt, Qdiv, Qmult, Qinv, inject_Z. cbn.
  rewrite Pos2Z.inj_mul. lia.
Qed.

Lemma Qmul_1024_nonneg (x : Q) : (0 <= x)%Q → (0 <= x * 1024)%Q.
Proof. unfold Qle, Qmult. cbn. lia. Qed.

Lemma Qmul_10_nonneg (x : Q) : (0 <= x)%Q → (0 <= x * 10)%Q.
Proof. unfold Qle, Qmult. cbn. lia. Qed.

(** The loop ends within [k] turns on a value below 1024^k, and leaves a
    value that is not negative. *)
Lemma scaleDown_Some (fuel k : nat) (x : Q) (c : Z) :
  (0 <= x)%Q → (x < inject_Z (1024 ^ Z.of_nat k))%Q → k < fuel →
  ∃ s c', scaleDown fuel x c = Some (s, c') ∧ (0 <= s)%Q ∧ (c ≤ c')%Z.
Proof.
  revert k x c. induction fuel as [|fuel IH]; intros k x c H0 Hk Hf; [lia|].
  cbn [scaleDown]. destruct (Qle_bool 1 x) eqn:E.
  - apply Qle_bool_iff in E. destruct k as [|k].
    + exfalso. apply (Qlt_irrefl x). eapply Qlt_le_trans; [exact Hk | exact E].
    + destruct (IH k (x / 1024)%Q (c + 1)%Z) as (s & c' & -> & Hs & Hc).
      * by apply Qdiv_1024_nonneg.
      * apply Qdiv_1024_lt. by rewrite Nat2Z.inj_succ, Z.pow_succ_r in Hk by lia.
      * lia.
      * exists s, c'. repeat split; [done | lia].
  - exists x, c. repeat split; [done | lia].
Qed.

Lemma float64OfInt_bounds (n : Z) :
  (0 ≤ n < 2 ^ 63)%Z →
  (0 <= float64OfInt n)%Q ∧ (float64OfInt n < inject_Z (1024 ^ Z.of_nat 7))%Q.
Proof.
  intros Hn. unfold float64OfInt.
  rewrite (Z.abs_eq n) by lia.
  destruct (n <? 2 ^ 53)%Z eqn:E.
  - unfold Qle, Qlt, inject_Z. cbn. lia.
  - apply Z.ltb_ge in E.
    assert (Hlog : (53 ≤ Z.log2 n < 63)%Z).
    { split; [apply Z.log2_le_pow2; lia | apply Z.log2_lt_pow2; lia]. }
    set (e := (Z.log2 n - 52)%Z).
    assert (He : (1 ≤ e ≤ 10)%Z) by (unfold e; lia).
    assert (Hpow : (0 < 2 ^ e)%Z) by (apply Z.pow_pos_nonneg; lia).
    assert (Hq : (0 ≤ n / 2 ^ e)%Z) by (apply Z.div_pos; lia).
    assert (Hq2 : (n / 2 ^ e < 2 ^ 53)%Z).
    { apply Z.div_lt_upper_bound; [lia|].
      rewrite <- Z.pow_add_r by lia.
      replace (e + 53)%Z with (Z.log2 n + 1)%Z by (unfold e; lia).
      rewrite Z.add_1_r. apply Z.log2_spec. lia. }
    assert (Hsgn : Z.sgn n = 1%Z) by (apply Z.sgn_pos; lia).
    rewrite Hsgn.
    assert (Hpow10 : (2 ^ e ≤ 2 ^ 10)%Z) by (apply Z.pow_le_mono_r; lia).
    destruct (_ || _); unfold Qle, Qlt, inject_Z; cbn; nia.
Qed.

Lemma roundHalfEven_nonneg (x : Q) : (0 <= x)%Q → (0 ≤ roundHalfEven x)%Z.
Proof.
  unfold Qle, roundHalfEven. cbn. rewrite Z.mul_1_r. intros H.
  assert (0 ≤ Qnum x / Z.pos (Qden x))%Z by (apply Z.div_pos; lia).
  repeat case_match; lia.
Qed.

Lemma int64OfFloat_nonneg (x : Q) : (0 <= x)%Q → (0 ≤ int64OfFloat x)%Z.
Proof.
  unfold Qle, int64OfFloat. cbn. rewrite Z.mul_1_r. intros H.
  apply Z.quot_pos; lia.
Qed.

Lemma app_assoc_string (a b c : string) : (a +:+ b) +:+ c = a +:+ b +:+ c.
Proof.
  induction a as [|x a IH]; [done|]. rewrite !app_String. by rewrite IH.
Qed.

(** A value without a point keeps its form. *)
Lemma dropPointZero_number (ip suffix : string) :
  allDigitChars ip = true → hasByte "." suffix = false →
  dropPointZero (ip +:+ suffix) suffix = Some (ip +:+ suffix).
Proof.
  intros Hip Hsuf. unfold dropPointZero.
  case_decide as Hlen; [|done].
  unfold Go.slice. rewrite !decide_True by lia. cbn [mbind option_bind].
  rewrite bool_decide_eq_false_2; [done|].
  intros Htail.
  assert (hasByte "." (ip +:+ suffix) = false) as Hno.
  { rewrite hasByte_app, Hsuf, orb_false_r. by apply digits_no_byte. }
  eapply hasByte_substring in Hno. rewrite Htail in Hno. discriminate Hno.
Qed.

(** A value with one decimal loses it exactly when the decimal is [0]. *)
Lemma dropPointZero_point (ip : string) (d x : ascii) :
  ip ≠ EmptyString →
  dropPointZero (ip +:+ "." +:+ String d (String x "")) (String x "")
  = Some (if bool_decide (d = "0"%char) then ip +:+ String x ""
          else ip +:+ "." +:+ String d (String x "")).
Proof.
  intros Hip. unfold dropPointZero.
  assert (Hlen : Go.len (ip +:+ "." +:+ String d (String x ""))
                 = String.length ip + 3).
  { unfold Go.len. by rewrite string_length_app. }
  assert (0 < String.length ip) by (destruct ip; [done | cbn; lia]).
  rewrite decide_True by lia.
  unfold Go.slice. rewrite Hlen. rewrite !decide_True by lia. cbn [mbind option_bind].
  replace (String.length ip + 3 - 3) with (String.length ip) by lia.
  replace (String.length ip + 3 - 1 - String.length ip) with 2 by lia.
  rewrite substring_app_r. cbn [String.substring String.append].
  rewrite Nat.sub_0_r, substring_app_l.
  destruct (ascii_dec d "0") as [->|Hd].
  - by rewrite !bool_decide_eq_true_2.
  - rewrite (bool_decide_eq_false_2 (d = "0"%char)) by done.
    rewrite bool_decide_eq_false_2; [done | intros [= Heq]; by apply Hd].
Qed.

Lemma sizeSuffix_one_char (count : Z) :
  ∃ x : ascii, sizeSuffix count = String x "" ∧ String x "" ∈ sizeSuffixes
               ∧ hasByte "." (String x "") = false.
Proof.
  unfold sizeSuffix, sizeSuffixes.
  repeat case_match; eexists; (split; [reflexivity|]); split;
    (done || set_solver).
Qed.

(** Under [human] every size below 2^63 is rendered, as a value followed by
    one suffix. *)
Lemma humanSize_shape (n : Z) :
  (0 ≤ n < 2 ^ 63)%Z →
  ∃ v suffix, humanSize n = Some (v +:+ suffix)
              ∧ suffix ∈ sizeSuffixes ∧ isHumanValue v.
Proof.
  intros Hn. destruct (float64OfInt_bounds n Hn) as [H0 H7].
  destruct (scaleDown_Some 64 7 (float64OfInt n) 0 H0 H7)
    as (s & c & Hscale & Hs & Hc); [lia|].
  unfold humanSize. rewrite Hscale. cbn [mbind option_bind].
  assert ((c <? 0)%Z = false) as -> by lia.
  set (adjusted := if (0 <? c)%Z then _ else _).
  assert (∃ s' c', adjusted = (s', c') ∧ (0 <= s')%Q) as (s' & c' & -> & Hs').
  { unfold adjusted. destruct (0 <? c)%Z; eexists _, _; split; try done.
    by apply Qmul_1024_nonneg. }
  destruct (sizeSuffix_one_char c') as (x & -> & Hin & Hdot).
  destruct (c' =? 0)%Z.
  - destruct (itoa_number (int64OfFloat s')) as [Hne Hdig].
    { by apply int64OfFloat_nonneg. }
    rewrite dropPointZero_number by done.
    eexists _, _. split; [done|]. split; [done|]. by left.
  - unfold formatF1.
    pose proof (roundHalfEven_nonneg (s' * 10)%Q (Qmul_10_nonneg s' Hs')) as Ht.
    set (t := roundHalfEven (s' * 10)%Q) in *.
    destruct (itoa_number (t / 10)%Z) as [Hne Hdig].
    { apply Z.div_pos; lia. }
    destruct (itoa_digit (t mod 10)%Z) as (d & -> & Hd & Hzero).
    { apply Z.mod_pos_bound. lia. }
    rewrite !app_assoc_string.
    change (Go.itoa (t / 10) +:+ "." +:+ String d "" +:+ String x "")
      with (Go.itoa (t / 10) +:+ "." +:+ String d (String x "")).
    rewrite dropPointZero_point by done.
    case_bool_decide as Hd0.
    + eexists _, _. split; [done|]. split; [done|]. by left.
    + exists (Go.itoa (t / 10) +:+ "." +:+ String d ""), (String x "").
      split; [by rewrite !app_assoc_string|]. split; [done|].
      right. by eexists _, _.
Qed.

(** C9.  With the human option the size field of 0 bytes is [0B], of 1024
    bytes [1K] (the formatted [1.0K] with its [.0] dropped) and of 1536
    bytes [1.5K]; and for every size [n] of a file the field is a value
    followed by one suffix of B, K, M, G, T, P, E, ?, where the value is a
    string of digits, or digits, a point and one decimal digit other than
    0. *)
Theorem human_size_format (o : Options) (n : Z)
    (Hhuman : human o = true) (Hn : (0 ≤ n < 2 ^ 63)%Z) :
  sizeField o 0 = Some "0B"
  ∧ sizeField o 1024 = Some "1K"
  ∧ formatF1 1 +:+ "K" = "1.0K"
  ∧ dropPointZero "1.0K" "K" = Some "1K"
  ∧ sizeField o 1536 = Some "1.5K"
  ∧ ∃ v suffix, sizeField o n = Some (v +:+ suffix)
                ∧ suffix ∈ sizeSuffixes ∧ isHumanValue v.
Proof.
  unfold sizeField. rewrite Hhuman.
  repeat (split; [by vm_compute|]).
  by apply humanSize_shape.
Qed.

Lemma human_size_format_witness :
  ∃ v suffix,
    sizeField (mkOptions false false true false false true
                         false false false false false) 123456789
    = Some (v +:+ suffix)
    ∧ suffix ∈ sizeSuffixes ∧ isHumanValue v.
Proof.
  refine (proj2 (proj2 (proj2 (proj2 (proj2
    (human_size_format (mkOptions false false true false false true
                                  false false false false false)
                       123456789 eq_refl _)))))).
  split; [lia | reflexivity].
Defined.

(** ** Sorting: the reversal step *)

Lemma lookup_front {A} (pre rest : list A) (x : A) :
  (pre ++ x :: rest) !! length pre = Some x.
Proof. by apply list_lookup_middle. Qed.

Lemma lookup_rear {A} (pre mid rest : list A) (x y : A) :
  (pre ++ x :: mid ++ y :: rest) !! (length pre + S (length mid)) = Some y.
Proof.
  rewrite lookup_app_r by lia.
  replace (length pre + S (length mid) - length pre) with (S (length mid)) by lia.
  cbn. by apply list_lookup_middle.
Qed.

(** Exchanging the two ends of the middle part, as two assignments. *)
Lemma swap_ends {A} (pre mid rest : list A) (x y : A) :
  <[length pre + S (length mid) := x]>
    (<[length pre := y]> (pre ++ x :: mid ++ y :: rest))
  = pre ++ y :: mid ++ x :: rest.
Proof.
  rewrite (insert_app_r_alt pre _ (length pre)) by lia.
  rewrite Nat.sub_diag. simpl.
  rewrite insert_app_r. simpl. do 2 f_equal.
  rewrite insert_app_r_alt by lia. by rewrite Nat.sub_diag.
Qed.

(** The loop invariant of the reversal: with [pre] and [post] already
    exchanged and as many turns left as half the middle part, rounded up,
    the loop reverses the middle part and leaves the rest. *)
Lemma reverseFrom_middle (n : nat) (pre mid post : list Listing) :
  length pre = length post → n = (length mid + 1) / 2 →
  reverseFrom n (length pre) (pre ++ mid ++ post)
  = Some (pre ++ reverse mid ++ post).
Proof.
  revert pre mid post.
  induction n as [|n IH]; intros pre mid post Hlen Hn.
  - destruct mid as [|x [|y mid]]; [done| |].
    + cbn in Hn. discriminate.
    + exfalso. cbn [length] in Hn.
      assert (1 ≤ (S (S (length mid)) + 1) / 2) by (apply Nat.div_le_lower_bound; lia).
      lia.
  - destruct mid as [|x mid].
    { cbn in Hn. discriminate. }
    destruct mid as [|y' mid'] using rev_ind.
    + (* the middle element of an odd length: the loop stops *)
      cbn [reverseFrom].
      rewrite bool_decide_eq_true_2; [done|].
      rewrite !length_app. cbn. lia.
    + clear IHmid'.
      assert (Hn' : n = (length mid' + 1) / 2).
      { rewrite length_cons, length_app in Hn. cbn [length] in Hn.
        replace (S (length mid' + 1) + 1) with (length mid' + 1 + 1 * 2) in Hn by lia.
        rewrite Nat.div_add in Hn by done. lia. }
      cbn [reverseFrom].
      assert (Hrear : length (pre ++ (x :: mid' ++ [y']) ++ post) - 1 - length pre
                      = length pre + S (length mid')).
      { rewrite !length_app. cbn [length]. rewrite length_app. cbn. lia. }
      rewrite Hrear.
      rewrite bool_decide_eq_false_2 by lia.
      replace (pre ++ (x :: mid' ++ [y']) ++ post)
        with (pre ++ x :: mid' ++ y' :: post)
        by (cbn; by rewrite <- !(assoc_L (++))).
      rewrite lookup_front, lookup_rear. cbn [mbind option_bind].
      rewrite swap_ends.
      replace (pre ++ y' :: mid' ++ x :: post)
        with ((pre ++ [y']) ++ mid' ++ (x :: post))
        by (by rewrite <- !(assoc_L (++))).
      replace (S (length pre)) with (length (pre ++ [y']))
        by (rewrite length_app; cbn; lia).
      rewrite IH; [|rewrite length_app; cbn; lia | done].
      f_equal. rewrite reverse_cons, reverse_app. cbn.
      by rewrite <- !(assoc_L (++)).
Qed.

(** The reversal step never panics and returns the reversed slice. *)
Lemma reverseStep_reverse (listings : list Listing) :
  reverseStep listings = Some (reverse listings).
Proof.
  unfold reverseStep.
  set (n := length listings).
  assert (Hturns :
    Z.to_nat ((if (Z.of_nat n mod 2 =? 0)%Z then Z.of_nat n / 2 - 1
               else Z.of_nat n / 2) + 1) = (n + 1) / 2).
  { assert (Z.of_nat ((n + 1) / 2) = (Z.of_nat n + 1) / 2)%Z as Hz
      by (rewrite Nat2Z.inj_div; f_equal; lia).
    pose proof (Z.div_mod (Z.of_nat n) 2 ltac:(lia)) as Hdm.
    pose proof (Z.mod_pos_bound (Z.of_nat n) 2 ltac:(lia)) as Hb.
    pose proof (Z.div_mod (Z.of_nat n + 1) 2 ltac:(lia)) as Hdm'.
    pose proof (Z.mod_pos_bound (Z.of_nat n + 1) 2 ltac:(lia)) as Hb'.
    destruct (Z.of_nat n mod 2 =? 0)%Z eqn:E; lia. }
  rewrite Hturns.
  pose proof (reverseFrom_middle ((n + 1) / 2) [] listings [] eq_refl eq_refl) as H.
  cbn [length app] in H. rewrite !app_nil_r in H. exact H.
Qed.

Example reverse_abc :
  names <$> reverseStep [fileNamed "a"; fileNamed "b"; fileNamed "c"]
  = Some ["c"; "b"; "a"].
Proof. reflexivity. Qed.

Example reverse_abcd :
  names <$> reverseStep [fileNamed "a"; fileNamed "b"; fileNamed "c";
                         fileNamed "d"]
  = Some ["d"; "c"; "b"; "a"].
Proof. reflexivity. Qed.

Example reverse_empty : reverseStep [] = Some [].
Proof. reflexivity. Qed.

(** C7.  The reversal step of [sortListings] succeeds on every slice, of
    odd or of even length; the element at index [i] ends at index
    [n - 1 - i], for every [i] below the length [n]; and the step applied
    twice gives the slice back. *)
Theorem reversal_correct (listings : list Listing) :
  ∃ reversed,
    reverseStep listings = Some reversed
    ∧ length reversed = length listings
    ∧ (∀ i, i < length listings →
            reversed !! (length listings - 1 - i) = listings !! i)
    ∧ reverseStep reversed = Some listings.
Proof.
  exists (reverse listings). split; [apply reverseStep_reverse|].
  split; [apply length_reverse|]. split.
  - intros i Hi. rewrite reverse_lookup by lia. f_equal. lia.
  - by rewrite reverseStep_reverse, reverse_involutive.
Qed.

(** ** Sorting: the exchange sort *)

Lemma bubblePass_S (cmp : Listing → Listing → option Z) (n i : nat)
    (listings : list Listing) (done : bool) :
  bubblePass cmp (S n) i listings done
  = (a ← listings !! i;
     b ← listings !! (i + 1);
     c ← cmp a b;
     if (-1 <? c)%Z then
       bubblePass cmp n (S i) (<[i + 1 := a]> (<[i := b]> listings)) false
     else bubblePass cmp n (S i) listings done).
Proof. reflexivity. Qed.

(** The pass over indices is the pass over the slice's elements. *)
Lemma bubblePass_bubble (cmp : Listing → Listing → option Z)
    (pre : list Listing) (x : Listing) (rest : list Listing) (done : bool) :
  bubblePass cmp (length rest) (length pre) (pre ++ x :: rest) done
  = '(r, d) ← bubble cmp x rest done; Some (pre ++ r, d).
Proof.
  revert pre x done. induction rest as [|y rest IH]; intros pre x done.
  - done.
  - cbn [length bubble]. rewrite bubblePass_S.
    rewrite lookup_front. cbn [mbind option_bind].
    assert ((pre ++ x :: y :: rest) !! (length pre + 1) = Some y) as ->.
    { rewrite lookup_app_r by lia.
      by replace (length pre + 1 - length pre) with 1 by lia. }
    cbn [mbind option_bind].
    destruct (cmp x y) as [c|]; [|done]. cbn [mbind option_bind].
    destruct (-1 <? c)%Z.
    + rewrite (insert_app_r_alt pre _ (length pre)) by lia.
      rewrite Nat.sub_diag. simpl.
      rewrite insert_app_r. simpl.
      replace (S (length pre)) with (length (pre ++ [y]))
        by (rewrite length_app; cbn; lia).
      replace (pre ++ y :: x :: rest) with ((pre ++ [y]) ++ x :: rest)
        by (by rewrite <- (assoc_L (++))).
      rewrite IH. destruct (bubble cmp x rest false) as [[r d]|]; [|done].
      cbn. by rewrite <- (assoc_L (++)).
    + replace (S (length pre)) with (length (pre ++ [x]))
        by (rewrite length_app; cbn; lia).
      replace (pre ++ x :: y :: rest) with ((pre ++ [x]) ++ y :: rest)
        by (by rewrite <- (assoc_L (++))).
      rewrite IH. destruct (bubble cmp y rest done) as [[r d]|]; [|done].
      cbn. by rewrite <- (assoc_L (++)).
Qed.

Lemma bubblePass_top (cmp : Listing → Listing → option Z)
    (listings : list Listing) :
  bubblePass cmp (length listings - 1) 0 listings true
  = match listings with
    | [] => Some ([], true)
    | x :: rest => bubble cmp x rest true
    end.
Proof.
  destruct listings as [|x rest]; [done|].
  replace (length (x :: rest) - 1) with (length rest) by (cbn; lia).
  pose proof (bubblePass_bubble cmp [] x rest true) as H.
  cbn [length app] in H. rewrite H.
  by destruct (bubble cmp x rest true) as [[r d]|].
Qed.

Section Keyed.
Variable key : Listing → Z.
Variable cmp : Listing → Listing → option Z.
Hypothesis Hcmp : keyedComparison key cmp.

Lemma countAbove_perm (x : Listing) (l l' : list Listing) :
  l ≡ₚ l' → countAbove key x l = countAbove key x l'.
Proof. intros H. unfold countAbove. by rewrite H. Qed.

Lemma countAbove_cons (x y : Listing) (l : list Listing) :
  countAbove key x (y :: l)
  = (if decide (key x < key y)%Z then 1 else 0) + countAbove key x l.
Proof. unfold countAbove. rewrite filter_cons. by case_decide. Qed.

(** A pass with a keyed comparison: it never panics, permutes the slice,
    does not add inversions, removes one at least when it exchanges, and
    exchanges nothing exactly on a slice that is in descending order. *)
Lemma bubble_keyed (x : Listing) (rest : list Listing) (done : bool) :
  ∃ r d,
    bubble cmp x rest done = Some (r, d)
    ∧ x :: rest ≡ₚ r
    ∧ inversions key r + (if done && negb d then 1 else 0)
      ≤ inversions key (x :: rest)
    ∧ (d = true → done = true ∧ r = x :: rest ∧ descendingBy key (x :: rest))
    ∧ (done = false → d = false).
Proof using Hcmp.
  revert x done. induction rest as [|y rest IH]; intros x done.
  - exists [x], done. cbn. repeat split; try done.
    + destruct done; cbn; lia.
    + by repeat constructor.
  - cbn [bubble]. rewrite Hcmp. cbn [mbind option_bind].
    destruct (key y <=? key x)%Z eqn:E; cbn [Z.ltb Z.compare Pos.compare].
    + apply Z.leb_le in E.
      destruct (IH y done) as (r & d & -> & Hperm & Hinv & Hd & Hf).
      exists (x :: r), d. cbn [mbind option_bind].
      split; [done|]. split; [by rewrite Hperm|]. split; [|split].
      * cbn [inversions] in *. rewrite <- (countAbove_perm x _ _ Hperm). lia.
      * intros Hdt. destruct (Hd Hdt) as (-> & -> & Hsorted).
        repeat split; try done. constructor; [done|]. by constructor.
      * done.
    + apply Z.leb_gt in E.
      destruct (IH x false) as (r & d & -> & Hperm & Hinv & Hd & Hf).
      rewrite (Hf eq_refl) in *.
      exists (y :: r), false. cbn [mbind option_bind].
      split; [done|]. split; [|split; [|split]].
      * rewrite <- Hperm. apply Permutation_swap.
      * cbn [inversions] in *. rewrite <- (countAbove_perm y _ _ Hperm).
        rewrite !countAbove_cons.
        rewrite decide_False by lia. rewrite decide_True by lia.
        destruct done; cbn; lia.
      * done.
      * done.
Qed.

(** A slice in descending order passes unchanged. *)
Lemma bubble_descending (x : Listing) (rest : list Listing) (done : bool) :
  descendingBy key (x :: rest) → bubble cmp x rest done = Some (x :: rest, done).
Proof using Hcmp.
  revert x. induction rest as [|y rest IH]; intros x Hs; [done|].
  apply Sorted_inv in Hs as [Hs Hhd]. apply HdRel_inv in Hhd.
  cbn [bubble]. rewrite Hcmp. cbn [mbind option_bind].
  apply Z.leb_le in Hhd. rewrite Hhd. cbn [Z.ltb Z.compare Pos.compare].
  by rewrite (IH y Hs).
Qed.

(** The sort with a keyed comparison returns: more fuel than the slice has
    inversions is enough, and the result is the slice in descending
    order. *)
Lemma sortLoop_keyed (m : nat) (listings : list Listing) :
  inversions key listings ≤ m →
  ∃ sorted,
    (∀ fuel, m < fuel → sortLoop cmp fuel listings = Returned sorted)
    ∧ listings ≡ₚ sorted
    ∧ descendingBy key sorted.
Proof using Hcmp.
  revert listings. induction m as [|m IH]; intros listings Hm.
  - destruct listings as [|x rest].
    { exists []. split; [|split; [done | constructor]].
      intros [|fuel] ?; [lia | done]. }
    destruct (bubble_keyed x rest true) as (r & d & Hb & Hperm & Hinv & Hd & _).
    destruct d; [|cbn [andb negb] in Hinv; lia].
    destruct (Hd eq_refl) as (_ & -> & Hsorted).
    exists (x :: rest). split; [|by split].
    intros [|fuel] ?; [lia|]. cbn [sortLoop]. by rewrite bubblePass_top, Hb.
  - destruct listings as [|x rest].
    { exists []. split; [|split; [done | constructor]].
      intros [|fuel] ?; [lia | done]. }
    destruct (bubble_keyed x rest true) as (r & d & Hb & Hperm & Hinv & Hd & _).
    destruct d.
    + destruct (Hd eq_refl) as (_ & -> & Hsorted).
      exists (x :: rest). split; [|by split].
      intros [|fuel] ?; [lia|]. cbn [sortLoop]. by rewrite bubblePass_top, Hb.
    + destruct (IH r) as (sorted & Hfuel & Hperm' & Hsorted).
      { cbn [andb negb] in Hinv. lia. }
      exists sorted. split; [|split; [by rewrite Hperm | done]].
      intros [|fuel] ?; [lia|]. cbn [sortLoop]. rewrite bubblePass_top, Hb.
      apply Hfuel. lia.
Qed.

Lemma sortLoop_descending (listings : list Listing) (fuel : nat) :
  descendingBy key listings → sortLoop cmp (S fuel) listings = Returned listings.
Proof using Hcmp.
  intros Hs. cbn [sortLoop]. rewrite bubblePass_top.
  destruct listings as [|x rest]; [done|].
  by rewrite bubble_descending.
Qed.

End Keyed.

Lemma compareTime_keyed : keyedComparison epochNano compareTime.
Proof. intros a b. unfold compareTime. by destruct (_ <=? _)%Z. Qed.

Lemma compareSize_keyed : keyedComparison sizeKey compareSize.
Proof. intros a b. unfold compareSize, sizeKey. by destruct (_ <=? _)%Z. Qed.

(** *** Sorting by size *)

Example atoi_plain : Go.atoi "4096" = 4096%Z.
Proof. reflexivity. Qed.

Example atoi_human : Go.atoi "1.5K" = 0%Z.
Proof. reflexivity. Qed.

Example atoi_negative : Go.atoi "-12" = (-12)%Z.
Proof. reflexivity. Qed.

Lemma digitsValue_non_digit (acc : Z) (a : string) (x : ascii) (b : string) :
  Go.digitValue x = None → Go.digitsValue acc (a +:+ String x b) = None.
Proof.
  intros Hx. revert acc. induction a as [|c a IH]; intros acc.
  - rewrite app_empty_l. cbn. by rewrite Hx.
  - rewrite app_String. cbn. destruct (Go.digitValue c); [apply IH | done].
Qed.

(** A string that ends in a byte that is no digit is a syntax error for
    [strconv.Atoi]: the value is 0. *)
Lemma atoi_non_number (s : string) (x : ascii) :
  Go.digitValue x = None → Go.atoi (s +:+ String x "") = 0%Z.
Proof.
  intros Hx. unfold Go.atoi. destruct s as [|c s].
  - rewrite app_empty_l. repeat case_bool_decide; try done.
    cbn. by rewrite Hx.
  - rewrite app_String. repeat case_bool_decide.
    + rewrite (digitsValue_non_digit 0 s x "" Hx). by destruct (s +:+ _).
    + rewrite (digitsValue_non_digit 0 s x "" Hx). by destruct (s +:+ _).
    + by rewrite <- app_String, (digitsValue_non_digit 0 (String c s) x "" Hx).
Qed.

(** Every size field in human-readable form has the key 0. *)
Lemma sizeKey_suffixed (l : Listing) (v suffix : string) :
  size l = v +:+ suffix → suffix ∈ sizeSuffixes → sizeKey l = 0%Z.
Proof.
  intros Hsize Hin. unfold sizeKey. rewrite Hsize.
  unfold sizeSuffixes in Hin.
  repeat (apply elem_of_cons in Hin as [->|Hin]; [by apply atoi_non_number|]).
  by apply elem_of_nil in Hin.
Qed.

Lemma descendingBy_constant (key : Listing → Z) (listings : list Listing) :
  (∀ l, l ∈ listings → key l = 0%Z) → descendingBy key listings.
Proof.
  unfold descendingBy. induction listings as [|x rest IH]; intros H.
  - constructor.
  - constructor.
    + apply IH. intros l Hl. apply H. by right.
    + destruct rest as [|y rest]; constructor.
      rewrite (H x), (H y); [done | by right; left | by left].
Qed.

(** Sorting by size, as the code has it.  With the sortSize option (and
    sortTime off) [sortListings] returns, for every fuel from some bound on,
    the listings in descending order of the value [strconv.Atoi] gives for
    the whole size field: the number for a plain decimal field, and 0 for a
    field on which [strconv.Atoi] fails, such as [1.5K] (the order is
    reversed when sortReverse is set). *)
Theorem size_ordering (o : Options) (listings : list Listing)
    (Hsize : sortSize o = true) (Htime : sortTime o = false) :
  Go.atoi "1.5K" = 0%Z ∧ Go.atoi "1536" = 1536%Z
  ∧ ∃ sorted,
      listings ≡ₚ sorted
      ∧ descendingBy (λ l, Go.atoi (size l)) sorted
      ∧ ∃ fuel0, ∀ fuel, fuel0 ≤ fuel →
          sortListings fuel o listings
          = Returned (if sortReverse o then reverse sorted else sorted).
Proof.
  split; [reflexivity|]. split; [reflexivity|].
  destruct (sortLoop_keyed sizeKey compareSize compareSize_keyed
              (inversions sizeKey listings) listings (le_n _))
    as (sorted & Hfuel & Hperm & Hsorted).
  exists sorted. split; [done|]. split; [done|].
  exists (S (inversions sizeKey listings)). intros fuel Hf.
  unfold sortListings, comparisonFunction. rewrite Htime, Hsize.
  rewrite Hfuel by lia.
  destruct (sortReverse o); [|done]. by rewrite reverseStep_reverse.
Qed.

Lemma size_ordering_witness :
  ∃ sorted,
    [fileSized "a" "10"; fileSized "b" "300"; fileSized "c" "20"] ≡ₚ sorted
    ∧ descendingBy (λ l, Go.atoi (size l)) sorted.
Proof.
  destruct (size_ordering
              (mkOptions false false false false false true
                         false false true false false)
              [fileSized "a" "10"; fileSized "b" "300"; fileSized "c" "20"]
              eq_refl eq_refl) as (_ & _ & sorted & Hperm & Hsorted & _).
  by exists sorted.
Defined.

Example size_sort_plain :
  names <$> (match sortListings 3
                     (mkOptions false false false false false true
                                false false true false false)
                     [fileSized "a" "10"; fileSized "b" "300"; fileSized "c" "20"]
             with Returned r => Some r | _ => None end)
  = Some ["b"; "c"; "a"].
Proof. reflexivity. Qed.

(** C8.  The size sort does not order human-readable sizes by the integer
    portion of the displayed size: with the human and sortSize options the
    slice of [1.5K] before [2.5K] is returned as it is, although the integer
    portions are 1 and 2, so that the result is not in descending order of
    them.  [strconv.Atoi] fails on such a field, [compareSize] drops the
    error, and both sizes compare as 0. *)
Lemma size_sort_ignores_displayed_magnitude :
  let o := mkOptions false false true false false true
                     false false true false false in
  let listings := [fileSized "a" "1.5K"; fileSized "b" "2.5K"] in
  integerPortion "1.5K" = 1%Z ∧ integerPortion "2.5K" = 2%Z
  ∧ sortListings 1 o listings = Returned listings
  ∧ ¬ descendingBy (λ l, integerPortion (size l)) listings.
Proof.
  cbn zeta. split; [reflexivity|]. split; [reflexivity|]. split; [reflexivity|].
  intros H. apply Sorted_inv in H as [_ H]. apply HdRel_inv in H.
  by vm_compute in H.
Qed.

(** ** Sorting by name *)

Lemma toLower_length (s : string) : String.length (Go.toLower s) = String.length s.
Proof. induction s as [|c s IH]; [done|]. cbn. by rewrite IH. Qed.

Lemma get_app_middle (pre : string) (x : ascii) (r : string) :
  String.get (String.length pre) (pre +:+ String x r) = Some x.
Proof.
  induction pre as [|c pre IH]; [done|]. rewrite app_String. cbn. apply IH.
Qed.

(** The loop of [compareName], started behind a common offset, is the
    comparison of the specification on what is left of the two strings. *)
Lemma compareNameFrom_lex (a b : Listing) (sa sb pa pb : string) :
  String.length pa = String.length pb →
  (Go.len (name a) <? Go.len (name b)) = (String.length sa <? String.length sb) →
  (Go.len (name b) <? Go.len (name a)) = (String.length sb <? String.length sa) →
  compareNameFrom (String.length sa `min` String.length sb) (String.length pa)
                  a b (pa +:+ sa) (pb +:+ sb)
  = Some (lexCompare sa sb).
Proof.
  revert sb pa pb. induction sa as [|x ra IH]; intros sb pa pb Hp Hab Hba.
  - cbn [String.length Nat.min compareNameFrom]. rewrite Hab, Hba.
    by destruct sb.
  - destruct sb as [|y rb].
    + cbn [String.length Nat.min compareNameFrom]. rewrite Hab, Hba.
      rewrite ?Nat.min_0_r. cbn. done.
    + cbn [String.length Nat.min compareNameFrom lexCompare].
      unfold Go.index. rewrite get_app_middle, Hp, get_app_middle.
      cbn [mbind option_bind].
      destruct (nat_of_ascii x <? nat_of_ascii y); [done|].
      destruct (nat_of_ascii y <? nat_of_ascii x); [done|].
      replace (S (String.length pb)) with (String.length (pa +:+ String x ""))
        by (rewrite string_length_app; cbn; lia).
      replace (pa +:+ String x ra) with ((pa +:+ String x "") +:+ ra)
        by (by rewrite app_assoc_string).
      replace (pb +:+ String y rb) with ((pb +:+ String y "") +:+ rb)
        by (by rewrite app_assoc_string).
      apply IH.
      * rewrite !string_length_app. cbn. lia.
      * rewrite Hab. cbn [String.length]. done.
      * rewrite Hba. cbn [String.length]. done.
Qed.

(** [compareName] never panics, and it is the case-insensitive byte-wise
    comparison of the specification. *)
Lemma compareName_spec (a b : Listing) :
  compareName a b = Some (specCompareName (name a) (name b)).
Proof.
  unfold compareName, specCompareName.
  pose proof (compareNameFrom_lex a b (Go.toLower (name a)) (Go.toLower (name b))
                "" "" eq_refl) as H.
  rewrite !toLower_length, !app_empty_l in H. cbn [String.length] in H.
  unfold Go.len in *.
  replace (if String.length (name a) <? String.length (name b)
           then String.length (name a) else String.length (name b))
    with (String.length (name a) `min` String.length (name b)).
  - by apply H.
  - destruct (String.length (name a) <? String.length (name b)) eqn:E.
    + apply Nat.ltb_lt in E. lia.
    + apply Nat.ltb_ge in E. lia.
Qed.

Lemma lexCompare_refl (s : string) : lexCompare s s = 0%Z.
Proof.
  induction s as [|c s IH]; [done|]. cbn [lexCompare]. by rewrite Nat.ltb_irrefl.
Qed.

(** The first differing byte decides. *)
Lemma lexCompare_first_difference (p ra rb : string) (x y : ascii) :
  nat_of_ascii x < nat_of_ascii y →
  lexCompare (p +:+ String x ra) (p +:+ String y rb) = (-1)%Z
  ∧ lexCompare (p +:+ String y rb) (p +:+ String x ra) = 1%Z.
Proof.
  intros Hxy. induction p as [|c p IH].
  - rewrite !app_empty_l. cbn [lexCompare].
    assert ((nat_of_ascii x <? nat_of_ascii y) = true) as -> by by apply Nat.ltb_lt.
    assert ((nat_of_ascii y <? nat_of_ascii x) = false) as -> by (apply Nat.ltb_ge; lia).
    done.
  - rewrite !app_String. cbn [lexCompare]. by rewrite Nat.ltb_irrefl.
Qed.

(** A strict prefix sorts before its extension. *)
Lemma lexCompare_prefix (p ext : string) :
  ext ≠ "" →
  lexCompare p (p +:+ ext) = (-1)%Z ∧ lexCompare (p +:+ ext) p = 1%Z.
Proof.
  intros Hext. induction p as [|c p IH].
  - rewrite app_empty_l. by destruct ext.
  - rewrite app_String. cbn [lexCompare]. by rewrite Nat.ltb_irrefl.
Qed.

Example compareName_A_a :
  compareName (fileNamed "A") (fileNamed "a") = Some 0%Z.
Proof. reflexivity. Qed.

Example compareName_b_A :
  compareName (fileNamed "b") (fileNamed "A") = Some 1%Z.
Proof. reflexivity. Qed.

Example compareName_prefix :
  compareName (fileNamed "Make") (fileNamed "makefile") = Some (-1)%Z.
Proof. reflexivity. Qed.

(** Two slices that a pass turns into each other, exchanging each time:
    the sort never returns from either. *)
Lemma sortLoop_two_cycle (cmp : Listing → Listing → option Z)
    (l1 l2 : list Listing) :
  bubblePass cmp (length l1 - 1) 0 l1 true = Some (l2, false) →
  bubblePass cmp (length l2 - 1) 0 l2 true = Some (l1, false) →
  ∀ fuel, sortLoop cmp fuel l1 = OutOfFuel ∧ sortLoop cmp fuel l2 = OutOfFuel.
Proof.
  intros H1 H2 fuel. induction fuel as [|fuel [IH1 IH2]]; [done|].
  cbn [sortLoop]. by rewrite H1, H2.
Qed.

(** C5 fails on the code: with the default (name) sort, the two listings
    [A] and [a] compare as equal, the loop exchanges a pair whenever the
    comparison is above -1, so each pass exchanges the two again and no
    amount of fuel lets [sortListings] return. *)
Theorem sort_never_returns_on_equal_names :
  compareName (fileNamed "A") (fileNamed "a") = Some 0%Z
  ∧ ∀ fuel,
      sortListings fuel defaultOptions [fileNamed "A"; fileNamed "a"]
      = OutOfFuel.
Proof.
  split; [reflexivity|]. intros fuel.
  unfold sortListings, comparisonFunction. cbn [sortTime sortSize defaultOptions].
  by rewrite (proj1 (sortLoop_two_cycle compareName
                       [fileNamed "A"; fileNamed "a"]
                       [fileNamed "a"; fileNamed "A"] eq_refl eq_refl fuel)).
Qed.

(** C6 fails on the code at the specification's own example: the first
    pass over [b], [A], [a] gives [A], [a], [b], and from there every pass
    exchanges [A] and [a], so the sort of the three names never returns. *)
Theorem sort_b_A_a_never_returns :
  bubblePass compareName 2 0 [fileNamed "b"; fileNamed "A"; fileNamed "a"] true
  = Some ([fileNamed "A"; fileNamed "a"; fileNamed "b"], false)
  ∧ ∀ fuel,
      sortListings fuel defaultOptions
                   [fileNamed "b"; fileNamed "A"; fileNamed "a"]
      = OutOfFuel.
Proof.
  split; [reflexivity|]. intros fuel.
  unfold sortListings, comparisonFunction. cbn [sortTime sortSize defaultOptions].
  destruct fuel as [|fuel]; [done|].
  assert (bubblePass compareName
            (length [fileNamed "b"; fileNamed "A"; fileNamed "a"] - 1) 0
            [fileNamed "b"; fileNamed "A"; fileNamed "a"] true
          = Some ([fileNamed "A"; fileNamed "a"; fileNamed "b"], false))
    as Hpass by reflexivity.
  cbn [sortLoop]. rewrite Hpass.
  by rewrite (proj1 (sortLoop_two_cycle compareName
                       [fileNamed "A"; fileNamed "a"; fileNamed "b"]
                       [fileNamed "a"; fileNamed "A"; fileNamed "b"]
                       eq_refl eq_refl fuel)).
Qed.

(** ** The grid layout *)

Lemma ceilDiv_spec (n R : nat) : 1 ≤ R → ceilDiv n R = specNumCols n R.
Proof.
  intros HR. unfold ceilDiv, specNumCols.
  pose proof (Nat.div_mod_eq n R) as Hn.
  pose proof (Nat.mod_upper_bound n R ltac:(lia)) as Hr.
  destruct (n mod R =? 0) eqn:E.
  - apply Nat.eqb_eq in E.
    replace (n + R - 1) with ((R - 1) + (n / R) * R) by lia.
    rewrite Nat.div_add by lia. rewrite Nat.div_small by lia. lia.
  - apply Nat.eqb_neq in E.
    replace (n + R - 1) with ((n mod R - 1) + (n / R + 1) * R) by lia.
    rewrite Nat.div_add by lia. rewrite Nat.div_small by lia. lia.
Qed.

(** Every position falls into one of the [ceil(n / R)] columns. *)
Lemma position_column (n R p : nat) : 1 ≤ R → p < n → p / R < specNumCols n R.
Proof.
  intros HR Hp. unfold specNumCols.
  pose proof (Nat.div_mod_eq n R) as Hn.
  pose proof (Nat.mod_upper_bound n R ltac:(lia)) as Hr.
  apply Nat.Div0.div_lt_upper_bound.
  destruct (n mod R =? 0) eqn:E.
  - apply Nat.eqb_eq in E. lia.
  - lia.
Qed.

Lemma tabulate_lookup (f : nat → nat) (m c : nat) :
  c < m → (f <$> seq 0 m) !! c = Some (f c).
Proof. intros Hc. by rewrite list_lookup_fmap, lookup_seq_lt. Qed.

Lemma tabulate_ext (f g : nat → nat) (m : nat) :
  (∀ c, c < m → f c = g c) → f <$> seq 0 m = g <$> seq 0 m.
Proof.
  intros H. apply list_eq. intros c.
  destruct (decide (c < m)) as [Hc|Hc].
  - rewrite !tabulate_lookup by done. f_equal. by apply H.
  - rewrite !list_lookup_fmap, !lookup_seq_ge by lia. done.
Qed.

Lemma tabulate_insert (f : nat → nat) (m col v : nat) :
  <[col := v]> (f <$> seq 0 m)
  = (λ c, if decide (c = col) then v else f c) <$> seq 0 m.
Proof.
  apply list_eq. intros c.
  destruct (decide (c < m)) as [Hc|Hc].
  - rewrite tabulate_lookup by done.
    destruct (decide (c = col)) as [->|Hne].
    + rewrite list_lookup_insert_eq; [done|]. by rewrite length_fmap, length_seq.
    + rewrite list_lookup_insert_ne by done. by apply tabulate_lookup.
  - rewrite list_lookup_fmap, lookup_seq_ge by lia.
    rewrite lookup_ge_None_2; [done|].
    rewrite length_insert, length_fmap, length_seq. lia.
Qed.

Lemma tabulate_zero (m : nat) : replicate m 0 = (λ _, 0) <$> seq 0 m.
Proof.
  apply list_eq. intros c.
  destruct (decide (c < m)) as [Hc|Hc].
  - by rewrite lookup_replicate_2, tabulate_lookup.
  - rewrite list_lookup_fmap, lookup_seq_ge by lia.
    by apply lookup_replicate_None; lia.
Qed.

Lemma membersBelow_S (listings : list Listing) (R c k : nat) (l : Listing) :
  listings !! k = Some l →
  membersBelow listings R c (S k)
  = membersBelow listings R c k ++ (if decide (k / R = c) then [l] else []).
Proof.
  intros Hl. unfold membersBelow. rewrite seq_S, omap_app. cbn.
  rewrite Hl. by case_decide.
Qed.

Lemma max_list_with_snoc {A} (f : A → nat) (l : list A) (x : A) :
  max_list_with f (l ++ [x]) = max_list_with f l `max` f x.
Proof. induction l as [|y l IH]; cbn; [lia|]. rewrite IH. lia. Qed.

(** The invariant of the filling loop: after the first [k] positions the
    two slices hold, for every column, the largest name length and the
    number of entries among those positions. *)
Lemma fillColumns_prefix (listings : list Listing) (R k : nat) :
  1 ≤ R → k ≤ length listings →
  foldl (fillStep listings R)
        (Some (replicate (specNumCols (length listings) R) 0,
               replicate (specNumCols (length listings) R) 0))
        (seq 0 k)
  = Some ((λ c, max_list_with (λ l, Go.len (name l))
                              (membersBelow listings R c k))
            <$> seq 0 (specNumCols (length listings) R),
          (λ c, length (membersBelow listings R c k))
            <$> seq 0 (specNumCols (length listings) R)).
Proof.
  intros HR. set (m := specNumCols (length listings) R).
  induction k as [|k IH]; intros Hk.
  - cbn [seq foldl]. by rewrite !tabulate_zero.
  - rewrite seq_S, foldl_app, IH by lia. cbn [foldl fillStep plus].
    destruct (lookup_lt_is_Some_2 listings k ltac:(lia)) as [l Hl].
    unfold fillStep. cbn [mbind option_bind]. rewrite Hl. cbn [mbind option_bind].
    assert (Hcol : k / R < m) by (apply position_column; lia).
    rewrite !tabulate_lookup by done. cbn [mbind option_bind].
    f_equal. f_equal.
    + destruct (_ <? _) eqn:E.
      * rewrite tabulate_insert. apply tabulate_ext. intros c Hc.
        rewrite (membersBelow_S _ _ _ _ _ Hl).
        apply Nat.ltb_lt in E.
        case_decide as Hcc.
        -- subst c. rewrite decide_True by done.
           rewrite max_list_with_snoc. lia.
        -- rewrite decide_False by done. by rewrite app_nil_r.
      * apply tabulate_ext. intros c Hc.
        rewrite (membersBelow_S _ _ _ _ _ Hl).
        apply Nat.ltb_ge in E.
        case_decide as Hcc.
        -- subst c. rewrite max_list_with_snoc. lia.
        -- by rewrite app_nil_r.
    + rewrite tabulate_insert. apply tabulate_ext. intros c Hc.
      rewrite (membersBelow_S _ _ _ _ _ Hl).
      case_decide as Hcc.
      * subst c. rewrite decide_True by done. rewrite length_app. cbn. lia.
      * rewrite decide_False by done. by rewrite app_nil_r.
Qed.

(** The filling loop computes the column widths and the entry counts of
    the specification. *)
Lemma fillColumns_spec (listings : list Listing) (R : nat) :
  1 ≤ R →
  fillColumns listings R (ceilDiv (length listings) R)
  = Some (specColWidths listings R,
          specColCount listings R <$> seq 0 (specNumCols (length listings) R)).
Proof.
  intros HR. unfold fillColumns. rewrite ceilDiv_spec by done.
  by rewrite fillColumns_prefix.
Qed.

Lemma sumWidths_take (colWidths : list nat) (k : nat) :
  k ≤ length colWidths →
  sumWidths colWidths k = sum_list (take k colWidths).
Proof.
  unfold sumWidths. induction k as [|k IH]; intros Hk; [done|].
  rewrite seq_S, foldl_app, IH by lia. cbn [foldl plus].
  destruct (lookup_lt_is_Some_2 colWidths k ltac:(lia)) as [w Hw].
  rewrite (take_S_r _ _ _ Hw), sum_list_with_app, Hw. cbn. lia.
Qed.

Lemma specNumCols_pos (n R : nat) : 1 ≤ R → 1 ≤ n → 1 ≤ specNumCols n R.
Proof.
  intros HR Hn. pose proof (position_column n R 0 HR ltac:(lia)). lia.
Qed.

Lemma maxRowLength_spec (listings : list Listing) (R : nat) :
  maxRowLength (specColWidths listings R) (specNumCols (length listings) R)
  = specRowWidth listings R.
Proof.
  unfold maxRowLength, specRowWidth.
  rewrite sumWidths_take
    by (unfold specColWidths; by rewrite length_fmap, length_seq).
  rewrite take_ge; [done|].
  unfold specColWidths. by rewrite length_fmap, length_seq.
Qed.

(** One candidate row count: the loop body computes the column widths of
    the specification and takes the specification's decision. *)
Lemma tryRows_spec (listings : list Listing) (terminalWidth : Z) (R : nat) :
  listings ≠ [] → 1 ≤ R →
  tryRows listings terminalWidth R
  = Some (specColWidths listings R, specDecision listings terminalWidth R).
Proof.
  intros Hne HR.
  assert (Hn : 1 ≤ length listings) by (destruct listings; [done | cbn; lia]).
  pose proof (specNumCols_pos (length listings) R HR Hn) as Hm.
  unfold tryRows. rewrite fillColumns_spec by done. cbn [mbind option_bind].
  unfold decide_rows, specDecision.
  rewrite ceilDiv_spec, maxRowLength_spec by done.
  rewrite length_fmap, length_seq.
  rewrite !tabulate_lookup by lia. cbn [mbind option_bind].
  set (first := specColCount listings R 0).
  set (last := specColCount listings R (specNumCols (length listings) R - 1)).
  destruct (terminalWidth <? specRowWidth listings R)%Z; cbn [andb].
  - destruct (length listings <=? R) eqn:E1;
      destruct (R <? length listings) eqn:E2; try done.
    + apply Nat.leb_le in E1. apply Nat.ltb_lt in E2. lia.
    + apply Nat.leb_gt in E1. apply Nat.ltb_ge in E2. lia.
  - assert ((last <=? first / 2) = (2 * last <=? first)) as ->.
    { pose proof (Nat.div_mod_eq first 2).
      pose proof (Nat.mod_upper_bound first 2 ltac:(lia)).
      destruct (2 * last <=? first) eqn:E.
      - apply Nat.leb_le in E. apply Nat.leb_le. lia.
      - apply Nat.leb_gt in E. apply Nat.leb_gt. lia. }
    assert ((5 <=? Z.of_nat first - Z.of_nat last)%Z = (last + 5 <=? first)) as ->.
    { destruct (last + 5 <=? first) eqn:E.
      - apply Nat.leb_le in E. apply Z.leb_le. lia.
      - apply Nat.leb_gt in E. apply Z.leb_gt. lia. }
    by destruct (_ && _).
Qed.

(** With as many rows as entries there is one column, and the candidate is
    accepted whatever the width. *)
Lemma specDecision_all_rows (listings : list Listing) (terminalWidth : Z) (R : nat) :
  listings ≠ [] → length listings ≤ R →
  specDecision listings terminalWidth R = Accept.
Proof.
  intros Hne HR.
  assert (Hn : 1 ≤ length listings) by (destruct listings; [done | cbn; lia]).
  unfold specDecision.
  assert (specNumCols (length listings) R = 1) as ->.
  { unfold specNumCols.
    destruct (decide (length listings = R)) as [<-|Hlt].
    - rewrite Nat.div_same, Nat.Div0.mod_same by lia. done.
    - rewrite Nat.div_small, Nat.mod_small by lia.
      destruct (length listings =? 0) eqn:E; [apply Nat.eqb_eq in E; lia | done]. }
  cbn [Nat.sub].
  destruct (terminalWidth <? _)%Z.
  - destruct (R <? length listings) eqn:E; [apply Nat.ltb_lt in E; lia | done].
  - destruct (2 * _ <=? _) eqn:E1; [|done].
    destruct (_ + 5 <=? _) eqn:E2; [|done].
    apply Nat.leb_le in E2. lia.
Qed.

(** The search loop from [R0]: it returns the first accepted candidate, and
    [d + 1] turns are enough when [R0 + d] reaches the number of entries. *)
Lemma gridLoop_spec (listings : list Listing) (terminalWidth : Z) (d R0 : nat) :
  listings ≠ [] → 1 ≤ R0 → length listings ≤ R0 + d →
  ∃ R,
    R0 ≤ R ≤ R0 + d
    ∧ specDecision listings terminalWidth R = Accept
    ∧ (∀ R', R0 ≤ R' < R → specDecision listings terminalWidth R' = Increment)
    ∧ ∀ fuel, d < fuel →
        gridLoop fuel listings terminalWidth R0
        = Returned (R, specColWidths listings R).
Proof.
  intros Hne. revert R0. induction d as [|d IH]; intros R0 HR0 Hd.
  - exists R0. split; [lia|]. split; [apply specDecision_all_rows; [done | lia]|].
    split; [intros R' ?; lia|].
    intros [|fuel] ?; [lia|]. cbn [gridLoop]. rewrite tryRows_spec by done.
    rewrite specDecision_all_rows; [done | done | lia].
  - destruct (specDecision listings terminalWidth R0) eqn:Hdec.
    + exists R0. split; [lia|]. split; [done|]. split; [intros R' ?; lia|].
      intros [|fuel] ?; [lia|]. cbn [gridLoop]. rewrite tryRows_spec by done.
      by rewrite Hdec.
    + destruct (IH (R0 + 1)) as (R & HR & Hacc & Hinc & Hfuel); [lia | lia |].
      exists R. split; [lia|]. split; [done|]. split.
      * intros R' HR'. destruct (decide (R' = R0)) as [->|]; [done|].
        apply Hinc. lia.
      * intros [|fuel] ?; [lia|]. cbn [gridLoop]. rewrite tryRows_spec by done.
        rewrite Hdec. apply Hfuel. lia.
Qed.

Example grid_five_names_width_10 :
  gridLayout 5 [fileNamed "a"; fileNamed "bb"; fileNamed "ccc"; fileNamed "d";
                fileNamed "ee"] 10
  = Returned (3, [3; 2]).
Proof. reflexivity. Qed.

Example grid_five_names_width_3 :
  gridLayout 5 [fileNamed "a"; fileNamed "bb"; fileNamed "ccc"; fileNamed "d";
                fileNamed "ee"] 3
  = Returned (5, [3]).
Proof. reflexivity. Qed.

Example grid_overflow_even_in_one_column :
  gridLayout 1 [fileNamed "a-long-name"] 4 = Returned (1, [11]).
Proof. reflexivity. Qed.

(** Six rows would fit 31 one-letter names into width 16, but leave one
    name in the sixth column next to six in the first: the loop goes on to
    seven rows. *)
Example grid_short_last_column :
  specDecision (replicate 31 (fileNamed "x")) 16 5 = Increment
  ∧ specRowWidth (replicate 31 (fileNamed "x")) 6 = 16%Z
  ∧ specColCount (replicate 31 (fileNamed "x")) 6 0 = 6
  ∧ specColCount (replicate 31 (fileNamed "x")) 6 5 = 1
  ∧ specDecision (replicate 31 (fileNamed "x")) 16 6 = Increment
  ∧ gridLayout 31 (replicate 31 (fileNamed "x")) 16
    = Returned (7, [1; 1; 1; 1; 1]).
Proof. repeat split; by vm_compute. Qed.

(** C1.  For every non-empty slice of listings and every terminal width:
    each candidate row count [R >= 1] is treated as the specification says
    (the columns are [ceil(n / R)], position [p] goes to column [p / R], a
    column is as wide as its longest name, the row width adds two per gap;
    too wide means one more row while [R < n] and acceptance otherwise;
    fitting means one more row exactly when the last column has at most
    half the entries of the first and at least five fewer), and the loop,
    starting at [R = 1], returns the first candidate that is accepted, with
    its column widths.  It returns within [n] turns. *)
Theorem grid_row_selection (listings : list Listing) (terminalWidth : Z)
    (Hne : listings ≠ []) :
  (∀ R, 1 ≤ R →
     tryRows listings terminalWidth R
     = Some (specColWidths listings R, specDecision listings terminalWidth R))
  ∧ ∃ R,
      1 ≤ R ≤ length listings
      ∧ specDecision listings terminalWidth R = Accept
      ∧ (∀ R', 1 ≤ R' < R → specDecision listings terminalWidth R' = Increment)
      ∧ ∀ fuel, length listings ≤ fuel →
          gridLayout fuel listings terminalWidth
          = Returned (R, specColWidths listings R).
Proof.
  split; [intros R HR; by apply tryRows_spec|].
  assert (Hn : 1 ≤ length listings) by (destruct listings; [done | cbn; lia]).
  destruct (gridLoop_spec listings terminalWidth (length listings - 1) 1 Hne)
    as (R & HR & Hacc & Hinc & Hfuel); [lia | lia |].
  exists R. split; [lia|]. split; [done|]. split; [done|].
  intros fuel Hf. apply Hfuel. lia.
Qed.

Lemma grid_row_selection_witness :
  tryRows [fileNamed "a"; fileNamed "bb"; fileNamed "ccc"; fileNamed "d";
           fileNamed "ee"] 10 2
  = Some (specColWidths [fileNamed "a"; fileNamed "bb"; fileNamed "ccc";
                         fileNamed "d"; fileNamed "ee"] 2,
          specDecision [fileNamed "a"; fileNamed "bb"; fileNamed "ccc";
                        fileNamed "d"; fileNamed "ee"] 10 2).
Proof.
  refine (proj1 (grid_row_selection
                   [fileNamed "a"; fileNamed "bb"; fileNamed "ccc";
                    fileNamed "d"; fileNamed "ee"] 10 _) 2 _).
  - discriminate.
  - lia.
Defined.

(** ** Sorting by name: when the sort returns *)

Lemma lexCompare_range (sa sb : string) :
  lexCompare sa sb = (-1)%Z ∨ lexCompare sa sb = 0%Z ∨ lexCompare sa sb = 1%Z.
Proof.
  revert sb. induction sa as [|x ra IH]; intros [|y rb]; cbn [lexCompare]; auto.
  destruct (_ <? _); [auto|]. destruct (_ <? _); auto.
Qed.

Lemma nat_of_ascii_inj (x y : ascii) : nat_of_ascii x = nat_of_ascii y → x = y.
Proof.
  intros H. rewrite <- (ascii_nat_embedding x), <- (ascii_nat_embedding y).
  by rewrite H.
Qed.

(** Equal under the comparison means equal strings. *)
Lemma lexCompare_eq (sa sb : string) : lexCompare sa sb = 0%Z ↔ sa = sb.
Proof.
  split; [|intros ->; apply lexCompare_refl].
  revert sb. induction sa as [|x ra IH]; intros [|y rb]; cbn [lexCompare];
    try done.
  destruct (nat_of_ascii x <? nat_of_ascii y) eqn:E1; [done|].
  destruct (nat_of_ascii y <? nat_of_ascii x) eqn:E2; [done|].
  apply Nat.ltb_ge in E1, E2. intros H.
  f_equal; [apply nat_of_ascii_inj; lia | by apply IH].
Qed.

Lemma lexCompare_flip (sa sb : string) :
  lexCompare sb sa = (- lexCompare sa sb)%Z.
Proof.
  revert sb. induction sa as [|x ra IH]; intros [|y rb]; cbn [lexCompare];
    try done.
  destruct (nat_of_ascii x <? nat_of_ascii y) eqn:E1;
    destruct (nat_of_ascii y <? nat_of_ascii x) eqn:E2; try done.
  apply Nat.ltb_lt in E1, E2. lia.
Qed.

Lemma lexCompare_trans (sa sb sc : string) :
  lexCompare sa sb = (-1)%Z → lexCompare sb sc = (-1)%Z →
  lexCompare sa sc = (-1)%Z.
Proof.
  revert sb sc. induction sa as [|x ra IH]; intros [|y rb] [|z rc];
    cbn [lexCompare]; try done.
  destruct (nat_of_ascii x <? nat_of_ascii y) eqn:E1.
  - apply Nat.ltb_lt in E1. intros _.
    destruct (nat_of_ascii y <? nat_of_ascii z) eqn:E2.
    + apply Nat.ltb_lt in E2. intros _.
      assert ((nat_of_ascii x <? nat_of_ascii z) = true) as ->
        by (apply Nat.ltb_lt; lia). done.
    + destruct (nat_of_ascii z <? nat_of_ascii y) eqn:E3; [done|].
      apply Nat.ltb_ge in E2, E3. intros _.
      assert ((nat_of_ascii x <? nat_of_ascii z) = true) as ->
        by (apply Nat.ltb_lt; lia). done.
  - destruct (nat_of_ascii y <? nat_of_ascii x) eqn:E1'; [done|].
    apply Nat.ltb_ge in E1, E1'. intros Hab.
    destruct (nat_of_ascii y <? nat_of_ascii z) eqn:E2.
    + apply Nat.ltb_lt in E2. intros _.
      assert ((nat_of_ascii x <? nat_of_ascii z) = true) as ->
        by (apply Nat.ltb_lt; lia). done.
    + destruct (nat_of_ascii z <? nat_of_ascii y) eqn:E3; [done|].
      apply Nat.ltb_ge in E2, E3. intros Hbc.
      assert ((nat_of_ascii x <? nat_of_ascii z) = false) as ->
        by (apply Nat.ltb_ge; lia).
      assert ((nat_of_ascii z <? nat_of_ascii x) = false) as ->
        by (apply Nat.ltb_ge; lia).
      by apply (IH rb).
Qed.

(** *** What a pass and the sort do for any comparison that never panics *)

Section Total.
Variable cmp : Listing → Listing → option Z.
Hypothesis Htotal : ∀ a b, is_Some (cmp a b).

(** A pass that has exchanged ends with [done] false. *)
Lemma bubble_false (x : Listing) (rest r : list Listing) (d : bool) :
  bubble cmp x rest false = Some (r, d) → d = false.
Proof.
  revert x r. induction rest as [|z rest IH]; intros x r Hb.
  - cbn in Hb. by injection Hb.
  - cbn [bubble] in Hb. destruct (cmp x z) as [c|]; [|done].
    cbn [mbind option_bind] in Hb. destruct (-1 <? c)%Z.
    + destruct (bubble cmp x rest false) as [[r' d']|] eqn:Hr; [|done].
      cbn in Hb. injection Hb as _ <-. by eapply IH.
    + destruct (bubble cmp z rest false) as [[r' d']|] eqn:Hr; [|done].
      cbn in Hb. injection Hb as _ <-. by eapply IH.
Qed.

Lemma bubble_total (x : Listing) (rest : list Listing) (done : bool) :
  ∃ r d,
    bubble cmp x rest done = Some (r, d)
    ∧ x :: rest ≡ₚ r
    ∧ (d = true → r = x :: rest ∧ settled cmp (x :: rest)).
Proof using Htotal.
  revert x done. induction rest as [|y rest IH]; intros x done.
  - exists [x], done. split; [done|]. split; [done|].
    intros _. split; [done|]. by repeat constructor.
  - cbn [bubble]. destruct (Htotal x y) as [c Hc]. rewrite Hc.
    cbn [mbind option_bind]. destruct (-1 <? c)%Z eqn:E.
    + destruct (IH x false) as (r & d & Hb & Hperm & Hd).
      rewrite Hb. cbn [mbind option_bind].
      exists (y :: r), d. split; [done|]. split.
      * rewrite <- Hperm. apply Permutation_swap.
      * intros ->. by apply bubble_false in Hb.
    + destruct (IH y done) as (r & d & Hb & Hperm & Hd).
      rewrite Hb. cbn [mbind option_bind].
      exists (x :: r), d. split; [done|]. split; [by rewrite Hperm|].
      intros Hdt. destruct (Hd Hdt) as [-> Hs]. split; [done|].
      constructor; [done|]. constructor. exists c. split; [done|].
      apply Z.ltb_ge in E. lia.
Qed.

(** Whatever the sort returns is a permutation of the slice in which no
    pair of neighbours would be exchanged; and the sort never panics. *)
Lemma sortLoop_total (fuel : nat) (listings : list Listing) :
  (∃ r, sortLoop cmp fuel listings = Returned r ∧ listings ≡ₚ r ∧ settled cmp r)
  ∨ sortLoop cmp fuel listings = OutOfFuel.
Proof using Htotal.
  revert listings. induction fuel as [|fuel IH]; intros listings; [by right|].
  cbn [sortLoop]. rewrite bubblePass_top.
  destruct listings as [|x rest].
  { left. exists []. split; [done|]. split; [done|]. constructor. }
  destruct (bubble_total x rest true) as (r & d & -> & Hperm & Hd).
  destruct d.
  - destruct (Hd eq_refl) as [-> Hs]. left. by exists (x :: rest).
  - destruct (IH r) as [(r' & Hr' & Hperm' & Hs)|Hout]; [|by right].
    left. exists r'. split; [done|]. split; [by rewrite Hperm|done].
Qed.

End Total.

(** *** The name sort *)

Lemma compareName_total (a b : Listing) : is_Some (compareName a b).
Proof. rewrite compareName_spec. by eexists. Qed.

Lemma specCompareName_lower (a b : Listing) :
  specCompareName (name a) (name b) = lexCompare (lowerName a) (lowerName b).
Proof. reflexivity. Qed.

Lemma Sorted_mono {A} (R1 R2 : A → A → Prop) (l : list A) :
  (∀ a b, R1 a b → R2 a b) → Sorted R1 l → Sorted R2 l.
Proof.
  intros H Hs. induction Hs as [|x l _ IH Hhd]; constructor; [done|].
  destruct Hhd; constructor. by apply H.
Qed.

(** Where the sort has stopped, the lowered names strictly ascend; in
    particular no two of them are equal. *)
Lemma settled_ascending (listings : list Listing) :
  settled compareName listings → ascendingByName listings.
Proof.
  unfold settled, ascendingByName. apply Sorted_mono.
  intros a b (c & Hc & Hle). rewrite compareName_spec in Hc.
  injection Hc as <-.
  destruct (lexCompare_range (Go.toLower (name a)) (Go.toLower (name b)))
    as [H|[H|H]]; unfold specCompareName in *; lia.
Qed.

Lemma ascending_NoDup (listings : list Listing) :
  ascendingByName listings → NoDup (lowerName <$> listings).
Proof.
  intros Hs.
  assert (Htrans : Transitive
            (λ a b : Listing, specCompareName (name a) (name b) = (-1)%Z)).
  { intros a b c Hab Hbc. rewrite !specCompareName_lower in *.
    by eapply lexCompare_trans. }
  apply (Sorted_StronglySorted _) in Hs.
  induction Hs as [|x l _ IH Hall]; [constructor|].
  cbn. constructor; [|done].
  intros (y & Hxy & Hy)%list_elem_of_fmap.
  rewrite Forall_forall in Hall. specialize (Hall y Hy).
  rewrite specCompareName_lower, Hxy, lexCompare_refl in Hall. done.
Qed.

Lemma filter_length_le (P Q : Listing → Prop)
    `{!∀ z, Decision (P z)} `{!∀ z, Decision (Q z)} (l : list Listing) :
  (∀ z, z ∈ l → P z → Q z) → length (filter P l) ≤ length (filter Q l).
Proof.
  induction l as [|x l IH]; intros Himp; [done|].
  rewrite !filter_cons.
  assert (length (filter P l) ≤ length (filter Q l))
    by (apply IH; intros z Hz; apply Himp; by right).
  destruct (decide (P x)) as [HP|HP].
  - rewrite decide_True by (apply Himp; [by left | done]). cbn. lia.
  - destruct (decide (Q x)); cbn; lia.
Qed.

Lemma filter_length_lt (P Q : Listing → Prop)
    `{!∀ z, Decision (P z)} `{!∀ z, Decision (Q z)} (l : list Listing)
    (a : Listing) :
  (∀ z, z ∈ l → P z → Q z) → a ∈ l → Q a → ¬ P a →
  length (filter P l) < length (filter Q l).
Proof.
  induction l as [|x l IH]; intros Himp Ha HQ HP; [by apply elem_of_nil in Ha|].
  rewrite !filter_cons.
  assert (length (filter P l) ≤ length (filter Q l))
    by (apply filter_length_le; intros z Hz; apply Himp; by right).
  apply elem_of_cons in Ha as [<-|Ha].
  - rewrite decide_False, decide_True by done. cbn. lia.
  - assert (length (filter P l) < length (filter Q l))
      by (apply IH; [intros z Hz; apply Himp; by right | done..]).
    destruct (decide (P x)) as [HPx|HPx].
    + rewrite decide_True by (apply Himp; [by left | done]). cbn. lia.
    + destruct (decide (Q x)); cbn; lia.
Qed.

(** A name that comes strictly first has strictly more names after it. *)
Lemma nameRank_lt (universe : list Listing) (a b : Listing) :
  b ∈ universe →
  lexCompare (lowerName a) (lowerName b) = (-1)%Z →
  (nameRank universe b < nameRank universe a)%Z.
Proof.
  intros Hb Hab. unfold nameRank. apply inj_lt.
  apply (filter_length_lt _ _ universe b).
  - intros z _ Hbz. by eapply lexCompare_trans.
  - done.
  - done.
  - by rewrite lexCompare_refl.
Qed.

(** On two listings of the universe with different lowered names, the
    name comparison exchanges exactly when the rank comparison does. *)
Lemma compareName_rank (universe : list Listing) (a b : Listing) :
  a ∈ universe → b ∈ universe → lowerName a ≠ lowerName b →
  ∃ c c', compareName a b = Some c ∧ compareRank universe a b = Some c'
          ∧ (-1 <? c)%Z = (-1 <? c')%Z.
Proof.
  intros Ha Hb Hne. rewrite compareName_spec, specCompareName_lower.
  unfold compareRank. eexists _, _. split; [done|]. split; [done|].
  destruct (lexCompare_range (lowerName a) (lowerName b)) as [H|[H|H]].
  - rewrite H. pose proof (nameRank_lt universe a b Hb H).
    by rewrite (proj2 (Z.leb_le _ _)) by lia.
  - by apply lexCompare_eq in H.
  - rewrite H. assert (lexCompare (lowerName b) (lowerName a) = (-1)%Z) as H'
      by (rewrite lexCompare_flip, H; lia).
    pose proof (nameRank_lt universe b a Ha H').
    by rewrite (proj2 (Z.leb_gt _ _)) by lia.
Qed.

(** A pass of the name sort over listings with pairwise different lowered
    names is the pass of the rank sort. *)
Lemma bubble_rank (universe : list Listing) (x : Listing)
    (rest : list Listing) (done : bool) :
  NoDup (lowerName <$> (x :: rest)) →
  (∀ z, z ∈ x :: rest → z ∈ universe) →
  bubble compareName x rest done = bubble (compareRank universe) x rest done.
Proof.
  revert x done. induction rest as [|y rest IH]; intros x dn Hnd Hsub; [done|].
  cbn [bubble].
  assert (Hrest : ∀ w, w ∈ x :: y :: rest → w ∈ universe) by exact Hsub.
  destruct (compareName_rank universe x y) as (c & c' & -> & -> & Hcc).
  { apply Hsub. by left. }
  { apply Hsub. right. by left. }
  { cbn in Hnd. apply NoDup_cons in Hnd as [Hx _].
    intros Heq. apply Hx. rewrite Heq. by left. }
  cbn [mbind option_bind]. rewrite Hcc. destruct (-1 <? c')%Z.
  - rewrite (IH x false); [done| |].
    + cbn in *. apply NoDup_cons in Hnd as [Hx Hnd].
      apply NoDup_cons in Hnd as [_ Hnd]. apply NoDup_cons. split; [|done].
      intros H. apply Hx. by right.
    + intros z [->|Hz]%elem_of_cons; apply Hsub; [by left | by (do 2 right)].
  - rewrite (IH y dn); [done| |].
    + cbn in *. by apply NoDup_cons in Hnd as [_ Hnd].
    + intros z Hz. apply Hsub. by right.
Qed.

Lemma compareRank_keyed (universe : list Listing) :
  keyedComparison (nameRank universe) (compareRank universe).
Proof. by intros a b. Qed.

(** The name sort of listings with pairwise different lowered names is the
    rank sort. *)
Lemma sortLoop_rank (universe : list Listing) (fuel : nat)
    (listings : list Listing) :
  NoDup (lowerName <$> listings) → listings ≡ₚ universe →
  sortLoop compareName fuel listings
  = sortLoop (compareRank universe) fuel listings.
Proof.
  revert listings. induction fuel as [|fuel IH]; intros listings Hnd Hperm; [done|].
  cbn [sortLoop]. rewrite !bubblePass_top.
  destruct listings as [|x rest]; [done|].
  rewrite (bubble_rank universe) by (done || (intros z Hz; by rewrite <- Hperm)).
  destruct (bubble_keyed (nameRank universe) (compareRank universe)
              (compareRank_keyed universe) x rest true)
    as (r & d & -> & Hp & _).
  destruct d; [done|]. apply IH.
  - by rewrite <- Hp.
  - by rewrite <- Hp.
Qed.

(** Descending ranks are ascending names. *)
Lemma descending_rank_ascending (universe listings : list Listing) :
  NoDup (lowerName <$> listings) → (∀ z, z ∈ listings → z ∈ universe) →
  descendingBy (nameRank universe) listings → ascendingByName listings.
Proof.
  unfold descendingBy, ascendingByName.
  induction listings as [|x l IH]; intros Hnd Hsub Hs; [constructor|].
  apply Sorted_inv in Hs as [Hs Hhd]. cbn in Hnd.
  apply NoDup_cons in Hnd as [Hx Hnd].
  constructor.
  - apply IH; [done | intros z Hz; apply Hsub; by right | done].
  - destruct l as [|y l]; constructor. apply HdRel_inv in Hhd.
    rewrite specCompareName_lower.
    destruct (lexCompare_range (lowerName x) (lowerName y)) as [H|[H|H]].
    + done.
    + apply lexCompare_eq in H. exfalso. apply Hx. rewrite H. by left.
    + assert (lexCompare (lowerName y) (lowerName x) = (-1)%Z) as H'
        by (rewrite lexCompare_flip, H; lia).
      pose proof (nameRank_lt universe y x (Hsub x ltac:(by left)) H'). lia.
Qed.

(** The default sort returns exactly on the slices in which no two names
    are equal without case; it then returns them in ascending order of the
    names.  On any other slice no fuel is enough. *)
Lemma name_sort_returns (listings : list Listing) :
  NoDup (lowerName <$> listings) →
  ∃ sorted,
    listings ≡ₚ sorted ∧ ascendingByName sorted
    ∧ ∀ fuel, inversions (nameRank listings) listings < fuel →
        sortLoop compareName fuel listings = Returned sorted.
Proof.
  intros Hnd.
  destruct (sortLoop_keyed (nameRank listings) (compareRank listings)
              (compareRank_keyed listings)
              (inversions (nameRank listings) listings) listings (le_n _))
    as (sorted & Hfuel & Hperm & Hdesc).
  exists sorted. split; [done|]. split.
  - apply (descending_rank_ascending listings).
    + by rewrite <- Hperm.
    + intros z Hz. by rewrite Hperm.
    + done.
  - intros fuel Hf. rewrite (sortLoop_rank listings) by done. by apply Hfuel.
Qed.

Lemma name_sort_never_returns (listings : list Listing) (fuel : nat) :
  ¬ NoDup (lowerName <$> listings) →
  sortLoop compareName fuel listings = OutOfFuel.
Proof.
  intros Hdup.
  destruct (sortLoop_total compareName compareName_total fuel listings)
    as [(r & _ & Hperm & Hs)|H]; [|done].
  exfalso. apply Hdup. rewrite Hperm.
  by apply ascending_NoDup, settled_ascending.
Qed.

(** ** Further properties of the embedding *)

(** *** The name comparison *)

(** On names of ASCII bytes (where [strings.ToLower] lowers the bytes [A]
    to [Z] and keeps the length) [compareName] never panics; it answers 0
    exactly on names that are equal without case, -1 for a strict prefix
    against its extension, and by the first differing byte of the lowered
    names otherwise. *)
Theorem compareName_case_insensitive (a b : Listing) :
  asciiOnly (name a) = true → asciiOnly (name b) = true →
  (∃ c, compareName a b = Some c ∧ (c = -1 ∨ c = 0 ∨ c = 1)%Z)
  ∧ (compareName a b = Some 0%Z ↔ Go.toLower (name a) = Go.toLower (name b))
  ∧ (∀ ext, ext ≠ "" → Go.toLower (name b) = Go.toLower (name a) +:+ ext →
            compareName a b = Some (-1)%Z ∧ compareName b a = Some 1%Z)
  ∧ (∀ p x y ra rb,
       Go.toLower (name a) = p +:+ String x ra →
       Go.toLower (name b) = p +:+ String y rb →
       nat_of_ascii x < nat_of_ascii y →
       compareName a b = Some (-1)%Z ∧ compareName b a = Some 1%Z).
Proof.
  intros _ _. rewrite !compareName_spec. unfold specCompareName.
  split; [|split; [|split]].
  - eexists. split; [done|]. apply lexCompare_range.
  - split; [intros [= H]; by apply lexCompare_eq | intros H; f_equal; by apply lexCompare_eq].
  - intros ext Hext ->.
    destruct (lexCompare_prefix (Go.toLower (name a)) ext Hext) as [-> ->]. done.
  - intros p x y ra rb -> -> Hxy.
    destruct (lexCompare_first_difference p ra rb x y Hxy) as [-> ->]. done.
Qed.

Lemma compareName_case_insensitive_witness :
  compareName (fileNamed "README") (fileNamed "readme") = Some 0%Z
  ∧ compareName (fileNamed "ls") (fileNamed "LS.go") = Some (-1)%Z.
Proof.
  split.
  - by apply (proj1 (proj2 (compareName_case_insensitive
                              (fileNamed "README") (fileNamed "readme")
                              eq_refl eq_refl))).
  - destruct (proj1 (proj2 (proj2 (compareName_case_insensitive
                                     (fileNamed "ls") (fileNamed "LS.go")
                                     eq_refl eq_refl))) ".go")
      as [Hless _]; [done | reflexivity | exact Hless].
Defined.

(** *** The default sort returns exactly when no two names tie *)

(** With the default sort and names of ASCII bytes, [sortListings] returns
    exactly when no two names are equal without case: then, for every fuel
    from some bound on, it returns the listings in strictly ascending order
    of the lowered names (reversed under sortReverse); when two names are
    equal without case it never returns, whatever the fuel. *)
Theorem name_sort_characterised (o : Options) (listings : list Listing)
    (Htime : sortTime o = false) (Hsize : sortSize o = false)
    (Hascii : Forall (λ l, asciiOnly (name l) = true) listings) :
  (NoDup (lowerName <$> listings) →
   ∃ sorted,
     listings ≡ₚ sorted ∧ ascendingByName sorted
     ∧ ∃ fuel0, ∀ fuel, fuel0 ≤ fuel →
         sortListings fuel o listings
         = Returned (if sortReverse o then reverse sorted else sorted))
  ∧ (¬ NoDup (lowerName <$> listings) →
     ∀ fuel, sortListings fuel o listings = OutOfFuel).
Proof.
  unfold sortListings, comparisonFunction. rewrite Htime, Hsize. split.
  - intros Hnd. destruct (name_sort_returns listings Hnd)
      as (sorted & Hperm & Hasc & Hfuel).
    exists sorted. split; [done|]. split; [done|].
    exists (S (inversions (nameRank listings) listings)). intros fuel Hf.
    rewrite Hfuel by lia.
    destruct (sortReverse o); [|done]. by rewrite reverseStep_reverse.
  - intros Hdup fuel. by rewrite name_sort_never_returns.
Qed.

Lemma name_sort_characterised_witness :
  ∃ sorted,
    [fileNamed "b"; fileNamed "a"; fileNamed "C"] ≡ₚ sorted
    ∧ ascendingByName sorted.
Proof.
  assert (Forall (λ l, asciiOnly (name l) = true)
            [fileNamed "b"; fileNamed "a"; fileNamed "C"]) as Hascii.
  { repeat apply Forall_cons_2; try apply Forall_nil_2; reflexivity. }
  destruct (proj1 (name_sort_characterised defaultOptions
                     [fileNamed "b"; fileNamed "a"; fileNamed "C"]
                     eq_refl eq_refl Hascii)) as (sorted & Hperm & Hasc & _).
  - apply (bool_decide_unpack _). by vm_compute.
  - by exists sorted.
Defined.

Example name_sort_b_a_C :
  sortListings 3 defaultOptions [fileNamed "b"; fileNamed "a"; fileNamed "C"]
  = Returned [fileNamed "a"; fileNamed "b"; fileNamed "C"].
Proof. reflexivity. Qed.

(** *** Sorting by time *)

(** With sortTime, [sortListings] returns the listings in descending order
    of the modification instant, for every fuel from some bound on; a slice
    that is in that order already, ties included, is returned as it is. *)
Theorem time_ordering (o : Options) (listings : list Listing)
    (Htime : sortTime o = true) :
  ∃ sorted,
    listings ≡ₚ sorted
    ∧ descendingBy epochNano sorted
    ∧ (∃ fuel0, ∀ fuel, fuel0 ≤ fuel →
         sortListings fuel o listings
         = Returned (if sortReverse o then reverse sorted else sorted))
    ∧ (descendingBy epochNano listings → sorted = listings).
Proof.
  destruct (sortLoop_keyed epochNano compareTime compareTime_keyed
              (inversions epochNano listings) listings (le_n _))
    as (sorted & Hfuel & Hperm & Hsorted).
  exists sorted. split; [done|]. split; [done|]. split.
  - exists (S (inversions epochNano listings)). intros fuel Hf.
    unfold sortListings, comparisonFunction. rewrite Htime.
    rewrite Hfuel by lia.
    destruct (sortReverse o); [|done]. by rewrite reverseStep_reverse.
  - intros Hdesc.
    pose proof (sortLoop_descending epochNano compareTime compareTime_keyed
                  listings (inversions epochNano listings) Hdesc) as H.
    rewrite Hfuel in H by lia. by injection H.
Qed.

Lemma time_ordering_witness :
  ∃ sorted,
    [fileNamed "a"; fileNamed "b"] ≡ₚ sorted ∧ descendingBy epochNano sorted.
Proof.
  destruct (time_ordering
              (mkOptions false false false false false true
                         false true false false false)
              [fileNamed "a"; fileNamed "b"] eq_refl)
    as (sorted & Hperm & Hsorted & _).
  by exists sorted.
Defined.

(** *** Sorting human-readable sizes *)

(** With sortSize (and sortTime off), listings whose size fields all end in
    a size suffix, as every field written under the human option does, come
    back in the order they went in: each field has the value 0. *)
Theorem size_sort_human_unchanged (o : Options) (listings : list Listing)
    (Hsize : sortSize o = true) (Htime : sortTime o = false)
    (Hhuman : ∀ l, l ∈ listings →
                ∃ v suffix, size l = v +:+ suffix ∧ suffix ∈ sizeSuffixes) :
  ∀ fuel,
    sortListings (S fuel) o listings
    = Returned (if sortReverse o then reverse listings else listings).
Proof.
  intros fuel.
  assert (descendingBy sizeKey listings) as Hdesc.
  { apply descendingBy_constant. intros l Hl.
    destruct (Hhuman l Hl) as (v & suffix & Hv & Hs).
    by eapply sizeKey_suffixed. }
  unfold sortListings, comparisonFunction. rewrite Htime, Hsize.
  rewrite (sortLoop_descending sizeKey compareSize compareSize_keyed
             listings fuel Hdesc).
  destruct (sortReverse o); [|done]. by rewrite reverseStep_reverse.
Qed.

Lemma size_sort_human_unchanged_witness :
  sortListings 1
    (mkOptions false false true false false true false false true false false)
    [fileSized "a" "1.5K"; fileSized "b" "2M"]
  = Returned [fileSized "a" "1.5K"; fileSized "b" "2M"].
Proof.
  refine (size_sort_human_unchanged
            (mkOptions false false true false false true
                       false false true false false)
            [fileSized "a" "1.5K"; fileSized "b" "2M"] eq_refl eq_refl _ 0).
  intros l Hl.
  apply elem_of_cons in Hl as [->|Hl]; [exists "1.5", "K"; split; [done|set_solver]|].
  apply elem_of_cons in Hl as [->|Hl]; [exists "2", "M"; split; [done|set_solver]|].
  by apply elem_of_nil in Hl.
Defined.

(** *** Directories first *)

Lemma appendWhere_filter (keep : bool → bool) (listings : list Listing) :
  Forall (λ l, 0 < Go.len (permissions l)) listings →
  appendWhere keep listings
  = Some (filter (λ l, keep (isDirectory l) = true) listings).
Proof.
  induction 1 as [|l rest Hl _ IH]; [done|].
  cbn [appendWhere]. rewrite indexIs_permIs by done. cbn [mbind option_bind].
  rewrite IH. cbn [mbind option_bind]. rewrite filter_cons.
  fold (isDirectory l). by destruct (keep (isDirectory l)).
Qed.

(** [sortListingsDirsFirst] is a stable partition: the directories in their
    order, then the other entries in theirs. *)
Theorem dirs_first_stable_partition (listings : list Listing)
    (Hperm : Forall (λ l, 0 < Go.len (permissions l)) listings) :
  sortListingsDirsFirst listings
  = Some (filter (λ l, isDirectory l = true) listings
          ++ filter (λ l, isDirectory l = false) listings)
  ∧ listings ≡ₚ filter (λ l, isDirectory l = true) listings
                ++ filter (λ l, isDirectory l = false) listings.
Proof.
  split.
  - unfold sortListingsDirsFirst. rewrite !appendWhere_filter by done.
    cbn [mbind option_bind]. do 2 f_equal.
    apply list_filter_iff. intros l. by destruct (isDirectory l).
  - clear Hperm. induction listings as [|l rest IH]; [done|].
    rewrite !filter_cons. destruct (isDirectory l) eqn:E.
    + rewrite decide_True, decide_False by done. cbn. by apply Permutation_skip.
    + rewrite decide_False, decide_True by done.
      rewrite <- Permutation_middle. by apply Permutation_skip.
Qed.

Lemma dirs_first_stable_partition_witness :
  sortListingsDirsFirst
    [fileNamed "a";
     mkListing "drwxr-xr-x" "2" "user" "group" "4096" 0 "Jan" "01" "00:00"
               "d1" "" false false false false false;
     fileNamed "b"]
  = Some
      [mkListing "drwxr-xr-x" "2" "user" "group" "4096" 0 "Jan" "01" "00:00"
                 "d1" "" false false false false false;
       fileNamed "a"; fileNamed "b"].
Proof.
  refine (proj1 (dirs_first_stable_partition _ _)).
  repeat constructor.
Defined.

(** *** Colour tables *)

(** Every colour table [ls] builds has its reset entry [end], and no empty
    entry. *)
Theorem color_table_well_formed (LsColors LSCOLORS : string)
    (cm : gmap string string)
    (Hbuilt : buildColorMap LsColors LSCOLORS = Some cm) :
  is_Some (cm !! "end") ∧ noEmptyColor cm
  ∧ (LsColors = "" → LSCOLORS = "" →
     cm !! "end" = Some (escOpen +:+ "0m")).
Proof.
  split; [|split].
  - revert Hbuilt. apply (buildColorMap_preserved (λ m, is_Some (m !! "end"))).
    + by eexists.
    + intros m k v _ Hm. by apply lookup_insert_is_Some'; right.
  - by eapply buildColorMap_noEmpty.
  - intros -> ->. vm_compute in Hbuilt. injection Hbuilt as <-. by vm_compute.
Qed.

Lemma color_table_well_formed_witness :
  ∃ cm, buildColorMap "rs=0:di=01;34" "" = Some cm ∧ is_Some (cm !! "end").
Proof.
  destruct (buildColorMap "rs=0:di=01;34" "") as [cm|] eqn:E.
  - exists cm. split; [done|].
    exact (proj1 (color_table_well_formed "rs=0:di=01;34" "" cm E)).
  - by vm_compute in E.
Defined.

Lemma lscolorsKey_large (i : nat) : 21 ≤ i → lscolorsKey i = None.
Proof. intros Hi. do 21 (destruct i as [|i]; [lia|]). done. Qed.

Lemma parseLscolors_long_odd (s : string) (cm : gmap string string) :
  Nat.odd (Go.len s) = true → 22 ≤ Go.len s → is_Some (parseLscolors s cm).
Proof.
  intros [m Hm]%Nat.odd_spec Hle. unfold parseLscolors.
  rewrite Hm, evenIndices_odd, foldl_app. cbn [foldl].
  destruct (parseLscolors_fold_Some s ((λ k, 2 * k) <$> seq 0 m) cm) as [cm' ->].
  { apply Forall_fmap, Forall_forall. intros k Hk%elem_of_seq. cbn. lia. }
  cbn [mbind option_bind]. unfold parseLscolorsStep.
  rewrite lscolorsKey_large by lia. by eexists.
Qed.

(** [parseLscolors] panics exactly on the specifications of odd length up
    to 21; the letters play no part. *)
Theorem lscolors_panics_exactly_on_short_odd (s : string)
    (cm : gmap string string) :
  parseLscolors s cm = None ↔ Nat.odd (Go.len s) = true ∧ Go.len s ≤ 21.
Proof.
  split.
  - intros Hnone.
    destruct (Nat.odd (Go.len s)) eqn:Hodd.
    + split; [done|]. destruct (decide (Go.len s ≤ 21)) as [|Hlong]; [done|].
      destruct (parseLscolors_long_odd s cm Hodd) as [? H]; [lia|]. congruence.
    + destruct (parseLscolors_even s cm) as [? H]; [|congruence].
      by rewrite <- Nat.negb_odd, Hodd.
  - intros [Hodd Hle]. by apply parseLscolors_odd.
Qed.

(** *** Permission strings *)

Lemma permBitsOf_hasByte (template p : string) (c : ascii) :
  permBitsOf template p = true → hasByte c template = false →
  c ≠ "-"%char → hasByte c p = false.
Proof.
  revert p. induction template as [|t ts IH]; intros [|x p]; cbn; try done.
  intros [Hx Hp]%andb_prop [Ht Hts]%orb_false_elim Hc.
  rewrite (IH p Hp Hts Hc), orb_false_r.
  apply bool_decide_eq_false_2. intros ->.
  apply orb_prop in Hx as [Hx|Hx]; apply bool_decide_eq_true in Hx.
  - subst t. by rewrite bool_decide_eq_true_2 in Ht.
  - done.
Qed.

Lemma replaceFirst_absent (c : ascii) (new s : string) :
  hasByte c s = false → Go.replaceFirst (String c "") new s = s.
Proof.
  induction s as [|x s IH]; [done|].
  cbn [hasByte Go.replaceFirst String.prefix].
  intros [Hx Hs]%orb_false_elim. apply bool_decide_eq_false in Hx.
  destruct (ascii_dec c x) as [->|_]; [done|]. by rewrite (IH Hs).
Qed.

(** Normalising a normalised string changes nothing, for each form of the
    mode string that normalises to ten characters. *)
Theorem normalize_idempotent (p : string) (Hp : permBits p = true) :
  (∀ r, normalizePermissions true ("L" +:+ p) = Some r →
        normalizePermissions true r = Some r)
  ∧ (∀ r, normalizePermissions false ("ug" +:+ p) = Some r →
          normalizePermissions false r = Some r)
  ∧ (∀ r, normalizePermissions false ("u" +:+ p) = Some r →
          normalizePermissions false r = Some r)
  ∧ (∀ r, normalizePermissions false ("g" +:+ p) = Some r →
          normalizePermissions false r = Some r)
  ∧ (∀ r, normalizePermissions false ("dt" +:+ p) = Some r →
          normalizePermissions false r = Some r)
  ∧ (∀ r, normalizePermissions false ("-" +:+ p) = Some r →
          normalizePermissions false r = Some r).
Proof.
  split.
  - intros r Hr.
    assert (r = "l" +:+ p) as ->.
    { pose proof Hp as Hp'. perm_chars Hp'; vm_compute in Hr; by injection Hr. }
    cbn [normalizePermissions]. f_equal. apply replaceFirst_absent.
    change (hasByte "L" ("l" +:+ p)) with (hasByte "L" p).
    by apply (permBitsOf_hasByte "rwxrwxrwx").
  - perm_chars Hp; repeat split; intros r Hr; vm_compute in Hr;
      injection Hr as <-; vm_compute; reflexivity.
Qed.

Lemma normalize_idempotent_witness :
  normalizePermissions false "-rwsr-sr-x" = Some "-rwsr-sr-x".
Proof.
  exact (proj1 (proj2 (normalize_idempotent "rwxr-xr-x" eq_refl))
           "-rwsr-sr-x" eq_refl).
Defined.

(** *** The grid fits the terminal *)

(** The row count the grid loop returns either fits the terminal width, or
    it is the number of entries: a single column that cannot be made
    narrower. *)
Theorem grid_fits_or_single_column (listings : list Listing)
    (terminalWidth : Z) (Hne : listings ≠ []) :
  ∃ R,
    (∀ fuel, length listings ≤ fuel →
       gridLayout fuel listings terminalWidth
       = Returned (R, specColWidths listings R))
    ∧ ((specRowWidth listings R ≤ terminalWidth)%Z
       ∨ (R = length listings ∧ specColWidths listings R
                                 = [specColWidth listings R 0])).
Proof.
  assert (Hn : 1 ≤ length listings) by (destruct listings; [done | cbn; lia]).
  destruct (gridLoop_spec listings terminalWidth (length listings - 1) 1 Hne)
    as (R & HR & Hacc & _ & Hfuel); [lia | lia |].
  exists R. split; [intros fuel Hf; apply Hfuel; lia|].
  unfold specDecision in Hacc.
  destruct (terminalWidth <? specRowWidth listings R)%Z eqn:E.
  - right. destruct (R <? length listings) eqn:E2; [done|].
    apply Nat.ltb_ge in E2. assert (R = length listings) as -> by lia.
    split; [done|]. unfold specColWidths, specNumCols.
    rewrite Nat.div_same, Nat.Div0.mod_same by lia. done.
  - left. by apply Z.ltb_ge in E.
Qed.

Lemma grid_fits_or_single_column_witness :
  ∃ R,
    ∀ fuel, 2 ≤ fuel →
      gridLayout fuel [fileNamed "a"; fileNamed "bb"] 10
      = Returned (R, specColWidths [fileNamed "a"; fileNamed "bb"] R).
Proof.
  destruct (grid_fits_or_single_column [fileNamed "a"; fileNamed "bb"] 10)
    as (R & HR & _); [discriminate|].
  by exists R.
Defined.

(** ** The arguments and the options *)

Example options_la_nocolor :
  parseOptions ["-la"; "--nocolor"]
  = mkOptions true true false false false false false false false false false.
Proof. reflexivity. Qed.

Example options_dirs_first_sets_no_short_flag :
  parseOptions ["--dirs-first"]
  = mkOptions false false false false false true false false false false true.
Proof. reflexivity. Qed.

Lemma splitArgs_nonempty (args : list string) :
  Forall (λ a, a ≠ "") args →
  splitArgs args = Some (filter startsWithDash args,
                         filter (λ a, ¬ startsWithDash a) args).
Proof.
  induction 1 as [|a rest Ha _ IH]; [done|].
  cbn [splitArgs]. rewrite IH. destruct a as [|c a]; [done|].
  cbn [Go.index String.get mbind option_bind]. rewrite !filter_cons.
  unfold startsWithDash at 1 3. cbn [Go.index String.get].
  case_bool_decide as Hc.
  - subst c. rewrite decide_True by done.
    rewrite decide_False by (intros H; by apply H). done.
  - rewrite decide_False by (intros [= ->]; by apply Hc).
    rewrite decide_True by (intros [= ->]; by apply Hc). done.
Qed.

Lemma splitArgs_empty (args : list string) :
  "" ∈ args → splitArgs args = None.
Proof.
  induction args as [|a rest IH]; intros Hin; [by apply elem_of_nil in Hin|].
  cbn [splitArgs]. apply elem_of_cons in Hin as [<-|Hin]; [done|].
  rewrite (IH Hin). by destruct (Go.index a 0).
Qed.

(** [ls] panics when some argument is the empty string (the first byte of
    each argument is read without a test of its length), wherever the
    argument stands.  Otherwise the arguments are parted into the options,
    which start with [-], and the files, each group in the order of the
    command line. *)
Theorem splitArgs_partition (args : list string) :
  splitArgs args
  = if decide ("" ∈ args) then None
    else Some (filter startsWithDash args,
               filter (λ a, ¬ startsWithDash a) args).
Proof.
  case_decide as Hin; [by apply splitArgs_empty|].
  apply splitArgs_nonempty. apply Forall_forall. by intros a Ha ->.
Qed.

Lemma prefix_app_l (a b s : string) :
  String.prefix (a +:+ b) s = true → String.prefix a s = true.
Proof.
  revert s. induction a as [|x a IH]; intros s; [by destruct s|].
  rewrite app_String. destruct s as [|y s]; [done|]. cbn.
  destruct (ascii_dec x y); [apply IH | done].
Qed.

(** A string that contains a text contains every prefix of the text. *)
Lemma contains_app_l (s a b : string) :
  Go.contains s (a +:+ b) = true → Go.contains s a = true.
Proof.
  induction s as [|c s IH]; cbn [Go.contains].
  - rewrite !orb_false_r. apply prefix_app_l.
  - intros [H|H]%orb_prop.
    + by rewrite (prefix_app_l a b _ H).
    + rewrite (IH H). by rewrite orb_true_r.
Qed.

Lemma applyOption_fields (opts : Options) (o : string) :
  all (applyOption opts o)
    = all opts || (negb (Go.contains o "--") && Go.contains o "a")
  ∧ long (applyOption opts o)
    = long opts || (negb (Go.contains o "--") && Go.contains o "l")
  ∧ human (applyOption opts o)
    = human opts || (negb (Go.contains o "--") && Go.contains o "h")
  ∧ one (applyOption opts o)
    = one opts || (negb (Go.contains o "--") && Go.contains o "1")
  ∧ dir (applyOption opts o)
    = dir opts || (negb (Go.contains o "--") && Go.contains o "d")
  ∧ sortReverse (applyOption opts o)
    = sortReverse opts || (negb (Go.contains o "--") && Go.contains o "r")
  ∧ sortTime (applyOption opts o)
    = sortTime opts || (negb (Go.contains o "--") && Go.contains o "t")
  ∧ sortSize (applyOption opts o)
    = sortSize opts || (negb (Go.contains o "--") && Go.contains o "S")
  ∧ color (applyOption opts o) = color opts && negb (Go.contains o "--nocolor")
  ∧ help (applyOption opts o) = help opts || Go.contains o "--help"
  ∧ dirsFirst (applyOption opts o)
    = dirsFirst opts || Go.contains o "--dirs-first".
Proof.
  unfold applyOption.
  pose proof (contains_app_l o "--" "nocolor") as Hc.
  pose proof (contains_app_l o "--" "help") as Hh.
  pose proof (contains_app_l o "--" "dirs-first") as Hd.
  change ("--" +:+ "nocolor") with "--nocolor" in Hc.
  change ("--" +:+ "help") with "--help" in Hh.
  change ("--" +:+ "dirs-first") with "--dirs-first" in Hd.
  destruct (Go.contains o "--") eqn:E; cbn [negb andb all long human one dir
    color sortReverse sortTime sortSize help dirsFirst].
  - rewrite !orb_false_r. repeat split;
      match goal with |- context [Go.contains o ?t] =>
        destruct (Go.contains o t); by rewrite ?andb_true_r, ?andb_false_r,
          ?orb_true_r, ?orb_false_r end.
  - destruct (Go.contains o "--nocolor"); [by discriminate Hc|].
    destruct (Go.contains o "--help"); [by discriminate Hh|].
    destruct (Go.contains o "--dirs-first"); [by discriminate Hd|].
    rewrite !orb_false_r, andb_true_r. repeat split;
      match goal with |- context [Go.contains o ?t] =>
        destruct (Go.contains o t); by rewrite ?orb_true_r, ?orb_false_r end.
Qed.

Lemma foldl_applyOption_fields (argsOptions : list string) (opts : Options) :
  let r := foldl applyOption opts argsOptions in
  all r = all opts || someShortOption "a" argsOptions
  ∧ long r = long opts || someShortOption "l" argsOptions
  ∧ human r = human opts || someShortOption "h" argsOptions
  ∧ one r = one opts || someShortOption "1" argsOptions
  ∧ dir r = dir opts || someShortOption "d" argsOptions
  ∧ sortReverse r = sortReverse opts || someShortOption "r" argsOptions
  ∧ sortTime r = sortTime opts || someShortOption "t" argsOptions
  ∧ sortSize r = sortSize opts || someShortOption "S" argsOptions
  ∧ color r = color opts && negb (someOption "--nocolor" argsOptions)
  ∧ help r = help opts || someOption "--help" argsOptions
  ∧ dirsFirst r = dirsFirst opts || someOption "--dirs-first" argsOptions.
Proof.
  revert opts. induction argsOptions as [|o rest IH]; intros opts.
  - cbn. by rewrite !orb_false_r, andb_true_r.
  - cbn [foldl]. cbv zeta in IH |- *.
    destruct (IH (applyOption opts o))
      as (-> & -> & -> & -> & -> & -> & -> & -> & -> & -> & ->).
    destruct (applyOption_fields opts o)
      as (-> & -> & -> & -> & -> & -> & -> & -> & -> & -> & ->).
    unfold someShortOption, someOption. cbn [existsb].
    rewrite negb_orb, !orb_assoc, andb_assoc. done.
Qed.

(** The options [ls] works with depend only on which option arguments
    occur: a short flag is on exactly when some option argument without [--]
    contains its letter; the colours are on exactly when no option argument
    contains [--nocolor]; [--help] and [--dirs-first] are on exactly when
    some option argument contains them.  A long option never turns a
    short flag on, whatever letters it is made of. *)
Theorem options_characterised (argsOptions : list string) :
  parseOptions argsOptions
  = mkOptions (someShortOption "a" argsOptions)
              (someShortOption "l" argsOptions)
              (someShortOption "h" argsOptions)
              (someShortOption "1" argsOptions)
              (someShortOption "d" argsOptions)
              (negb (someOption "--nocolor" argsOptions))
              (someShortOption "r" argsOptions)
              (someShortOption "t" argsOptions)
              (someShortOption "S" argsOptions)
              (someOption "--help" argsOptions)
              (someOption "--dirs-first" argsOptions).
Proof.
  unfold parseOptions.
  pose proof (foldl_applyOption_fields argsOptions initialOptions) as H.
  cbv zeta in H. destruct (foldl applyOption initialOptions argsOptions).
  cbn in H. by destruct H as (-> & -> & -> & -> & -> & -> & -> & -> & -> & -> & ->).
Qed.

Lemma applyOption_comm (opts : Options) (x y : string) :
  applyOption (applyOption opts x) y = applyOption (applyOption opts y) x.
Proof.
  pose proof (applyOption_fields (applyOption opts x) y) as Hxy.
  pose proof (applyOption_fields (applyOption opts y) x) as Hyx.
  destruct (applyOption_fields opts x)
    as (Ex1 & Ex2 & Ex3 & Ex4 & Ex5 & Ex6 & Ex7 & Ex8 & Ex9 & Ex10 & Ex11).
  destruct (applyOption_fields opts y)
    as (Ey1 & Ey2 & Ey3 & Ey4 & Ey5 & Ey6 & Ey7 & Ey8 & Ey9 & Ey10 & Ey11).
  rewrite Ex1, Ex2, Ex3, Ex4, Ex5, Ex6, Ex7, Ex8, Ex9, Ex10, Ex11 in Hxy.
  rewrite Ey1, Ey2, Ey3, Ey4, Ey5, Ey6, Ey7, Ey8, Ey9, Ey10, Ey11 in Hyx.
  destruct (applyOption (applyOption opts x) y),
           (applyOption (applyOption opts y) x).
  cbn in Hxy, Hyx.
  destruct Hxy as (-> & -> & -> & -> & -> & -> & -> & -> & -> & -> & ->).
  destruct Hyx as (-> & -> & -> & -> & -> & -> & -> & -> & -> & -> & ->).
  f_equal; try (rewrite <- !orb_assoc; f_equal; apply orb_comm).
  rewrite <- !andb_assoc. f_equal. apply andb_comm.
Qed.

(** The order of the option arguments does not matter. *)
Theorem options_order_irrelevant (argsOptions argsOptions' : list string) :
  argsOptions ≡ₚ argsOptions' →
  parseOptions argsOptions = parseOptions argsOptions'.
Proof.
  intros Hp. unfold parseOptions. generalize initialOptions.
  induction Hp as [|x l l' _ IH|x y l|l l' l'' _ IH1 _ IH2]; intros opts.
  - done.
  - cbn [foldl]. apply IH.
  - cbn [foldl]. by rewrite applyOption_comm.
  - rewrite IH1. apply IH2.
Qed.

Lemma options_order_irrelevant_witness :
  parseOptions ["-l"; "--nocolor"; "-a"] = parseOptions ["-a"; "-l"; "--nocolor"].
Proof.
  apply options_order_irrelevant.
  change (["-l"; "--nocolor"; "-a"]) with (["-l"; "--nocolor"] ++ ["-a"]).
  by rewrite (Permutation_app_comm ["-l"; "--nocolor"] ["-a"]).
Defined.

Lemma no_dash_no_double (s : string) :
  hasByte "-" s = false → Go.contains s "--" = false.
Proof.
  induction s as [|c s IH]; [done|]. cbn [hasByte Go.contains].
  intros [Hc Hs]%orb_false_elim. rewrite (IH Hs), orb_false_r.
  cbn [String.prefix]. destruct (ascii_dec "-" c) as [<-|]; [|done].
  by rewrite bool_decide_true in Hc.
Qed.

Lemma dash_no_double (s : string) :
  hasByte "-" s = false → Go.contains (String "-" s) "--" = false.
Proof.
  intros Hs. cbn [Go.contains]. rewrite (no_dash_no_double s Hs), orb_false_r.
  destruct s as [|c s]; [done|]. cbn [String.prefix]. cbn [hasByte] in Hs.
  destruct (ascii_dec "-" "-"); [|done].
  apply orb_false_elim in Hs as [Hc _].
  destruct (ascii_dec "-" c) as [<-|]; [|done].
  by rewrite bool_decide_true in Hc.
Qed.

Lemma short_option (opts : Options) (s : string) :
  hasByte "-" s = false →
  applyOption opts (String "-" s)
  = mkOptions (all opts || hasByte "a" s) (long opts || hasByte "l" s)
              (human opts || hasByte "h" s) (one opts || hasByte "1" s)
              (dir opts || hasByte "d" s) (color opts)
              (sortReverse opts || hasByte "r" s)
              (sortTime opts || hasByte "t" s)
              (sortSize opts || hasByte "S" s) (help opts) (dirsFirst opts).
Proof.
  intros Hs. unfold applyOption. rewrite (dash_no_double s Hs).
  rewrite !contains_byte. cbn [hasByte].
  rewrite !bool_decide_false by done. cbn [orb].
  f_equal; by match goal with |- context [hasByte ?c s] =>
    destruct (hasByte c s); rewrite ?orb_true_r, ?orb_false_r end.
Qed.

(** Short flags may be grouped: [-xy] has the effect of [-x -y], whatever
    other option arguments follow. *)
Theorem grouped_short_options (x y : string) (rest : list string) :
  hasByte "-" x = false → hasByte "-" y = false →
  parseOptions (("-" +:+ x +:+ y) :: rest)
  = parseOptions (("-" +:+ x) :: ("-" +:+ y) :: rest).
Proof.
  intros Hx Hy. unfold parseOptions. cbn [foldl]. f_equal.
  change ("-" +:+ x +:+ y) with (String "-" (x +:+ y)).
  change ("-" +:+ x) with (String "-" x).
  change ("-" +:+ y) with (String "-" y).
  rewrite !short_option by (rewrite ?hasByte_app, ?Hx, ?Hy; done).
  cbn. by rewrite !hasByte_app.
Qed.

Lemma grouped_short_options_witness :
  parseOptions ["-la"; "--nocolor"] = parseOptions ["-l"; "-a"; "--nocolor"].
Proof.
  by apply (grouped_short_options "l" "a" ["--nocolor"]).
Defined.

(** ** /etc/group and /etc/passwd *)

Example readIdLines_passwd :
  readIdLines ∅ ["# users"; "root:x:0:0:root:/root:/bin/sh"; " bin:x:2:2::/:"]
  = Finished (<[2%Z := "bin"]> (<[0%Z := "root"]> ∅)).
Proof. reflexivity. Qed.

Example readIdLines_empty_line : readIdLines ∅ ["root:x:0:0"; ""] = Crashed.
Proof. reflexivity. Qed.

Example readIdLines_no_number : readIdLines ∅ ["root:x:zero:0"] = Failed.
Proof. reflexivity. Qed.

Lemma contains_blanks (c : ascii) :
  Go.contains blanks (String c EmptyString) = isBlank c.
Proof.
  rewrite contains_byte. unfold blanks, isBlank. cbn [hasByte].
  rewrite orb_false_r.
  unfold bool_decide. destruct (ascii_dec " " c), (ascii_dec "009" c);
    repeat case_decide; naive_solver.
Qed.

Lemma trimLeft_first (s : string) :
  Go.index (Go.trimLeft blanks s) 0 = firstNonBlank s.
Proof.
  induction s as [|c r IH]; [done|]. cbn [Go.trimLeft firstNonBlank].
  rewrite contains_blanks. by destruct (isBlank c).
Qed.

Lemma trimLeft_not_blank (s : string) :
  startsBlank (Go.trimLeft blanks s) = false.
Proof.
  induction s as [|c r IH]; [done|]. cbn [Go.trimLeft].
  rewrite contains_blanks. by destruct (isBlank c) eqn:E.
Qed.

Lemma trimRight_first (s : string) :
  startsBlank s = false → Go.index (Go.trimRight blanks s) 0 = Go.index s 0.
Proof.
  destruct s as [|c r]; [done|]. cbn [startsBlank Go.trimRight]. intros Hc.
  rewrite contains_blanks, Hc. by destruct (Go.trimRight blanks r).
Qed.

Lemma trim_first (s : string) :
  Go.index (Go.trim s blanks) 0 = firstNonBlank s.
Proof.
  unfold Go.trim. rewrite trimRight_first by apply trimLeft_not_blank.
  apply trimLeft_first.
Qed.

Lemma countByte_trimLeft (c : ascii) (s : string) :
  countByte c (Go.trimLeft blanks s) ≤ countByte c s.
Proof.
  induction s as [|x r IH]; [done|]. cbn [Go.trimLeft].
  destruct (Go.contains blanks (String x "")); [cbn; lia|done].
Qed.

Lemma countByte_trimRight (c : ascii) (s : string) :
  countByte c (Go.trimRight blanks s) ≤ countByte c s.
Proof.
  induction s as [|x r IH]; [done|]. cbn [Go.trimRight].
  destruct (Go.trimRight blanks r) as [|y r'].
  - destruct (Go.contains blanks (String x "")); cbn; lia.
  - cbn [countByte] in *. lia.
Qed.

Lemma split_length (sep : ascii) (s : string) :
  length (Go.split sep s) = S (countByte sep s).
Proof.
  induction s as [|x r IH]; [done|]. cbn [Go.split countByte].
  case_bool_decide; cbn [length]; [by rewrite IH|].
  destruct (Go.split sep r); cbn in *; lia.
Qed.

Lemma readIdLines_app (idMap : gmap Z string) (pre post : list string) :
  readIdLines idMap (pre ++ post)
  = match readIdLines idMap pre with
    | Finished idMap' => readIdLines idMap' post
    | Failed => Failed
    | Crashed => Crashed
    end.
Proof.
  revert idMap. induction pre as [|l pre IH]; intros idMap; [done|].
  cbn [app readIdLines]. by destruct (readIdLine idMap l).
Qed.

(** A line without a third field, and so every empty line and every line
    of blanks, makes [ls] panic, unless it is a comment: the test for the
    empty line comes after the index expression [line[0]], and
    [lineSplit[2]] is read without a test of the number of fields. *)
Theorem id_file_short_line_panics (idMap idMap' : gmap Z string)
    (pre post : list string) (line : string) :
  readIdLines idMap pre = Finished idMap' →
  firstNonBlank line ≠ Some "#"%char →
  countByte ":" line < 2 →
  readIdLines idMap (pre ++ line :: post) = Crashed.
Proof.
  intros Hpre Hfirst Hcount. rewrite readIdLines_app, Hpre.
  cbn [readIdLines]. unfold readIdLine. rewrite trim_first.
  destruct (firstNonBlank line) as [c|] eqn:Ec; [|done].
  rewrite bool_decide_false by congruence.
  assert (Go.trim line blanks ≠ "") as Hne.
  { intros E. pose proof (trim_first line) as H. rewrite E, Ec in H. done. }
  rewrite bool_decide_false by done. cbn [orb].
  rewrite (lookup_ge_None_2 (Go.split ":" (Go.trim line blanks)) 2); [done|].
  rewrite split_length. unfold Go.trim.
  pose proof (countByte_trimRight ":" (Go.trimLeft blanks line)).
  pose proof (countByte_trimLeft ":" line). lia.
Qed.

Lemma id_file_short_line_panics_witness :
  readIdLines ∅ (["root:x:0:0:root:/root:/bin/sh"] ++ "" :: ["bin:x:2:2"])
  = Crashed.
Proof.
  apply (id_file_short_line_panics ∅ (<[0%Z := "root"]> ∅));
    [reflexivity | done | cbn; lia].
Defined.

Lemma digitsValue_uint_acc (u : Decimal.uint) (acc : positive) :
  Go.digitsValue (Z.pos acc) (NilEmpty.string_of_uint u)
  = Some (Z.pos (Pos.of_uint_acc u acc)).
Proof.
  revert acc.
  induction u as [|u IH|u IH|u IH|u IH|u IH|u IH|u IH|u IH|u IH|u IH];
    intros acc; [done|..];
    cbn [NilEmpty.string_of_uint Go.digitsValue Pos.of_uint_acc];
    (match goal with |- context [Go.digitValue ?c] =>
       change (Go.digitValue c) with (Some (Z.of_nat (nat_of_ascii c) - 48)%Z)
     end);
    cbn [mbind option_bind]; rewrite <- IH; f_equal;
    (match goal with |- context [Z.of_nat (nat_of_ascii ?c)] =>
       let v := eval vm_compute in (Z.of_nat (nat_of_ascii c)) in
       change (Z.of_nat (nat_of_ascii c)) with v
     end); lia.
Qed.

Lemma digitsValue_uint (u : Decimal.uint) :
  Go.digitsValue 0 (NilEmpty.string_of_uint u) = Some (Z.of_N (Pos.of_uint u)).
Proof.
  induction u as [|u IH|u IH|u IH|u IH|u IH|u IH|u IH|u IH|u IH|u IH];
    [done|apply IH|..];
    cbn [NilEmpty.string_of_uint Go.digitsValue Pos.of_uint];
    (match goal with |- context [Go.digitValue ?c] =>
       change (Go.digitValue c) with (Some (Z.of_nat (nat_of_ascii c) - 48)%Z)
     end);
    cbn [mbind option_bind]; cbn [Z.of_N]; rewrite <- digitsValue_uint_acc;
    f_equal.
Qed.

Lemma string_of_uint_head (u : Decimal.uint) (c : ascii) (r : string) :
  NilEmpty.string_of_uint u = String c r → c ≠ "+"%char ∧ c ≠ "-"%char.
Proof. destruct u; cbn; intros [= <- _]; done. Qed.

(** [strconv.ParseInt] reads back what [%d] prints. *)
Lemma parseInt_itoa (z : Z) :
  (Go.minInt ≤ z ≤ Go.maxInt)%Z → Go.parseInt (Go.itoa z) = Some z.
Proof.
  intros Hz. unfold Go.itoa, Go.parseInt. destruct z as [|p|p].
  - reflexivity.
  - cbn [Z.to_int NilEmpty.string_of_int].
    pose proof (digitsValue_uint (Pos.to_uint p)) as Hv.
    rewrite DecimalPos.Unsigned.of_to in Hv.
    destruct (NilEmpty.string_of_uint (Pos.to_uint p)) as [|c r] eqn:E.
    { apply string_of_uint_empty in E.
      by apply DecimalPos.Unsigned.to_uint_nonnil in E. }
    destruct (string_of_uint_head _ _ _ E) as [Hplus Hminus].
    rewrite !bool_decide_false by done. rewrite Hv. cbn [mbind option_bind Z.of_N].
    by rewrite bool_decide_true.
  - cbn [Z.to_int NilEmpty.string_of_int].
    rewrite bool_decide_false by done. rewrite bool_decide_true by done.
    pose proof (digitsValue_uint (Pos.to_uint p)) as Hv.
    rewrite DecimalPos.Unsigned.of_to in Hv.
    destruct (NilEmpty.string_of_uint (Pos.to_uint p)) as [|c r] eqn:E.
    { apply string_of_uint_empty in E.
      by apply DecimalPos.Unsigned.to_uint_nonnil in E. }
    rewrite Hv. cbn [mbind option_bind Z.of_N].
    by rewrite bool_decide_true.
Qed.

Lemma trimRight_tidy (s : string) :
  endsBlank s = false → Go.trimRight blanks s = s.
Proof.
  induction s as [|c r IH]; [done|]. cbn [Go.trimRight].
  destruct r as [|c' r'].
  - cbn [endsBlank Go.trimRight]. rewrite contains_blanks. by intros ->.
  - intros H. change (endsBlank (String c' r') = false) in H.
    by rewrite (IH H).
Qed.

Lemma trim_tidy (s : string) :
  startsBlank s = false → endsBlank s = false → Go.trim s blanks = s.
Proof.
  intros Hs He. unfold Go.trim.
  assert (Go.trimLeft blanks s = s) as ->; [|by apply trimRight_tidy].
  destruct s as [|c r]; [done|]. cbn [Go.trimLeft].
  rewrite contains_blanks. cbn in Hs. by rewrite Hs.
Qed.

Lemma itoa_no_colon (z : Z) : hasByte ":" (Go.itoa z) = false.
Proof.
  unfold Go.itoa. destruct z as [|p|p]; [done|..];
    cbn [Z.to_int NilEmpty.string_of_int hasByte];
    rewrite ?bool_decide_false by done;
    apply digits_no_byte; first [done | apply string_of_uint_digits].
Qed.

Lemma string_app_empty_r (s : string) : s +:+ "" = s.
Proof. induction s as [|c s IH]; [done|]. rewrite app_String. by rewrite IH. Qed.

Lemma entryLine_split (e : IdEntry) :
  wellFormedEntry e →
  ∃ fields, Go.split ":" (entryLine e)
            = entryName e :: entryPassword e :: Go.itoa (entryId e) :: fields.
Proof.
  intros (Hn & Hp & _ & Hr & _). unfold entryLine.
  rewrite !app_String, !app_empty_l, !split_app_sep by done.
  destruct Hr as [->|[r ->]].
  - exists []. rewrite string_app_empty_r. do 2 f_equal.
    apply split_no_sep, itoa_no_colon.
  - exists (Go.split ":" r). do 2 f_equal.
    by rewrite split_app_sep by apply itoa_no_colon.
Qed.

Lemma readIdLine_entry (idMap : gmap Z string) (e : IdEntry) :
  wellFormedEntry e →
  readIdLine idMap (entryLine e)
  = Finished (<[entryId e := entryName e]> idMap).
Proof.
  intros He. destruct (entryLine_split e He) as [fields Hsplit].
  destruct He as (Hn & Hp & Hid & Hr & Hs & Hb & Hc).
  unfold readIdLine. rewrite (trim_tidy _ Hs Hb).
  destruct (Go.index (entryLine e) 0) as [c|] eqn:E.
  - rewrite bool_decide_false by congruence.
    rewrite bool_decide_false by (by intros E'; rewrite E' in E).
    cbn [orb]. rewrite Hsplit. cbn [lookup list_lookup].
    by rewrite (parseInt_itoa _ Hid).
  - exfalso. unfold entryLine in E. destruct (entryName e); discriminate E.
Qed.

Lemma lastNameFor_snoc (id : Z) (entries : list IdEntry) (e : IdEntry) :
  lastNameFor id (entries ++ [e])
  = if bool_decide (entryId e = id) then Some (entryName e)
    else lastNameFor id entries.
Proof. unfold lastNameFor. by rewrite foldl_app. Qed.

Lemma readIdLines_entries (entries : list IdEntry) :
  Forall wellFormedEntry entries →
  ∃ idMap, readIdLines ∅ (entryLine <$> entries) = Finished idMap
           ∧ ∀ id, idMap !! id = lastNameFor id entries.
Proof.
  induction entries as [|e entries IH] using rev_ind; intros Hwf.
  - exists ∅. split; [done|]. intros id. by rewrite lookup_empty.
  - apply Forall_app in Hwf as [Hwf He]. rewrite Forall_singleton in He.
    destruct (IH Hwf) as (idMap & Hrun & Hlook).
    exists (<[entryId e := entryName e]> idMap).
    rewrite fmap_app, readIdLines_app, Hrun. cbn [fmap list_fmap readIdLines].
    rewrite (readIdLine_entry _ _ He). split; [done|].
    intros id. rewrite lastNameFor_snoc. case_bool_decide as Hid.
    + subst id. by rewrite lookup_insert_eq.
    + by rewrite lookup_insert_ne.
Qed.

(** From a file of well-formed entries [ls] reads, for every id, the name of
    the last entry with that id, and no name for an id without entry; the
    group that a listing shows for a gid is that name, and the number itself
    when there is no name or an empty one. *)
Theorem id_file_lookup (entries : list IdEntry) :
  Forall wellFormedEntry entries →
  ∃ idMap, readIdLines ∅ (entryLine <$> entries) = Finished idMap
           ∧ (∀ id, idMap !! id = lastNameFor id entries)
           ∧ (∀ gid, groupField idMap gid
                     = match lastNameFor gid entries with
                       | Some (String c r) => String c r
                       | _ => Go.itoa gid
                       end).
Proof.
  intros Hwf. destruct (readIdLines_entries entries Hwf) as (idMap & Hrun & Hlook).
  exists idMap. split; [done|]. split; [done|].
  intros gid. unfold groupField. rewrite Hlook.
  by destruct (lastNameFor gid entries) as [[|c r]|].
Qed.

Lemma id_file_lookup_witness :
  ∃ idMap,
    readIdLines ∅ (entryLine <$> [mkIdEntry "root" "x" 0 ":";
                                  mkIdEntry "adm" "x" 4 ":syslog,ubuntu";
                                  mkIdEntry "wheel" "x" 0 ""])
    = Finished idMap
    ∧ (∀ id, idMap !! id
             = lastNameFor id [mkIdEntry "root" "x" 0 ":";
                               mkIdEntry "adm" "x" 4 ":syslog,ubuntu";
                               mkIdEntry "wheel" "x" 0 ""])
    ∧ (∀ gid, groupField idMap gid
              = match lastNameFor gid [mkIdEntry "root" "x" 0 ":";
                                       mkIdEntry "adm" "x" 4 ":syslog,ubuntu";
                                       mkIdEntry "wheel" "x" 0 ""] with
                | Some (String c r) => String c r
                | _ => Go.itoa gid
                end).
Proof.
  apply id_file_lookup.
  repeat apply Forall_cons_2; try apply Forall_nil_2;
    (split; [reflexivity|]; split; [reflexivity|];
     split; [vm_compute; split; discriminate|];
     split; [first [left; reflexivity | right; eexists; reflexivity]|];
     split; [reflexivity|]; split; [reflexivity|];
     vm_compute; discriminate).
Defined.

(** ** The arguments read from stdin *)

Example stdinArguments_example :
  stdinArguments 20 (" -l    src" +:+ tab +:+ "  doc " +:+ String "010" "")
  = Returned ["-l"; "src"; "doc"].
Proof. reflexivity. Qed.

Lemma substring_tail (c : ascii) (r : string) :
  String.substring 1 (Go.len (String c r) - 1) (String c r) = r.
Proof.
  cbn [Go.len String.length]. rewrite Nat.sub_succ, Nat.sub_0_r.
  cbn [String.substring]. apply substring_all.
Qed.

Lemma substring_tail2 (c c' : ascii) (r : string) :
  String.substring 2 (Go.len (String c (String c' r)) - 2)
    (String c (String c' r)) = r.
Proof.
  cbn [Go.len String.length]. rewrite !Nat.sub_succ, Nat.sub_0_r.
  cbn [String.substring]. apply substring_all.
Qed.

Lemma replaceFrom_tab (n : nat) (s : string) :
  Go.len s ≤ n → Go.replaceFrom n tab "" s = removeByte "009" s.
Proof.
  revert s. induction n as [|n IH]; intros s Hn.
  - destruct s; [done|cbn in Hn; lia].
  - destruct s as [|c r]; [done|]. cbn [Go.replaceFrom removeByte].
    unfold tab at 1. cbn [String.prefix].
    assert (Go.len r ≤ n) as Hr by (cbn in Hn; unfold Go.len; lia).
    destruct (ascii_dec "009" c) as [<-|Hc].
    + rewrite bool_decide_true by done.
      assert (String.prefix "" r = true) as -> by (by destruct r).
      change (Go.len tab) with 1. rewrite substring_tail, app_empty_l.
      by apply IH.
    + rewrite bool_decide_false by done. f_equal. by apply IH.
Qed.

Lemma replaceFrom_pairs (n : nat) (s : string) :
  Go.len s ≤ n → Go.replaceFrom n "  " " " s = mergePairs s.
Proof.
  revert s. induction n as [|n IH]; intros s Hn.
  - destruct s; [done|cbn in Hn; lia].
  - destruct s as [|c r]; [done|].
    assert (Go.len r ≤ n) as Hr by (cbn in Hn; unfold Go.len; lia).
    cbn [Go.replaceFrom mergePairs String.prefix].
    destruct (ascii_dec " " c) as [<-|Hc].
    + destruct r as [|c' r']; [cbn; by destruct n|]. cbn [String.prefix].
      rewrite (bool_decide_true (" "%char = " "%char)) by done. cbn [andb].
      destruct (ascii_dec " " c') as [<-|Hc'].
      * rewrite bool_decide_true by done.
        assert (String.prefix "" r' = true) as -> by (by destruct r').
        change (Go.len "  ") with 2. rewrite substring_tail2.
        rewrite app_String, app_empty_l. f_equal. apply IH.
        cbn in Hr. unfold Go.len. lia.
      * rewrite bool_decide_false by done. f_equal. by apply IH.
    + assert (mergePairs (String c r) = String c (mergePairs r)) as Hm.
      { destruct r as [|c' r']; [done|]. cbn [mergePairs].
        by rewrite (bool_decide_false (c = _)) by done. }
      cbn [mergePairs] in Hm. rewrite Hm. f_equal. by apply IH.
Qed.

Lemma prefix_space (s : string) :
  String.prefix " " s = bool_decide (Go.index s 0 = Some " "%char).
Proof.
  destruct s as [|c r]; [done|]. cbn [String.prefix Go.index String.get].
  destruct (ascii_dec " " c) as [<-|Hc].
  - rewrite bool_decide_true by done. by destruct r.
  - by rewrite bool_decide_false by congruence.
Qed.

Lemma mergePairs_first (s : string) :
  Go.index (mergePairs s) 0 = Go.index s 0.
Proof.
  destruct s as [|c [|c' r']]; [done..|]. cbn [mergePairs].
  case_bool_decide as Hc; [|done]. subst c. by case_bool_decide.
Qed.

Lemma contains_pairs (c : ascii) (r : string) :
  Go.contains (String c r) "  "
  = bool_decide (c = " "%char) && String.prefix " " r || Go.contains r "  ".
Proof.
  cbn [Go.contains String.prefix]. f_equal.
  destruct (ascii_dec " " c) as [<-|Hc].
  - by rewrite bool_decide_true.
  - by rewrite bool_decide_false.
Qed.

Lemma mergePairs_cons (c c' : ascii) (r : string) :
  mergePairs (String c (String c' r))
  = if bool_decide (c = " "%char) && bool_decide (c' = " "%char)
    then String " " (mergePairs r)
    else String c (mergePairs (String c' r)).
Proof. done. Qed.

(** Facts on [mergePairs], by induction on a bound of the length: the
    function recurses on the tail and on the tail of the tail. *)
Lemma mergePairs_facts (n : nat) (s : string) :
  Go.len s ≤ n →
  Go.len (mergePairs s) ≤ Go.len s
  ∧ (Go.contains s "  " = true → Go.len (mergePairs s) < Go.len s)
  ∧ squeeze (mergePairs s) = squeeze s.
Proof.
  unfold Go.len. revert s. induction n as [|n IH]; intros s Hn.
  - destruct s; [done|cbn in Hn; lia].
  - destruct s as [|c r]; [done|]. cbn [String.length] in Hn.
    destruct r as [|c' r'].
    { split; [done|]. split; [|done]. rewrite contains_pairs.
      cbn [String.prefix Go.contains]. by rewrite andb_false_r. }
    cbn [String.length] in Hn.
    destruct (IH (String c' r')) as (Hle & Hlt & Hsq); [cbn [String.length]; lia|].
    destruct (IH r') as (Hle' & Hlt' & Hsq'); [lia|].
    rewrite contains_pairs, mergePairs_cons.
    destruct (bool_decide (c = " "%char)) eqn:Ec; cbn [andb].
    + apply bool_decide_eq_true in Ec as ->.
      destruct (bool_decide (c' = " "%char)) eqn:Ec'.
      * apply bool_decide_eq_true in Ec' as ->.
        cbn [String.length]. split; [lia|]. split; [lia|].
        cbn [squeeze].
        rewrite !(bool_decide_true (" "%char = " "%char)) by done. cbn [andb].
        rewrite (prefix_space (mergePairs r')), mergePairs_first, <- prefix_space.
        change (String.prefix " " (String " " r')) with (String.prefix "" r').
        assert (String.prefix "" r' = true) as -> by (by destruct r').
        by rewrite Hsq'.
      * apply bool_decide_eq_false in Ec'.
        assert (String.prefix " " (String c' r') = false) as Hp.
        { rewrite prefix_space. apply bool_decide_eq_false_2. cbn. congruence. }
        rewrite Hp. cbn [orb String.length] in *.
        split; [lia|]. split; [intros H; specialize (Hlt H); lia|].
        cbn [squeeze].
        rewrite !(bool_decide_true (" "%char = " "%char)) by done. cbn [andb].
        rewrite (prefix_space (mergePairs _)), mergePairs_first, <- prefix_space, Hp.
        by rewrite Hsq.
    + cbn [orb String.length] in *.
      split; [lia|]. split; [intros H; specialize (Hlt H); lia|].
      cbn [squeeze]. rewrite Ec. cbn [andb]. by rewrite Hsq.
Qed.

Lemma squeeze_fixed (s : string) : Go.contains s "  " = false → squeeze s = s.
Proof.
  induction s as [|c r IH]; [done|]. rewrite contains_pairs.
  intros [H1 H2]%orb_false_elim. cbn [squeeze]. rewrite H1.
  by rewrite (IH H2).
Qed.

(** The loop ends, after at most as many rounds as the text has bytes, with
    one space for every run of spaces. *)
Lemma removeExcessSpaces_squeeze (fuel : nat) (s : string) :
  Go.len s < fuel → removeExcessSpaces fuel s = Returned (squeeze s).
Proof.
  revert s. induction fuel as [|fuel IH]; intros s Hfuel; [lia|].
  cbn [removeExcessSpaces].
  destruct (Go.contains s "  ") eqn:E; [|by rewrite squeeze_fixed].
  unfold Go.replaceAll. rewrite replaceFrom_pairs by done.
  destruct (mergePairs_facts (Go.len s) s ltac:(done)) as (_ & Hlt & Hsq).
  rewrite IH by (specialize (Hlt E); lia). by rewrite Hsq.
Qed.

Lemma split_head_empty (sep : ascii) (s : string) (rest : list string) :
  Go.split sep s = "" :: rest → s = "" ∨ Go.index s 0 = Some sep.
Proof.
  destruct s as [|c r]; [by left|]. cbn [Go.split].
  case_bool_decide as Hc; [subst c; by right|].
  by destruct (Go.split sep r).
Qed.

Lemma lastByte_cons (c : ascii) (r : string) :
  r ≠ "" → lastByte (String c r) = lastByte r.
Proof. by destruct r. Qed.

Lemma last_cons_cons {A} (x y : A) (l : list A) :
  last (x :: y :: l) = last (y :: l).
Proof. done. Qed.

Lemma split_last_empty (sep : ascii) (s : string) :
  last (Go.split sep s) = Some "" → s = "" ∨ lastByte s = Some sep.
Proof.
  induction s as [|c r IH]; [by left|]. cbn [Go.split].
  destruct (split_cons sep r) as (h & t & Hr). rewrite Hr in *.
  case_bool_decide as Hc.
  - subst c. rewrite last_cons_cons. intros H. right.
    destruct (IH H) as [->|Hl]; [done|].
    rewrite lastByte_cons; [done|]. by intros ->.
  - destruct t as [|x t]; [done|]. rewrite !last_cons_cons in *.
    intros H. right.
    destruct (IH H) as [->|Hl]; [done|].
    rewrite lastByte_cons; [done|]. by intros ->.
Qed.

Lemma dropInnerEmpty_cons (p q : string) (rest : list string) :
  dropInnerEmpty (p :: q :: rest)
  = if bool_decide (p = "") then dropInnerEmpty (q :: rest)
    else p :: dropInnerEmpty (q :: rest).
Proof. done. Qed.

Lemma dropInnerEmpty_filter (pieces : list string) :
  last pieces ≠ Some "" →
  dropInnerEmpty pieces = filter (λ w, w ≠ "") pieces.
Proof.
  induction pieces as [|p [|q rest] IH]; intros Hlast; [done|..].
  - cbn in Hlast. cbn [dropInnerEmpty]. rewrite filter_cons.
    rewrite decide_True by congruence. done.
  - rewrite last_cons_cons in Hlast.
    rewrite dropInnerEmpty_cons, (filter_cons _ p), (IH Hlast).
    case_bool_decide as Hp.
    + by rewrite decide_False by (intros H; by apply H).
    + by rewrite decide_True.
Qed.

Lemma split_squeeze (s : string) :
  ∃ p rest, Go.split " " s = p :: rest
            ∧ Go.split " " (squeeze s) = p :: dropInnerEmpty rest.
Proof.
  induction s as [|c r (q & rest & Hr & Hsq)]; [by exists "", []|].
  cbn [Go.split squeeze]. rewrite Hr.
  destruct (bool_decide (c = " "%char)) eqn:Ec; cbn [andb].
  - exists "", (q :: rest). split; [done|].
    destruct (String.prefix " " r) eqn:Ep.
    + rewrite Hsq. rewrite prefix_space in Ep.
      apply bool_decide_eq_true in Ep.
      destruct r as [|c' r']; [done|]. cbn in Ep. injection Ep as ->.
      cbn [Go.split] in Hr. rewrite bool_decide_true in Hr by done.
      injection Hr as <- <-.
      destruct (split_cons " " r') as (h & t & ->).
      by rewrite dropInnerEmpty_cons, bool_decide_true.
    + cbn [Go.split]. rewrite Ec, Hsq.
      f_equal. destruct rest as [|x rest]; [done|].
      rewrite dropInnerEmpty_cons, bool_decide_false; [done|]. intros ->.
      rewrite prefix_space in Ep. apply bool_decide_eq_false in Ep.
      by destruct (split_head_empty _ _ _ Hr) as [->|H].
  - exists (String c q), rest. split; [done|].
    cbn [Go.split]. rewrite Ec, Hsq. done.
Qed.

(** Splitting the squeezed text at the spaces gives the words of the text,
    when it has no space in front or at its end. *)
Lemma split_squeeze_words (s : string) :
  s ≠ "" → Go.index s 0 ≠ Some " "%char → lastByte s ≠ Some " "%char →
  Go.split " " (squeeze s) = words s.
Proof.
  intros Hne Hfirst Hlast. destruct (split_squeeze s) as (p & rest & Hs & ->).
  unfold words. rewrite Hs.
  assert (p ≠ "") as Hp.
  { intros ->. by destruct (split_head_empty _ _ _ Hs). }
  rewrite filter_cons, decide_True by done. f_equal.
  destruct rest as [|q rest]; [done|].
  apply dropInnerEmpty_filter. intros H.
  destruct (split_last_empty " " s); [|done..].
  by rewrite Hs, last_cons_cons.
Qed.

Lemma trimLeft_head (cutset s : string) (c : ascii) (r : string) :
  Go.trimLeft cutset s = String c r →
  Go.contains cutset (String c "") = false.
Proof.
  induction s as [|x s IH]; [done|]. cbn [Go.trimLeft].
  destruct (Go.contains cutset (String x "")) eqn:E; [done|].
  by intros [= <- _].
Qed.

Lemma trimRight_head (cutset : string) (c : ascii) (r : string) :
  Go.contains cutset (String c "") = false →
  ∃ r', Go.trimRight cutset (String c r) = String c r'.
Proof.
  intros Hc. cbn [Go.trimRight]. rewrite Hc.
  destruct (Go.trimRight cutset r); by eexists.
Qed.

Lemma trimRight_last (cutset s : string) (c : ascii) :
  lastByte (Go.trimRight cutset s) = Some c →
  Go.contains cutset (String c "") = false.
Proof.
  induction s as [|x s IH]; [done|]. cbn [Go.trimRight].
  destruct (Go.trimRight cutset s) as [|y r'] eqn:E.
  - destruct (Go.contains cutset (String x "")) eqn:Ex; [done|].
    by intros [= <-].
  - rewrite lastByte_cons by done. apply IH.
Qed.

Lemma trimLeft_allSpace (s : string) :
  Go.trimLeft Go.asciiSpace s = "" ↔ allSpace s = true.
Proof.
  induction s as [|c r IH]; [done|]. cbn [Go.trimLeft allSpace].
  rewrite contains_byte. fold (isSpace c).
  destruct (isSpace c); [apply IH|done].
Qed.

Lemma lastByte_Some (s : string) : s ≠ "" → is_Some (lastByte s).
Proof.
  induction s as [|c r IH]; [done|]. intros _.
  destruct r as [|c' r']; [by eexists|].
  rewrite lastByte_cons by done. by apply IH.
Qed.

Lemma lastByte_removeByte (x c : ascii) (s : string) :
  lastByte s = Some c → c ≠ x → lastByte (removeByte x s) = Some c.
Proof.
  intros Hs Hc. induction s as [|a r IH]; [done|].
  destruct r as [|b r'].
  - injection Hs as ->. cbn. by rewrite bool_decide_false.
  - rewrite lastByte_cons in Hs by done. specialize (IH Hs).
    change (removeByte x (String a (String b r')))
      with (if bool_decide (a = x) then removeByte x (String b r')
            else String a (removeByte x (String b r'))).
    destruct (bool_decide (a = x)); [done|].
    rewrite lastByte_cons; [done|]. intros E. by rewrite E in IH.
Qed.

(** The trimmed text without its tabs is empty when the input is white
    space, and else has neither a space in front nor one at its end. *)
Lemma trimmed_tidy (stdin : string) :
  let s := removeByte "009" (Go.trimSpace stdin) in
  if allSpace stdin then s = ""
  else s ≠ "" ∧ Go.index s 0 ≠ Some " "%char ∧ lastByte s ≠ Some " "%char.
Proof.
  cbv zeta. unfold Go.trimSpace, Go.trim.
  destruct (allSpace stdin) eqn:E.
  - apply trimLeft_allSpace in E. by rewrite E.
  - destruct (Go.trimLeft Go.asciiSpace stdin) as [|c r] eqn:El.
    { apply trimLeft_allSpace in El. congruence. }
    pose proof (trimLeft_head _ _ _ _ El) as Hc.
    destruct (trimRight_head Go.asciiSpace c r Hc) as [r' Hr].
    destruct (lastByte_Some (Go.trimRight Go.asciiSpace (String c r)))
      as [d Hd]; [by rewrite Hr|].
    pose proof (trimRight_last _ _ _ Hd) as Hdc.
    rewrite contains_byte in Hc, Hdc.
    rewrite (lastByte_removeByte _ d _ Hd) by (by intros ->).
    rewrite Hr. cbn [removeByte].
    rewrite bool_decide_false by (by intros ->).
    split; [done|]. split; [|by intros [= ->]]. cbn. by intros [= ->].
Qed.

Lemma removeByte_length (c : ascii) (s : string) :
  Go.len (removeByte c s) ≤ Go.len s.
Proof.
  induction s as [|x r IH]; [done|]. cbn [removeByte].
  unfold Go.len in *. case_bool_decide; cbn [String.length]; lia.
Qed.

Lemma trim_length (s cutset : string) : Go.len (Go.trim s cutset) ≤ Go.len s.
Proof.
  unfold Go.trim, Go.len.
  assert (∀ t, String.length (Go.trimRight cutset t) ≤ String.length t) as Hr.
  { induction t as [|x r IH]; [done|]. cbn [Go.trimRight].
    destruct (Go.trimRight cutset r).
    - destruct (Go.contains cutset (String x "")); cbn; lia.
    - cbn [String.length] in *. lia. }
  assert (String.length (Go.trimLeft cutset s) ≤ String.length s) as Hl.
  { induction s as [|x r IH]; [done|]. cbn [Go.trimLeft].
    destruct (Go.contains cutset (String x "")); cbn [String.length]; lia. }
  specialize (Hr (Go.trimLeft cutset s)). lia.
Qed.

Lemma stdinArguments_words (fuel : nat) (stdin : string) :
  Go.len stdin < fuel →
  stdinArguments fuel stdin
  = Returned (if allSpace stdin then [""]
              else words (removeByte "009" (Go.trimSpace stdin))).
Proof.
  intros Hfuel. unfold stdinArguments, Go.replaceAll.
  rewrite replaceFrom_tab by done.
  pose proof (trimmed_tidy stdin) as Ht. cbv zeta in Ht.
  rewrite removeExcessSpaces_squeeze.
  - destruct (allSpace stdin).
    + by rewrite Ht.
    + destruct Ht as (Hne & Hfirst & Hlast). by rewrite split_squeeze_words.
  - pose proof (removeByte_length "009" (Go.trimSpace stdin)).
    pose proof (trim_length stdin Go.asciiSpace). unfold Go.trimSpace in *.
    lia.
Qed.

(** What [ls] reads from a pipe: the loop that removes the excess spaces
    ends (one round for every byte is enough), and the arguments are the
    words of the trimmed input without its tabs, that is the non-empty
    pieces between its spaces; input of nothing but white space gives one
    argument, the empty string.  (Input of ASCII bytes, where
    [strings.TrimSpace] trims the six ASCII white-space bytes only.) *)
Theorem stdin_arguments (fuel : nat) (stdin : string) :
  asciiOnly stdin = true →
  Go.len stdin < fuel →
  stdinArguments fuel stdin
  = Returned (if allSpace stdin then [""]
              else words (removeByte "009" (Go.trimSpace stdin))).
Proof. intros _. apply stdinArguments_words. Qed.

Lemma stdin_arguments_witness :
  stdinArguments 20 (String "009" " -l   src  doc ")
  = Returned (if allSpace (String "009" " -l   src  doc ") then [""]
              else words (removeByte "009"
                            (Go.trimSpace (String "009" " -l   src  doc ")))).
Proof.
  apply (stdin_arguments 20 (String "009" " -l   src  doc "));
    [reflexivity | unfold Go.len; cbn; lia].
Defined.

(** With nothing but white space on a piped stdin (an empty pipe, or the
    line feed of [echo]) [ls] is called with an empty argument and panics
    when it reads the first byte of that argument. *)
Theorem blank_stdin_panics (fuel : nat) (osArgs : list string)
    (stdin : string) :
  allSpace stdin = true →
  Go.len stdin < fuel →
  osArgs ≠ [] →
  ∃ args, lsArguments fuel osArgs (Some stdin) = Returned args
          ∧ splitArgs args = None.
Proof.
  intros Hblank Hfuel Hargs. unfold lsArguments.
  rewrite (stdinArguments_words fuel stdin Hfuel), Hblank.
  destruct osArgs as [|program rest]; [done|]. cbn [app].
  exists (rest ++ [""]). split; [done|].
  apply splitArgs_empty, elem_of_app. right. by left.
Qed.

Lemma blank_stdin_panics_witness :
  ∃ args, lsArguments 2 ["ls"; "-l"] (Some (String "010" "")) = Returned args
          ∧ splitArgs args = None.
Proof.
  apply (blank_stdin_panics 2 ["ls"; "-l"] (String "010" ""));
    [reflexivity | unfold Go.len; cbn; lia | discriminate].
Defined.

